(** * Emstrument: the MIDI command queue, its coalescer and its timed note-offs

    A shallow embedding of [emstrument.c].  The C globals become the fields
    of one [state] record that every function takes and returns; the Lua
    stack of a call becomes the list of its integer arguments; what the
    operating system supplies during a call (allocator answers, CoreMIDI
    handles, the indeterminate contents of an uninitialised local) is an
    [env] argument.  Blocks handed to [dispatch_after] are kept in the state
    as pending [timer]s, and running one is the function [fire].

    Execution is sequential: a block runs between two API calls, never in
    the middle of one, and any pending block may be the next to run.  The
    source submits its blocks to a concurrent dispatch queue and takes no
    lock, so a block can also run while a call is executing; what that
    changes for the two scans of [midi_sendMessages] is stated on the scans
    themselves, which take the table of playing notes as an argument.
    Packets are recorded as the three data bytes handed to [MIDIReceived];
    the CoreMIDI packet-list encoding is not modelled.  [MIDI.notenumber]
    reads and writes no global and is a function of its arguments alone. *)

From Stdlib Require Import ZArith Lia Bool Ascii SpecFloat.
From stdpp Require Import base list strings.

Local Open Scope Z_scope.

(** ** Machine integers

    C integers are [Z] with the wrap-around of their type written out.
    [int] is 32 bits, two's complement. *)

Definition wrap_int (z : Z) : Z := (z + 2 ^ 31) mod 2 ^ 32 - 2 ^ 31.
Definition wrap_u8 (z : Z) : Z := z mod 2 ^ 8.
Definition wrap_u16 (z : Z) : Z := z mod 2 ^ 16.
Definition wrap_u32 (z : Z) : Z := z mod 2 ^ 32.

(** ** Floating point

    [float] is IEEE 754 binary32 and [double] binary64, as on the machines
    the module is built for; expressions are evaluated in the type C gives
    them (no excess precision) and round to nearest, ties to even.  The
    operations are those of [SpecFloat], at precision 24 and 53. *)

Definition float : Set := spec_float.
Definition double : Set := spec_float.

Definition float_sub : float -> float -> float := SFsub 24 128.
Definition double_mul : double -> double -> double := SFmul 53 1024.

(** Conversions.  An integer converts to the nearest value of the type; a
    [float] converts to [double] exactly; a [double] converts to the
    nearest [float], and to an infinity when it is beyond the largest, as
    IEEE 754 arithmetic does (ISO C by itself leaves the result of that
    last case open). *)
Definition float_of_Z (z : Z) : float := binary_normalize 24 128 z 0 false.
Definition double_of_Z (z : Z) : double := binary_normalize 53 1024 z 0 false.

Definition double_of_float (x : float) : double :=
  match x with
  | S754_finite s m e => binary_normalize 53 1024 (cond_Zopp s (Zpos m)) e s
  | _ => x
  end.

Definition float_of_double (x : double) : float :=
  match x with
  | S754_finite s m e => binary_normalize 24 128 (cond_Zopp s (Zpos m)) e s
  | _ => x
  end.

(** A floating value converts to an integer type by discarding the
    fraction; the behaviour is undefined ([None]) for a NaN, an infinity
    and a value the type cannot hold. *)
Definition truncate (x : spec_float) : option Z :=
  match x with
  | S754_zero _ => Some 0
  | S754_finite s m e =>
      Some (cond_Zopp s (if 0 <=? e then Zpos m * 2 ^ e else Zpos m / 2 ^ (- e)))
  | _ => None
  end.

Definition int_of_float (x : float) : option Z :=
  match truncate x with
  | Some z => if (- 2 ^ 31 <=? z) && (z <? 2 ^ 31) then Some z else None
  | None => None
  end.

Definition int64_of_double (x : double) : option Z :=
  match truncate x with
  | Some z => if (- 2 ^ 63 <=? z) && (z <? 2 ^ 63) then Some z else None
  | None => None
  end.

(** [roundf]: the nearest integer, halfway cases away from zero. *)
Definition roundf (x : float) : float :=
  match x with
  | S754_finite s m e =>
      if 0 <=? e then x
      else
        let q := Zpos m / 2 ^ (- e) in
        let r := Zpos m mod 2 ^ (- e) in
        binary_normalize 24 128
          (cond_Zopp s (if 2 ^ (- e) <=? 2 * r then q + 1 else q)) 0 s
  | _ => x
  end.

(** ** Arrays of fixed size

    [uint16_t a[128]], [bool notePlaying[16][128]] and
    [uint8_t lastNoteIDs[16][128]] are total functions of their indices.  An
    index outside the declared bounds is undefined behaviour in C; the
    queue only ever holds in-range commands (see [cmd_in_range]). *)

Definition upd {A} (a : Z -> A) (i : Z) (v : A) : Z -> A :=
  fun i' => if i' =? i then v else a i'.

Definition upd2 {A} (a : Z -> Z -> A) (i j : Z) (v : A) : Z -> Z -> A :=
  fun i' j' => if (i' =? i) && (j' =? j) then v else a i' j'.

(** ** Commands *)

Inductive commandType : Set :=
| kInvalid
| kNoteOn
| kNoteOnWithDuration
| kNoteOff
| kCC
| kPitchBend
| kResetNotes.

#[global] Instance commandType_eq_dec : EqDecision commandType.
Proof. solve_decision. Defined.

(** The struct has three anonymous unions; the first member of each names
    the field here and the other members are aliases of it. *)
Record command : Set := mkCommand {
  type : commandType;
  channel : Z;
  note : Z;
  velocity : Z;
  duration : Z
}.

Definition CC : command -> Z := note.
Definition MS7b : command -> Z := note.
Definition value : command -> Z := velocity.
Definition LS7b : command -> Z := velocity.

#[global] Instance command_eq_dec : EqDecision command.
Proof. solve_decision. Defined.

Definition set_type (t : commandType) (c : command) : command :=
  mkCommand t (channel c) (note c) (velocity c) (duration c).
Definition set_channel (ch : Z) (c : command) : command :=
  mkCommand (type c) ch (note c) (velocity c) (duration c).
Definition set_note (n : Z) (c : command) : command :=
  mkCommand (type c) (channel c) n (velocity c) (duration c).
Definition set_velocity (v : Z) (c : command) : command :=
  mkCommand (type c) (channel c) (note c) v (duration c).
Definition set_duration (d : Z) (c : command) : command :=
  mkCommand (type c) (channel c) (note c) (velocity c) d.

Definition is_noteon (c : command) : bool :=
  match type c with
  | kNoteOn | kNoteOnWithDuration => true
  | _ => false
  end.

(** The ranges of section 3 of the specification, per kind. *)
Definition in_range (lo hi x : Z) : bool := (lo <=? x) && (x <=? hi).

Definition cmd_in_range (c : command) : bool :=
  in_range 0 15 (channel c) &&
  match type c with
  | kNoteOn => in_range 0 127 (note c) && in_range 1 127 (velocity c)
  | kNoteOnWithDuration =>
      in_range 0 127 (note c) && in_range 1 127 (velocity c) && (0 <? duration c)
  | kNoteOff => in_range 0 127 (note c)
  | kCC => in_range 0 119 (CC c) && in_range 0 127 (value c)
  | kPitchBend => in_range 0 127 (MS7b c) && in_range 0 127 (LS7b c)
  | kResetNotes => true
  | kInvalid => true
  end.

Definition batch_in_range (q : list command) : bool := forallb cmd_in_range q.

(** ** midi_sendMessages, step 1: the backward scan

    The local variables of [midi_sendMessages].  [laterNotes] and
    [messagesSent] are [int] counters that move by one per loop iteration at
    most, so they stay within [commandQueueIndex] of their start and are
    kept as plain integers. *)

Record locals := mkLocals {
  noteOns : Z -> Z;
  noteOffs : Z -> Z;
  CCs : Z -> Z;
  notesReset : Z;
  pitchBends : Z;
  laterNotes : Z;
  messagesSent : Z
}.

Definition locals_init (commandQueueIndex : Z) : locals :=
  mkLocals (fun _ => 0) (fun _ => 0) (fun _ => 0) 0 0 0 commandQueueIndex.

(** [((mask >> ch) & 1) == 1] *)
Definition bit_set (mask ch : Z) : bool := Z.land (Z.shiftr mask ch) 1 =? 1.

(** [mask |= (1 << ch)] on a [uint16_t] *)
Definition claim (mask ch : Z) : Z := wrap_u16 (Z.lor mask (Z.shiftl 1 ch)).

(** [commandQueue[i].type = kInvalid; messagesSent--; break;] *)
Definition remove_me (c : command) (l : locals) : locals * command :=
  (mkLocals (noteOns l) (noteOffs l) (CCs l) (notesReset l) (pitchBends l)
     (laterNotes l) (messagesSent l - 1),
   set_type kInvalid c).

(** The body of the loop: the [switch] on [commandQueue[i].type]. *)
Definition pass1_step (notePlaying : Z -> Z -> bool) (c : command) (l : locals)
  : locals * command :=
  let ch := channel c in
  match type c with
  | kNoteOn | kNoteOnWithDuration =>
      let note := note c in
      if bit_set (noteOffs l note) ch then remove_me c l
      else if bit_set (noteOns l note) ch then remove_me c l
      else if bit_set (notesReset l) ch then remove_me c l
      else
        (mkLocals (upd (noteOns l) note (claim (noteOns l note) ch))
           (noteOffs l) (CCs l) (notesReset l) (pitchBends l)
           (if notePlaying ch note then laterNotes l + 1 else laterNotes l)
           (messagesSent l),
         c)
  | kNoteOff =>
      let note := note c in
      (mkLocals (noteOns l) (upd (noteOffs l) note (claim (noteOffs l note) ch))
         (CCs l) (notesReset l) (pitchBends l) (laterNotes l) (messagesSent l),
       c)
  | kCC =>
      let cc := CC c in
      if bit_set (CCs l cc) ch then remove_me c l
      else
        (mkLocals (noteOns l) (noteOffs l) (upd (CCs l) cc (claim (CCs l cc) ch))
           (notesReset l) (pitchBends l) (laterNotes l) (messagesSent l),
         c)
  | kPitchBend =>
      if bit_set (pitchBends l) ch then remove_me c l
      else
        (mkLocals (noteOns l) (noteOffs l) (CCs l) (notesReset l)
           (claim (pitchBends l) ch) (laterNotes l) (messagesSent l),
         c)
  | kResetNotes =>
      (mkLocals (noteOns l) (noteOffs l) (CCs l) (claim (notesReset l) ch)
         (pitchBends l) (laterNotes l) (messagesSent l),
       c)
  | kInvalid => (l, c)
  end.

(** [for (i = commandQueueIndex - 1; i >= 0; i--)]: the entries behind the
    head are visited first, then the head, with the locals they left. *)
Fixpoint pass1 (notePlaying : Z -> Z -> bool) (q : list command) (l : locals)
  : locals * list command :=
  match q with
  | [] => (l, [])
  | c :: rest =>
      let '(l1, rest') := pass1 notePlaying rest l in
      let '(l2, c') := pass1_step notePlaying c l1 in
      (l2, c' :: rest')
  end.

(** ** Step 2: the forward scan

    [delayed] is [delayedCommands[0 .. delayedCommandsIndex)]. *)

Definition retrigger (notePlaying : Z -> Z -> bool) (c : command) : bool :=
  is_noteon c && notePlaying (channel c) (note c).

Fixpoint pass2 (notePlaying : Z -> Z -> bool) (q : list command)
    (delayed : list command) : list command * list command :=
  match q with
  | [] => ([], delayed)
  | c :: rest =>
      if retrigger notePlaying c then
        let '(rest', delayed') := pass2 notePlaying rest (delayed ++ [c]) in
        (set_type kNoteOff c :: rest', delayed')
      else
        let '(rest', delayed') := pass2 notePlaying rest delayed in
        (c :: rest', delayed')
  end.

(** Steps 1 and 2 together: the queue as step 3 finds it, and the delayed
    list. *)
Definition coalesce (notePlaying : Z -> Z -> bool) (q : list command)
  : list command * list command :=
  pass2 notePlaying
    (snd (pass1 notePlaying q (locals_init (Z.of_nat (length q))))) [].

(** Step 3 sends every entry whose type is not [kInvalid]; those entries,
    in queue order, are the immediate list. *)
Definition immediateList (q : list command) : list command :=
  filter (fun c => type c <> kInvalid) q.

(** ** The globals *)

(** A block handed to [dispatch_after], with the variables it captured by
    value.  Globals are not captured: a block reads them when it runs. *)
Inductive block : Set :=
| NoteOffBlock (ch note currentNoteID : Z)
| DelayedBlock (delayedCommands : list command).

(** [delta] is the second argument of [dispatch_time], an [int64_t] count
    of nanoseconds.  The source computes it in [double]; it is [None] when
    that [double] has no [int64_t] value, where C leaves the conversion
    undefined. *)
Record timer : Set := mkTimer { delta : option Z; body : block }.

(** The three bytes of one MIDI message ([Byte] is [UInt8]). *)
Definition packet : Set := (Z * Z * Z)%type.

Definition bytes (b0 b1 b2 : Z) : packet := (wrap_u8 b0, wrap_u8 b1, wrap_u8 b2).

(** [commandQueue] is [None] for the null pointer, else the allocated
    cells; the queue proper is its first [commandQueueIndex] cells.
    [received] lists the messages given to [MIDIReceived], oldest first;
    [timers] the blocks submitted and not yet run. *)
Record state := mkState {
  duration_unit : double;
  late_note_offset : double;
  luaMIDIClient : Z;
  luaMIDIEndpoint : Z;
  luaMIDIQueue : Z;
  notePlaying : Z -> Z -> bool;
  lastNoteIDs : Z -> Z -> Z;
  commandQueue : option (list command);
  commandQueueAllocatedSize : Z;
  commandQueueIndex : Z;
  received : list packet;
  timers : list timer
}.

(** The static initialisers. *)
Definition DEFAULT_DURATION_UNIT : Z := 16.
Definition DEFAULT_OFFSET : Z := 0.
Definition CMD_BLOCK : Z := 64.

Definition static_init : state :=
  mkState (double_of_Z DEFAULT_DURATION_UNIT) (double_of_Z DEFAULT_OFFSET) 0 0 0
    (fun _ _ => false) (fun _ _ => 0) None 0 0 [] [].

Definition set_timing (du lno : double) (s : state) : state :=
  mkState du lno (luaMIDIClient s) (luaMIDIEndpoint s) (luaMIDIQueue s)
    (notePlaying s) (lastNoteIDs s) (commandQueue s)
    (commandQueueAllocatedSize s) (commandQueueIndex s) (received s) (timers s).

Definition set_handles (client endpoint queue : Z) (s : state) : state :=
  mkState (duration_unit s) (late_note_offset s) client endpoint queue
    (notePlaying s) (lastNoteIDs s) (commandQueue s)
    (commandQueueAllocatedSize s) (commandQueueIndex s) (received s) (timers s).

Definition set_notePlaying (np : Z -> Z -> bool) (s : state) : state :=
  mkState (duration_unit s) (late_note_offset s) (luaMIDIClient s)
    (luaMIDIEndpoint s) (luaMIDIQueue s) np (lastNoteIDs s) (commandQueue s)
    (commandQueueAllocatedSize s) (commandQueueIndex s) (received s) (timers s).

Definition set_lastNoteIDs (ids : Z -> Z -> Z) (s : state) : state :=
  mkState (duration_unit s) (late_note_offset s) (luaMIDIClient s)
    (luaMIDIEndpoint s) (luaMIDIQueue s) (notePlaying s) ids (commandQueue s)
    (commandQueueAllocatedSize s) (commandQueueIndex s) (received s) (timers s).

Definition set_commandQueue (buf : option (list command)) (s : state) : state :=
  mkState (duration_unit s) (late_note_offset s) (luaMIDIClient s)
    (luaMIDIEndpoint s) (luaMIDIQueue s) (notePlaying s) (lastNoteIDs s) buf
    (commandQueueAllocatedSize s) (commandQueueIndex s) (received s) (timers s).

Definition set_commandQueueAllocatedSize (n : Z) (s : state) : state :=
  mkState (duration_unit s) (late_note_offset s) (luaMIDIClient s)
    (luaMIDIEndpoint s) (luaMIDIQueue s) (notePlaying s) (lastNoteIDs s)
    (commandQueue s) n (commandQueueIndex s) (received s) (timers s).

Definition set_commandQueueIndex (i : Z) (s : state) : state :=
  mkState (duration_unit s) (late_note_offset s) (luaMIDIClient s)
    (luaMIDIEndpoint s) (luaMIDIQueue s) (notePlaying s) (lastNoteIDs s)
    (commandQueue s) (commandQueueAllocatedSize s) i (received s) (timers s).

Definition set_received (r : list packet) (s : state) : state :=
  mkState (duration_unit s) (late_note_offset s) (luaMIDIClient s)
    (luaMIDIEndpoint s) (luaMIDIQueue s) (notePlaying s) (lastNoteIDs s)
    (commandQueue s) (commandQueueAllocatedSize s) (commandQueueIndex s) r
    (timers s).

Definition set_timers (t : list timer) (s : state) : state :=
  mkState (duration_unit s) (late_note_offset s) (luaMIDIClient s)
    (luaMIDIEndpoint s) (luaMIDIQueue s) (notePlaying s) (lastNoteIDs s)
    (commandQueue s) (commandQueueAllocatedSize s) (commandQueueIndex s)
    (received s) t.

(** The queue proper: [commandQueue[0 .. commandQueueIndex)]. *)
Definition queued (s : state) : list command :=
  match commandQueue s with
  | Some buf => take (Z.to_nat (commandQueueIndex s)) buf
  | None => []
  end.

(** ** The operating system, as seen from the module *)

Definition MIDIReceived (packetlist : list packet) (s : state) : state :=
  set_received (received s ++ packetlist) s.

(** [dispatch_after(dispatch_time(DISPATCH_TIME_NOW, delta), luaMIDIQueue, b)] *)
Definition dispatch_after (delta : option Z) (b : block) (s : state) : state :=
  set_timers (timers s ++ [mkTimer delta b]) s.

(** ** The MIDI sending functions *)

Definition sendNoteOn (ch note vel : Z) (s : state) : state :=
  let s := set_lastNoteIDs
             (upd2 (lastNoteIDs s) ch note (wrap_u8 (lastNoteIDs s ch note + 1))) s in
  let s := MIDIReceived [bytes (0x90 + ch) note vel] s in
  set_notePlaying (upd2 (notePlaying s) ch note true) s.

(** [1000000 * duration_unit * (duration - offset)] with an [int] duration
    and a [float] offset: the duration is converted to [float] and the
    difference taken in [float]; [1000000 * duration_unit] is a [double]
    product, the difference is promoted to [double] for the second product,
    and the result is converted to the [int64_t] that [dispatch_time]
    takes. *)
Definition note_off_delay (duration_unit : double) (duration : Z)
    (offset : float) : option Z :=
  int64_of_double
    (double_mul (double_mul (double_of_Z 1000000) duration_unit)
       (double_of_float (float_sub (float_of_Z duration) offset))).

Definition sendNoteOnWithDuration (ch note vel duration : Z) (offset : float)
    (s : state) : state :=
  let s := set_lastNoteIDs
             (upd2 (lastNoteIDs s) ch note (wrap_u8 (lastNoteIDs s ch note + 1))) s in
  let currentNoteID := lastNoteIDs s ch note in
  let s := MIDIReceived [bytes (0x90 + ch) note vel] s in
  let s := set_notePlaying (upd2 (notePlaying s) ch note true) s in
  dispatch_after (note_off_delay (duration_unit s) duration offset)
    (NoteOffBlock ch note currentNoteID) s.

Definition sendNoteOff (ch note : Z) (s : state) : state :=
  let s := MIDIReceived [bytes (0x80 + ch) note 100] s in
  set_notePlaying (upd2 (notePlaying s) ch note false) s.

Definition sendCC (ch CC value : Z) (s : state) : state :=
  MIDIReceived [bytes (0xB0 + ch) CC value] s.

Definition sendPitchBend (ch msb lsb : Z) (s : state) : state :=
  MIDIReceived [bytes (0xE0 + ch) lsb msb] s.

(** One packet list with a note-off for every note of the channel that is
    playing, then the 128 flags of the channel are cleared. *)
Definition sendResetNotes (ch : Z) (s : state) : state :=
  let msgs := (fun i => bytes (0x80 + ch) i 0) <$>
                filter (fun i => notePlaying s ch i = true) (seqZ 0 128) in
  let s := MIDIReceived msgs s in
  set_notePlaying
    (fun ch' i => if (ch' =? ch) && in_range 0 127 i then false
                  else notePlaying s ch' i) s.

(** The block scheduled by [sendNoteOnWithDuration]. *)
Definition note_off_block (ch note currentNoteID : Z) (s : state) : state :=
  if lastNoteIDs s ch note =? currentNoteID then
    let s := MIDIReceived [bytes (0x80 + ch) note 0] s in
    set_notePlaying (upd2 (notePlaying s) ch note false) s
  else s.

(** ** Step 3: send what remains in the queue *)

Definition pass3_step (c : command) (s : state) : state :=
  match type c with
  | kNoteOn => sendNoteOn (channel c) (note c) (velocity c) s
  | kNoteOnWithDuration =>
      sendNoteOnWithDuration (channel c) (note c) (velocity c) (duration c)
        (float_of_Z 0) s
  | kNoteOff => sendNoteOff (channel c) (note c) s
  | kCC => sendCC (channel c) (CC c) (value c) s
  | kPitchBend => sendPitchBend (channel c) (MS7b c) (LS7b c) s
  | kResetNotes => sendResetNotes (channel c) s
  | kInvalid => s
  end.

Fixpoint pass3 (q : list command) (s : state) : state :=
  match q with
  | [] => s
  | c :: rest => pass3 rest (pass3_step c s)
  end.

(** ** Step 4: the block that sends the delayed commands

    The block passes the [double] [late_note_offset], read when it runs,
    for the [float] parameter. *)

Definition delayed_step (c : command) (s : state) : state :=
  match type c with
  | kNoteOn => sendNoteOn (channel c) (note c) (velocity c) s
  | kNoteOnWithDuration =>
      sendNoteOnWithDuration (channel c) (note c) (velocity c) (duration c)
        (float_of_double (late_note_offset s)) s
  | _ => s
  end.

Fixpoint delayed_block (delayedCommands : list command) (s : state) : state :=
  match delayedCommands with
  | [] => s
  | c :: rest => delayed_block rest (delayed_step c s)
  end.

Definition run_block (b : block) (s : state) : state :=
  match b with
  | NoteOffBlock ch note currentNoteID => note_off_block ch note currentNoteID s
  | DelayedBlock delayedCommands => delayed_block delayedCommands s
  end.

(** The dispatch queue runs the [i]-th pending block, once. *)
Definition fire (i : nat) (s : state) : state :=
  match timers s !! i with
  | Some t => run_block (body t) (set_timers (delete i (timers s)) s)
  | None => s
  end.

(** ** The Lua API

    What the surroundings supply during one call: whether the allocation the
    call makes succeeds, the contents of the call's uninitialised local
    [command] before its fields are assigned, and the handles CoreMIDI and
    GCD return to [MIDI.init()]. *)
Record env := mkEnv {
  alloc_ok : bool;
  uninit : command;
  new_client : Z;
  new_endpoint : Z;
  new_queue : Z
}.

(** A call returns to Lua, raises a Lua error (before it has changed any
    global), or leaves the behaviour C defines: a store through a null
    pointer or outside the allocated cells. *)
Inductive result :=
| Return (s : state)
| LuaError (msg : string)
| Undefined.

(** The arguments of a call are the values on the Lua stack, first
    argument first; that each is a number is the binding's business.
    [lua_gettop] is their count.  An argument read with
    [luaL_checkinteger(L, i)] is given as the [lua_Integer] it yields;
    storing it in an [int] wraps it.  An argument read with
    [luaL_checknumber(L, i)] is given as the [double] it yields. *)
Definition lua_gettop {A} (args : list A) : Z := Z.of_nat (length args).

Definition luaL_checkinteger (args : list Z) (i : nat) : Z :=
  default 0 (args !! (i - 1)%nat).

Definition luaL_checknumber (args : list double) (i : nat) : double :=
  default (S754_zero false) (args !! (i - 1)%nat).

Definition initcheck (s : state) : bool :=
  negb (luaMIDIClient s =? 0) && negb (luaMIDIEndpoint s =? 0) &&
  negb (luaMIDIQueue s =? 0) && bool_decide (is_Some (commandQueue s)).

(** [realloc(commandQueue, n * sizeof(command))]: the old cells are kept,
    the new ones are indeterminate. *)
Definition realloc (e : env) (old : option (list command)) (n : Z)
  : option (list command) :=
  if alloc_ok e then
    let cells := default [] old in
    Some (take (Z.to_nat n) cells ++
          replicate (Z.to_nat n - length cells)%nat (uninit e))
  else None.

(** [commandQueueIndex == commandQueueAllocatedSize] compares an [int] with
    a [uint32_t], so the index is converted to unsigned. *)
Definition queueCommand (e : env) (c : command) (s : state) : option state :=
  let s :=
    if wrap_u32 (commandQueueIndex s) =? commandQueueAllocatedSize s then
      let s := set_commandQueueAllocatedSize
                 (wrap_u32 (commandQueueAllocatedSize s + CMD_BLOCK)) s in
      set_commandQueue
        (realloc e (commandQueue s) (commandQueueAllocatedSize s)) s
    else s in
  match commandQueue s with
  | Some buf =>
      let i := commandQueueIndex s in
      if (0 <=? i) && (i <? Z.of_nat (length buf)) then
        let s := set_commandQueue (Some (<[Z.to_nat i := c]> buf)) s in
        Some (set_commandQueueIndex (wrap_int (i + 1)) s)
      else None
  | None => None
  end.

Definition queue_and_return (e : env) (c : command) (s : state) : result :=
  match queueCommand e c s with
  | Some s' => Return s'
  | None => Undefined
  end.

(** [channel = luaL_checkinteger(L, k); channel--;] and the two clamps, the
    same four lines in every function that takes a channel.  The decrement
    of [INT_MIN] overflows, which C leaves undefined: [None]. *)
Definition channel_arg (x : Z) : option Z :=
  let channel := wrap_int x in
  if channel =? - 2 ^ 31 then None
  else
    let channel := channel - 1 in
    let channel := if channel <? 0 then 0 else channel in
    Some (if channel >? 15 then 15 else channel).

(** [int channel = 0; if (args == k) { ... }] *)
Definition optional_channel (given : bool) (x : Z) : option Z :=
  if given then channel_arg x else Some 0.

Definition midi_init (e : env) (s : state) : result :=
  let s :=
    if (luaMIDIClient s =? 0) && (luaMIDIEndpoint s =? 0) && (luaMIDIQueue s =? 0)
    then set_handles (new_client e) (new_endpoint e) (new_queue e) s
    else s in
  let s :=
    match commandQueue s with
    | None =>
        let s := set_commandQueue
                   (if alloc_ok e then Some (replicate (Z.to_nat CMD_BLOCK) (uninit e))
                    else None) s in
        set_commandQueueAllocatedSize CMD_BLOCK s
    | Some _ => s
    end in
  let s := set_commandQueueIndex 0 s in
  Return (set_notePlaying
            (fun i j => if in_range 0 15 i && in_range 0 127 j then false
                        else notePlaying s i j) s).

Definition midi_configuretiming (args : list double) (s : state) : result :=
  let nargs := lua_gettop args in
  if (nargs <? 1) || (nargs >? 2) then
    LuaError "Invalid number of arguments to MIDI.configuretiming()"
  else
    let s := set_timing (luaL_checknumber args 1) (late_note_offset s) s in
    Return (if nargs =? 2
            then set_timing (duration_unit s) (luaL_checknumber args 2) s
            else s).

Definition midi_noteon (e : env) (args : list Z) (s : state) : result :=
  let nargs := lua_gettop args in
  if (nargs <? 2) || (nargs >? 3) then
    LuaError "Invalid number of arguments to MIDI.noteon()"
  else if negb (initcheck s) then
    LuaError "Must call MIDI.init() before MIDI.noteon()"
  else
    let note := wrap_int (Z.land (luaL_checkinteger args 1) 0x7F) in
    let vel := wrap_int (Z.land (luaL_checkinteger args 2) 0x7F) in
    if vel =? 0 then Return s
    else
      match optional_channel (nargs =? 3) (luaL_checkinteger args 3) with
      | None => Undefined
      | Some channel =>
          let noteOnCommand :=
            set_velocity vel
              (set_note note (set_channel channel (set_type kNoteOn (uninit e)))) in
          queue_and_return e noteOnCommand s
      end.

Definition midi_noteoff (e : env) (args : list Z) (s : state) : result :=
  let nargs := lua_gettop args in
  if (nargs <? 1) || (nargs >? 2) then
    LuaError "Invalid number of arguments to MIDI.noteoff()"
  else if negb (initcheck s) then
    LuaError "Must call MIDI.init() before MIDI.noteoff()"
  else
    let note := wrap_int (Z.land (luaL_checkinteger args 1) 0x7F) in
    match optional_channel (nargs =? 2) (luaL_checkinteger args 2) with
    | None => Undefined
    | Some channel =>
        let noteOffCommand :=
          set_note note (set_channel channel (set_type kNoteOff (uninit e))) in
        queue_and_return e noteOffCommand s
    end.

Definition midi_noteonwithduration (e : env) (args : list Z) (s : state)
  : result :=
  let nargs := lua_gettop args in
  if (nargs <? 3) || (nargs >? 4) then
    LuaError "Invalid number of arguments to MIDI.noteonwithduration()"
  else if negb (initcheck s) then
    LuaError "Must call MIDI.init() before MIDI.noteonwithduration()"
  else
    let note := wrap_int (Z.land (luaL_checkinteger args 1) 0x7F) in
    let vel := wrap_int (Z.land (luaL_checkinteger args 2) 0x7F) in
    if vel =? 0 then Return s
    else
      let duration := wrap_int (luaL_checkinteger args 3) in
      if negb (duration >? 0) then Return s
      else
        match optional_channel (nargs =? 4) (luaL_checkinteger args 4) with
        | None => Undefined
        | Some channel =>
            let noteOnCommand :=
              set_duration duration
                (set_velocity vel
                   (set_note note
                      (set_channel channel
                         (set_type kNoteOnWithDuration (uninit e))))) in
            queue_and_return e noteOnCommand s
        end.

Definition midi_CC (e : env) (args : list Z) (s : state) : result :=
  let nargs := lua_gettop args in
  if (nargs <? 2) || (nargs >? 3) then
    LuaError "Invalid number of arguments to MIDI.CC()"
  else if negb (initcheck s) then
    LuaError "Must call MIDI.init() before MIDI.CC()"
  else
    let CC := wrap_int (luaL_checkinteger args 1) in
    let CC := if CC <? 0 then 0 else CC in
    let CC := if CC >? 119 then 119 else CC in
    let value := wrap_int (Z.land (luaL_checkinteger args 2) 0x7F) in
    match optional_channel (nargs =? 3) (luaL_checkinteger args 3) with
    | None => Undefined
    | Some channel =>
        let ccCommand :=
          set_velocity value
            (set_note CC (set_channel channel (set_type kCC (uninit e)))) in
        queue_and_return e ccCommand s
    end.

(** [float value = luaL_checknumber(L, 1)] with its two clamps against the
    [double] constants [1.0] and [-1.0] (a NaN passes both), then
    [int delta14b = roundf(8191.0 * value)]: the product is a [double],
    [roundf] takes it as a [float], and the conversion of its result to
    [int] is undefined for a NaN. *)
Definition clamped_bend (bend : double) : float :=
  let value := float_of_double bend in
  let value :=
    if SFltb (double_of_Z 1) (double_of_float value)
    then float_of_double (double_of_Z 1) else value in
  if SFltb (double_of_float value) (double_of_Z (-1))
  then float_of_double (double_of_Z (-1)) else value.

Definition bend_delta (bend : double) : option Z :=
  int_of_float
    (roundf (float_of_double
               (double_mul (double_of_Z 8191) (double_of_float (clamped_bend bend))))).

(** [args] are the arguments that follow the bend. *)
Definition midi_pitchbend (e : env) (bend : double) (args : list Z) (s : state)
  : result :=
  let nargs := 1 + lua_gettop args in
  if (nargs <? 1) || (nargs >? 2) then
    LuaError "Invalid number of arguments to MIDI.pitchbend()"
  else if negb (initcheck s) then
    LuaError "Must call MIDI.init() before MIDI.pitchbend()"
  else
    match optional_channel (nargs =? 2) (luaL_checkinteger args 1) with
    | None => Undefined
    | Some channel =>
        match bend_delta bend with
        | None => Undefined
        | Some delta14b =>
            let pbvalue14b := wrap_int (8192 + delta14b) in
            let pbvalueL7b := Z.land pbvalue14b 0x7F in
            let pbvalueM7b := Z.land (Z.shiftr pbvalue14b 7) 0x7F in
            let pitchBendCommand :=
              set_velocity pbvalueL7b
                (set_note pbvalueM7b
                   (set_channel channel (set_type kPitchBend (uninit e)))) in
            queue_and_return e pitchBendCommand s
        end
    end.

Definition midi_allnotesoff (e : env) (args : list Z) (s : state) : result :=
  let nargs := lua_gettop args in
  if nargs >? 1 then
    LuaError "Invalid number of arguments to MIDI.allnotesoff()"
  else if negb (initcheck s) then
    LuaError "Must call MIDI.init() before MIDI.allnotesoff()"
  else
    match optional_channel (nargs =? 1) (luaL_checkinteger args 1) with
    | None => Undefined
    | Some channel =>
        let resetNotesCommand :=
          set_channel channel (set_type kResetNotes (uninit e)) in
        queue_and_return e resetNotesCommand s
    end.

(** [1000000 * late_note_offset], a [double], converted to [int64_t]. *)
Definition flush_delay (late_note_offset : double) : option Z :=
  int64_of_double (double_mul (double_of_Z 1000000) late_note_offset).

(** [delayedCommands] is [malloc(laterNotes * sizeof(command))], unchecked:
    when the allocation fails the first store into it goes through a null
    pointer; when nothing is stored the null pointer is only freed. *)
Definition midi_sendMessages (e : env) (s : state) : result :=
  if negb (initcheck s) then
    LuaError "Must call MIDI.init() before MIDI.sendmessages()"
  else
    match commandQueue s with
    | None => LuaError "Must call MIDI.init() before MIDI.sendmessages()"
    | Some buf =>
        let n := Z.to_nat (commandQueueIndex s) in
        let '(l, q1) :=
          pass1 (notePlaying s) (take n buf) (locals_init (commandQueueIndex s)) in
        let '(q2, delayedCommands) := pass2 (notePlaying s) q1 [] in
        if negb (alloc_ok e) && negb (bool_decide (delayedCommands = [])) then
          Undefined
        else
          let s := set_commandQueue (Some (q2 ++ drop n buf)) s in
          let s := pass3 q2 s in
          let s := dispatch_after (flush_delay (late_note_offset s))
                     (DelayedBlock delayedCommands) s in
          Return (set_commandQueueIndex 0 s)
    end.

(** ** Runs of the module

    One thing that happens to the globals: an API call, or the dispatch
    queue running a pending block. *)
Inductive call :=
| Init
| ConfigureTiming (args : list double)
| NoteOn (args : list Z)
| NoteOff (args : list Z)
| NoteOnWithDuration (args : list Z)
| ControlChange (args : list Z)
| PitchBend (bend : double) (args : list Z)
| AllNotesOff (args : list Z)
| SendMessages
| TimerFires (i : nat).

Definition exec (e : env) (k : call) (s : state) : result :=
  match k with
  | Init => midi_init e s
  | ConfigureTiming args => midi_configuretiming args s
  | NoteOn args => midi_noteon e args s
  | NoteOff args => midi_noteoff e args s
  | NoteOnWithDuration args => midi_noteonwithduration e args s
  | ControlChange args => midi_CC e args s
  | PitchBend bend args => midi_pitchbend e bend args s
  | AllNotesOff args => midi_allnotesoff e args s
  | SendMessages => midi_sendMessages e s
  | TimerFires i => Return (fire i s)
  end.

(** A run from the load of the module; a Lua error leaves the globals as
    they were, undefined behaviour ends the run. *)
Fixpoint run (calls : list (env * call)) (s : state) : option state :=
  match calls with
  | [] => Some s
  | (e, k) :: rest =>
      match exec e k s with
      | Return s' => run rest s'
      | LuaError _ => run rest s
      | Undefined => None
      end
  end.

(** An environment in which every allocation succeeds. *)
Definition plain_env : env := mkEnv true (mkCommand kInvalid 0 0 0 0) 1 2 3.

(** ** Vocabulary of the statements *)

(** A note-off, a note-on of either kind, a reset, a controller change for
    the given key. *)
Definition noteoff_for (n ch : Z) (c : command) : bool :=
  bool_decide (type c = kNoteOff) && (note c =? n) && (channel c =? ch).

Definition noteon_for (n ch : Z) (c : command) : bool :=
  is_noteon c && (note c =? n) && (channel c =? ch).

Definition reset_for (ch : Z) (c : command) : bool :=
  bool_decide (type c = kResetNotes) && (channel c =? ch).

Definition cc_for (cc ch : Z) (c : command) : bool :=
  bool_decide (type c = kCC) && (CC c =? cc) && (channel c =? ch).

(** Two sets of locals that differ in the counters at most. *)
Definition same_masks (l l' : locals) : Prop :=
  noteOns l = noteOns l' /\ noteOffs l = noteOffs l' /\ CCs l = CCs l' /\
  notesReset l = notesReset l' /\ pitchBends l = pitchBends l'.

(** What step 2 leaves in the queue in place of [c]. *)
Definition substitute (np : Z -> Z -> bool) (c : command) : command :=
  if retrigger np c then set_type kNoteOff c else c.

(** What the sending functions and the blocks leave alone: the timing
    settings, the handles and the three queue variables. *)
Definition same_settings (s s' : state) : Prop :=
  duration_unit s' = duration_unit s /\
  late_note_offset s' = late_note_offset s /\
  luaMIDIClient s' = luaMIDIClient s /\
  luaMIDIEndpoint s' = luaMIDIEndpoint s /\
  luaMIDIQueue s' = luaMIDIQueue s /\
  commandQueue s' = commandQueue s /\
  commandQueueAllocatedSize s' = commandQueueAllocatedSize s /\
  commandQueueIndex s' = commandQueueIndex s.

(** The queue variables as [MIDI.init()] and [queueCommand] keep them: a
    buffer of [commandQueueAllocatedSize] cells and an index within it. *)
Definition queue_wf (s : state) : bool :=
  match commandQueue s with
  | Some buf =>
      (commandQueueAllocatedSize s =? Z.of_nat (length buf)) &&
      (0 <=? commandQueueIndex s) &&
      (commandQueueIndex s <=? commandQueueAllocatedSize s)
  | None => false
  end.

(** What can happen to the note state between two moments: step 3 sends an
    entry of the queue, a delayed block sends one of its commands, or a
    timed note-off block runs. *)
Inductive event : Set :=
| Sent (c : command)
| SentDelayed (c : command)
| Fired (ch note currentNoteID : Z).

Definition apply_event (ev : event) (s : state) : state :=
  match ev with
  | Sent c => pass3_step c s
  | SentDelayed c => delayed_step c s
  | Fired ch note currentNoteID => note_off_block ch note currentNoteID s
  end.

Fixpoint apply_events (evs : list event) (s : state) : state :=
  match evs with
  | [] => s
  | ev :: rest => apply_events rest (apply_event ev s)
  end.

(** The event sends a note-on, of either kind, for the note. *)
Definition retriggers (ch note : Z) (ev : event) : bool :=
  match ev with
  | Sent c | SentDelayed c => noteon_for note ch c
  | Fired _ _ _ => false
  end.

Definition retrigger_count (ch note : Z) (evs : list event) : Z :=
  Z.of_nat (length (filter (fun ev => retriggers ch note ev = true) evs)).

(** What every run keeps true of the queue variables: the index does not
    pass the end of the buffer, and the queue proper holds in-range
    commands only. *)
Definition queue_bounded (s : state) : Prop :=
  match commandQueue s with
  | Some buf => commandQueueIndex s <= Z.of_nat (length buf)
  | None => commandQueueIndex s <= 0
  end.

Definition queue_inv (s : state) : Prop :=
  queue_bounded s /\ batch_in_range (queued s) = true.

(** The events of one call that returns, and of a run. *)
Definition call_events (k : call) (s : state) : list event :=
  match k with
  | SendMessages => Sent <$> fst (coalesce (notePlaying s) (queued s))
  | TimerFires i =>
      match timers s !! i with
      | Some (mkTimer _ (NoteOffBlock ch note currentNoteID)) =>
          [Fired ch note currentNoteID]
      | Some (mkTimer _ (DelayedBlock delayedCommands)) =>
          SentDelayed <$> delayedCommands
      | None => []
      end
  | _ => []
  end.

Fixpoint run_events (calls : list (env * call)) (s : state) : list event :=
  match calls with
  | [] => []
  | (e, k) :: rest =>
      match exec e k s with
      | Return s' => call_events k s ++ run_events rest s'
      | LuaError _ => run_events rest s
      | Undefined => []
      end
  end.

(** ** Sample batches and runs *)

(** No note is playing. *)
Definition quiet : Z -> Z -> bool := fun _ _ => false.

(** Only note [n] of channel [ch] is playing. *)
Definition only_playing (ch n : Z) : Z -> Z -> bool :=
  fun ch' n' => (ch' =? ch) && (n' =? n).

Definition NoteOn_0_60 : command := mkCommand kNoteOn 0 60 100 0.
Definition NoteOff_0_60 : command := mkCommand kNoteOff 0 60 0 0.
Definition NoteOn_2_10 : command := mkCommand kNoteOn 2 10 5 0.
Definition ResetNotes_0 : command := mkCommand kResetNotes 0 0 0 0.
Definition CC_7 (v : Z) : command := mkCommand kCC 0 7 v 0.

(** A note-on, then the note-off for the same note. *)
Definition on_then_off : list command := [NoteOn_0_60; NoteOff_0_60].

(** The same through the API. *)
Definition on_then_off_run : list (env * call) :=
  [(plain_env, Init); (plain_env, NoteOn [60; 100]); (plain_env, NoteOff [60]);
   (plain_env, SendMessages)].

(** A timed note, flushed, then turned off by hand and flushed again. *)
Definition timed_then_off_run : list (env * call) :=
  [(plain_env, Init); (plain_env, NoteOnWithDuration [60; 100; 4]);
   (plain_env, SendMessages); (plain_env, NoteOff [60]);
   (plain_env, SendMessages)].

(** A note-on delay of 5 ms, a note that is playing, then the same note
    again with a duration of one unit. *)
Definition late_retrigger_run : list (env * call) :=
  [(plain_env, Init); (plain_env, ConfigureTiming [double_of_Z 16; double_of_Z 5]);
   (plain_env, NoteOn [60; 100]); (plain_env, SendMessages);
   (plain_env, NoteOnWithDuration [60; 100; 1]); (plain_env, SendMessages)].

(** [MIDI.init()] followed by [n] note-ons for different notes. *)
Definition fill_run (n : nat) : list (env * call) :=
  (plain_env, Init) ::
  ((fun i => (plain_env, NoteOn [Z.of_nat i; 100])) <$> seq 0 n).

(** Arguments far outside their ranges. *)
Definition wild_run : list (env * call) :=
  [(plain_env, Init); (plain_env, NoteOn [300; 511; 99]);
   (plain_env, NoteOff [-1; -5]); (plain_env, ControlChange [500; 300; 0]);
   (plain_env, NoteOnWithDuration [60; 0; 4]);
   (plain_env, PitchBend (double_of_Z 5) [2 ^ 40]);
   (plain_env, AllNotesOff [1 - 2 ^ 31])].

(** The queue variables after [MIDI.init()] and [n] appended commands with
    [n] a multiple of [CMD_BLOCK]: a full buffer. *)
Definition full_queue (n : nat) : state :=
  set_commandQueueIndex (Z.of_nat n)
    (set_commandQueueAllocatedSize (Z.of_nat n)
       (set_commandQueue (Some (replicate n NoteOn_0_60))
          (set_handles 1 2 3 static_init))).

(** A pending delayed block with one timed note of one duration unit, and a
    note-on delay of 5 ms. *)
Definition late_state : state :=
  set_timers [mkTimer (Some 5000000)
                (DelayedBlock [mkCommand kNoteOnWithDuration 0 60 100 1])]
    (set_timing (double_of_Z 16) (double_of_Z 5) static_init).

(** The sign bit of a floating value; a NaN has none to speak of. *)
Definition sign_bit (x : spec_float) : bool :=
  match x with
  | S754_zero s | S754_infinity s | S754_finite s _ _ => s
  | S754_nan => false
  end.

(** The messages handed to [MIDIReceived] between a state and a later
    one. *)
Definition sent_since (s s' : state) : list packet :=
  drop (length (received s)) (received s').

(** A controller-change message for the controller on the channel. *)
Definition cc_message (cc ch : Z) (p : packet) : bool :=
  let '(status, data1, _) := p in (status =? 0xB0 + ch) && (data1 =? cc).

(** ** MIDI.notenumber

    The function reads its argument and pushes its result; it touches no
    global.  An argument is [Some] string when [lua_tolstring] converts it
    (a string, or a number, which Lua prints) and [None] when it returns
    [NULL].  A call returns the values it pushed, or raises. *)
Inductive lua_return :=
| Results (values : list Z)
| Raises (msg : string).

(** A [char] of the string as an [int]: whether plain [char] is signed is
    the compiler's choice, so it is a parameter. *)
Definition char_code (signed_char : bool) (a : ascii) : Z :=
  let b := Z.of_N (N_of_ascii a) in
  if signed_char && (128 <=? b) then b - 256 else b.

(** [noteString[i]]: Lua strings carry a terminating zero after their
    [length] bytes, which is what an index equal to the length reads. *)
Definition char_at (signed_char : bool) (noteString : string) (i : nat) : Z :=
  match String.get i noteString with
  | Some a => char_code signed_char a
  | None => 0
  end.

(** A character constant. *)
Definition lit (a : ascii) : Z := Z.of_N (N_of_ascii a).

(** The [switch] on the note letter; [None] is its [default]. *)
Definition letter_note (letter : Z) : option Z :=
  if (letter =? lit "C") || (letter =? lit "c") then Some 0
  else if (letter =? lit "D") || (letter =? lit "d") then Some 2
  else if (letter =? lit "E") || (letter =? lit "e") then Some 4
  else if (letter =? lit "F") || (letter =? lit "f") then Some 5
  else if (letter =? lit "G") || (letter =? lit "g") then Some 7
  else if (letter =? lit "A") || (letter =? lit "a") then Some 9
  else if (letter =? lit "B") || (letter =? lit "b") then Some 11
  else None.

(** The function from the point where the string and its length are known;
    [noteString] maps an index to the [char] there. *)
Definition noteNumber_of (noteString : nat -> Z) (length : nat) : lua_return :=
  if (length <? 2)%nat || (4 <? length)%nat then Results []
  else
    match letter_note (noteString 0%nat) with
    | None => Results []
    | Some note =>
        let strIndex := 1%nat in
        let '(note, strIndex) :=
          if noteString strIndex =? lit "#" then (note + 1, S strIndex)
          else (note, strIndex) in
        let '(note, strIndex) :=
          if noteString strIndex =? lit "b" then (note - 1, S strIndex)
          else (note, strIndex) in
        if (length <=? strIndex)%nat then Results []
        else
          let '(octaveMultiplier, strIndex) :=
            if noteString strIndex =? lit "-" then (-1, S strIndex)
            else (1, strIndex) in
          if (length <=? strIndex)%nat then Results []
          else
            let octaveChar := noteString strIndex in
            let octave := octaveMultiplier * (octaveChar - lit "0") in
            let finalnote := 12 * (2 + octave) + note in
            if (finalnote >? 127) || (finalnote <? 0) then Results []
            else Results [finalnote]
    end.

Definition midi_noteNumber (signed_char : bool) (args : list (option string))
  : lua_return :=
  if negb (Z.of_nat (List.length args) =? 1) then
    Raises "Invalid number of arguments to MIDI.notenumber()"
  else
    match args !! 0%nat with
    | Some (Some noteString) =>
        noteNumber_of (char_at signed_char noteString) (String.length noteString)
    | _ => Results []
    end.

(** Note names as the comment on [midi_noteNumber] describes them: a letter,
    an optional accidental, an optional minus sign and one octave digit. *)
Inductive accidental : Set := Natural | Sharp | Flat.

Definition accidental_text (a : accidental) : string :=
  match a with
  | Natural => EmptyString
  | Sharp => "#"
  | Flat => "b"
  end.

Definition accidental_shift (a : accidental) : Z :=
  match a with
  | Natural => 0
  | Sharp => 1
  | Flat => -1
  end.

(** The letters, in either case, with their place in the octave. *)
Definition note_letters : list (ascii * Z) :=
  [("C", 0); ("D", 2); ("E", 4); ("F", 5); ("G", 7); ("A", 9); ("B", 11);
   ("c", 0); ("d", 2); ("e", 4); ("f", 5); ("g", 7); ("a", 9); ("b", 11)]%char.

Definition digit_char (d : nat) : ascii := ascii_of_nat (48 + d).

Definition note_name (letter : ascii) (a : accidental) (minus : bool) (d : nat)
  : string :=
  String letter
    (accidental_text a ++ (if minus then "-" else EmptyString) ++
     String (digit_char d) EmptyString).

(** Two [char] values of one byte, read as signed and as unsigned. *)
Definition same_byte (v u : Z) : Prop :=
  (0 <= u < 128 /\ v = u) \/ (128 <= u < 256 /\ v = u - 256).

(** ** Vocabulary of the further properties *)

(** A pitch bend for the channel. *)
Definition pb_for (ch : Z) (c : command) : bool :=
  bool_decide (type c = kPitchBend) && (channel c =? ch).

(** What makes the scan remove a note-on for the note: one of the three
    bits it tests is set. *)
Definition blocked (n ch : Z) (l : locals) : bool :=
  bit_set (noteOffs l n) ch || bit_set (noteOns l n) ch ||
  bit_set (notesReset l) ch.

(** The six calls that build a command and append it. *)
Definition queueing (k : call) : bool :=
  match k with
  | NoteOn _ | NoteOff _ | NoteOnWithDuration _ | ControlChange _
  | PitchBend _ _ | AllNotesOff _ => true
  | _ => false
  end.

(** A well-formed three-byte channel message of the four kinds the module
    sends: note-off, note-on with a velocity of 1 at least, controller
    change below the channel-mode controllers, pitch bend; data bytes of
    seven bits. *)
Definition packet_ok (p : packet) : bool :=
  let '(status, data1, data2) := p in
  in_range 0 127 data1 && in_range 0 127 data2 &&
  (in_range 0x80 0x8F status ||
   in_range 0x90 0x9F status && (1 <=? data2) ||
   in_range 0xB0 0xBF status && (data1 <=? 119) ||
   in_range 0xE0 0xEF status).

(** What a pending block captured is in range. *)
Definition block_ok (b : block) : bool :=
  match b with
  | NoteOffBlock ch n _ => in_range 0 15 ch && in_range 0 127 n
  | DelayedBlock delayedCommands => batch_in_range delayedCommands
  end.

(** The pending blocks and the messages sent so far are as above. *)
Definition wire_ok (s : state) : Prop :=
  Forall (fun t => block_ok (body t) = true) (timers s) /\
  Forall (fun p => packet_ok p = true) (received s).

Definition wire_inv (s : state) : Prop := queue_inv s /\ wire_ok s.

(** [MIDI.init()] obtained some of its three handles, not all. *)
Definition handles_partial (s : state) : bool :=
  negb ((luaMIDIClient s =? 0) && (luaMIDIEndpoint s =? 0) &&
        (luaMIDIQueue s =? 0)) &&
  ((luaMIDIClient s =? 0) || (luaMIDIEndpoint s =? 0) || (luaMIDIQueue s =? 0)).

(** No note of the channel is flagged as playing. *)
Definition channel_silent (ch : Z) (s : state) : Prop :=
  forall n, 0 <= n <= 127 -> notePlaying s ch n = false.

(** The state right after a first [MIDI.init()]. *)
Definition fresh_state : state :=
  set_commandQueueAllocatedSize CMD_BLOCK
    (set_commandQueue (Some (replicate (Z.to_nat CMD_BLOCK) (uninit plain_env)))
       (set_handles 1 2 3 static_init)).


(** The arithmetic of the call is defined: the channel, where one is
    given, is not [INT_MIN] as an [int], and the bend has an [int] value
    after rounding. *)
Definition defined {A} (o : option A) : bool :=
  match o with Some _ => true | None => false end.

Definition arith_defined (k : call) : bool :=
  match k with
  | NoteOn args =>
      defined (optional_channel (lua_gettop args =? 3) (luaL_checkinteger args 3))
  | NoteOff args =>
      defined (optional_channel (lua_gettop args =? 2) (luaL_checkinteger args 2))
  | NoteOnWithDuration args =>
      defined (optional_channel (lua_gettop args =? 4) (luaL_checkinteger args 4))
  | ControlChange args =>
      defined (optional_channel (lua_gettop args =? 3) (luaL_checkinteger args 3))
  | PitchBend bend args =>
      defined (optional_channel (1 + lua_gettop args =? 2) (luaL_checkinteger args 1))
      && defined (bend_delta bend)
  | AllNotesOff args =>
      defined (optional_channel (lua_gettop args =? 1) (luaL_checkinteger args 1))
  | _ => true
  end.

(** A note is sent, sent again while it plays, so that a delayed block with
    its note-on is pending, and queued a third time. *)
Definition retrigger_pending_run : list (env * call) :=
  [(plain_env, Init); (plain_env, NoteOn [60; 100]); (plain_env, SendMessages);
   (plain_env, NoteOn [60; 100]); (plain_env, SendMessages);
   (plain_env, NoteOn [60; 100])].

(** ** Vocabulary of the floating-point lemmas *)

(** Something was shifted out of a mantissa. *)
Definition inexact (mrs : shr_record) : bool := shr_r mrs || shr_s mrs.

(** A number of magnitude at most [B * 2 ^ N]: a zero, or a finite value
    written with an exponent at or below [N]. *)
Definition bounded (B N : Z) (x : spec_float) : Prop :=
  match x with
  | S754_finite _ m e => e <= N /\ Zpos m <= B * 2 ^ (N - e)
  | S754_zero _ => True
  | _ => False
  end.

(** The integer [z] in a format of precision [prec]. *)
Definition canon (prec z : Z) : spec_float :=
  match z with
  | 0 => S754_zero false
  | _ => S754_finite (z <? 0)
           (Z.to_pos (Z.abs z * 2 ^ (prec - Zdigits2 z)))
           (Zdigits2 z - prec)
  end.

(** [x] is the integer [z]; a zero of either sign is 0. *)
Definition int_value (prec z : Z) (x : spec_float) : Prop :=
  if z =? 0 then exists s, x = S754_zero s else x = canon prec z.








(** * Properties *)

(** ** Bit masks *)

Lemma bit_set_testbit (mask ch : Z) : 0 <= ch -> bit_set mask ch = Z.testbit mask ch.
Proof.
  intros Hch. unfold bit_set.
  change 1 with (Z.ones 1) at 1. rewrite Z.land_ones by lia.
  change (2 ^ 1) with 2. rewrite <- Z.bit0_mod, Z.shiftr_spec by lia.
  rewrite Z.add_0_l. by destruct (Z.testbit mask ch).
Qed.

Lemma bit_set_claim (mask ch ch' : Z) :
  0 <= ch' < 16 -> bit_set (claim mask ch) ch' = bit_set mask ch' || (ch' =? ch).
Proof.
  intros Hch'. rewrite !bit_set_testbit by lia. unfold claim, wrap_u16.
  rewrite Z.mod_pow2_bits_low, Z.lor_spec by lia. f_equal.
  destruct (Z.ltb_spec ch 0) as [Hneg | Hpos].
  - rewrite Z.shiftl_1_l, Z.pow_neg_r, Z.bits_0 by lia.
    symmetry. apply Z.eqb_neq. lia.
  - rewrite Z.shiftl_1_l, Z.pow2_bits_eqb by lia. apply Z.eqb_sym.
Qed.

Lemma bit_set_0 (ch : Z) : bit_set 0 ch = false.
Proof. unfold bit_set. by rewrite Z.shiftr_0_l. Qed.

Section Pass1.
Variable np : Z -> Z -> bool.

Lemma pass1_cons c rest l :
  pass1 np (c :: rest) l =
    (fst (pass1_step np c (fst (pass1 np rest l))),
     snd (pass1_step np c (fst (pass1 np rest l))) :: snd (pass1 np rest l)).
Proof.
  simpl. destruct (pass1 np rest l) as [l1 rest']. simpl.
  by destruct (pass1_step np c l1).
Qed.

Lemma pass1_length q l : length (snd (pass1 np q l)) = length q.
Proof.
  induction q as [|c rest IH]; [done|].
  rewrite pass1_cons. simpl. by rewrite IH.
Qed.

Lemma pass1_app pre suf l :
  pass1 np (pre ++ suf) l =
    (fst (pass1 np pre (fst (pass1 np suf l))),
     snd (pass1 np pre (fst (pass1 np suf l))) ++ snd (pass1 np suf l)).
Proof.
  induction pre as [|c pre IH].
  - simpl. by destruct (pass1 np suf l).
  - rewrite <- app_comm_cons, !pass1_cons, IH. done.
Qed.

Lemma pass1_drop q l (i : nat) :
  drop i (snd (pass1 np q l)) = snd (pass1 np (drop i q) l).
Proof.
  rewrite <- (take_drop i q) at 1. rewrite pass1_app. simpl.
  destruct (decide (i <= length q)%nat) as [Hi | Hi].
  - rewrite drop_app_length'; [done|].
    rewrite pass1_length, length_take. lia.
  - rewrite (drop_ge q) by lia. simpl. rewrite app_nil_r.
    apply drop_ge. rewrite pass1_length, length_take. lia.
Qed.

(** The fate of an entry is decided by the entries behind it alone. *)
Lemma pass1_lookup q l (i : nat) c :
  q !! i = Some c ->
  snd (pass1 np q l) !! i =
    Some (snd (pass1_step np c (fst (pass1 np (drop (S i) q) l)))).
Proof.
  intros Hi. rewrite <- (take_drop_middle q i c Hi) at 1.
  rewrite pass1_app, pass1_cons. simpl.
  rewrite lookup_app_r; rewrite pass1_length, length_take_le;
    try (apply lookup_lt_Some in Hi; lia).
  by rewrite Nat.sub_diag.
Qed.
End Pass1.


Ltac step_cases c :=
  unfold pass1_step, remove_me;
  destruct (type c) eqn:?; simpl;
  repeat match goal with
    | |- context [if bit_set ?m ?ch then _ else _] =>
        let E := fresh "Ebit" in destruct (bit_set m ch) eqn:E; simpl
    end.

Section Masks.
Variable np : Z -> Z -> bool.

Lemma step_kept_or_removed c l :
  snd (pass1_step np c l) = c \/
  snd (pass1_step np c l) = set_type kInvalid c.
Proof. step_cases c; auto. Qed.

Lemma step_noteOffs c l n ch :
  0 <= ch < 16 ->
  bit_set (noteOffs (fst (pass1_step np c l)) n) ch =
    bit_set (noteOffs l n) ch || noteoff_for n ch c.
Proof.
  intros Hch. unfold noteoff_for.
  step_cases c; rewrite ?orb_false_r; try done.
  unfold upd. rewrite (Z.eqb_sym (note c) n).
  destruct (n =? note c) eqn:En; simpl; [|by rewrite orb_false_r].
  apply Z.eqb_eq in En. subst n.
  by rewrite bit_set_claim, (Z.eqb_sym (channel c) ch).
Qed.

Lemma step_notesReset c l ch :
  0 <= ch < 16 ->
  bit_set (notesReset (fst (pass1_step np c l))) ch =
    bit_set (notesReset l) ch || reset_for ch c.
Proof.
  intros Hch. unfold reset_for.
  step_cases c; rewrite ?orb_false_r; try done.
  by rewrite bit_set_claim, (Z.eqb_sym (channel c) ch).
Qed.

Lemma step_CCs c l cc ch :
  0 <= ch < 16 ->
  bit_set (CCs (fst (pass1_step np c l)) cc) ch =
    bit_set (CCs l cc) ch || cc_for cc ch c.
Proof.
  intros Hch. unfold cc_for.
  step_cases c; rewrite ?orb_false_r; try done.
  - destruct (CC c =? cc) eqn:Ec; simpl; [|by rewrite orb_false_r].
    apply Z.eqb_eq in Ec. subst cc.
    destruct (channel c =? ch) eqn:Eh; simpl; [|by rewrite orb_false_r].
    apply Z.eqb_eq in Eh. subst ch. by rewrite Ebit.
  - unfold upd. rewrite (Z.eqb_sym (CC c) cc).
    destruct (cc =? CC c) eqn:Ec; simpl; [|by rewrite orb_false_r].
    apply Z.eqb_eq in Ec. subst cc.
    by rewrite bit_set_claim, (Z.eqb_sym (channel c) ch).
Qed.

(** A bit that every step sets when [p] holds of the command, and leaves
    alone otherwise, is set after the scan of [q] exactly if it was set
    before or [p] holds somewhere in [q]. *)
Lemma pass1_tracks (bit : locals -> bool) (p : command -> bool) :
  (forall c l, bit (fst (pass1_step np c l)) = bit l || p c) ->
  forall q l, bit (fst (pass1 np q l)) = bit l || existsb p q.
Proof.
  intros Hstep q l. induction q as [|c rest IH]; simpl existsb.
  - by rewrite orb_false_r.
  - rewrite pass1_cons. simpl fst. rewrite Hstep, IH.
    by rewrite (orb_comm (p c)), orb_assoc.
Qed.

Lemma pass1_noteOffs q l n ch :
  0 <= ch < 16 ->
  bit_set (noteOffs (fst (pass1 np q l)) n) ch =
    bit_set (noteOffs l n) ch || existsb (noteoff_for n ch) q.
Proof.
  intros Hch.
  apply (pass1_tracks (fun l => bit_set (noteOffs l n) ch)).
  intros c l'. by apply step_noteOffs.
Qed.

Lemma pass1_notesReset q l ch :
  0 <= ch < 16 ->
  bit_set (notesReset (fst (pass1 np q l))) ch =
    bit_set (notesReset l) ch || existsb (reset_for ch) q.
Proof.
  intros Hch.
  apply (pass1_tracks (fun l => bit_set (notesReset l) ch)).
  intros c l'. by apply step_notesReset.
Qed.

Lemma pass1_CCs q l cc ch :
  0 <= ch < 16 ->
  bit_set (CCs (fst (pass1 np q l)) cc) ch =
    bit_set (CCs l cc) ch || existsb (cc_for cc ch) q.
Proof.
  intros Hch.
  apply (pass1_tracks (fun l => bit_set (CCs l cc) ch)).
  intros c l'. by apply step_CCs.
Qed.
End Masks.



Section Coalesce.
Variable np : Z -> Z -> bool.

Lemma step_same_masks c l l' :
  same_masks l l' ->
  same_masks (fst (pass1_step np c l)) (fst (pass1_step np c l')) /\
  snd (pass1_step np c l) = snd (pass1_step np c l').
Proof.
  destruct l, l'. unfold same_masks. simpl.
  intros (-> & -> & -> & -> & ->). by step_cases c.
Qed.

Lemma pass1_same_masks q l l' :
  same_masks l l' ->
  same_masks (fst (pass1 np q l)) (fst (pass1 np q l')) /\
  snd (pass1 np q l) = snd (pass1 np q l').
Proof.
  intros Hl. induction q as [|c rest [IHm IHq]]; [done|].
  rewrite !pass1_cons. simpl.
  destruct (step_same_masks c _ _ IHm) as [Hm Hc].
  split; [done|]. by rewrite Hc, IHq.
Qed.

Lemma pass1_counters q n n' :
  snd (pass1 np q (locals_init n)) = snd (pass1 np q (locals_init n')).
Proof. by apply pass1_same_masks. Qed.

Lemma pass2_spec q delayed :
  pass2 np q delayed =
    (substitute np <$> q, delayed ++ filter (fun c => retrigger np c = true) q).
Proof.
  revert delayed. induction q as [|c rest IH]; intros delayed; simpl.
  - by rewrite app_nil_r.
  - unfold substitute at 1. rewrite filter_cons.
    destruct (retrigger np c) eqn:Er; rewrite IH.
    + rewrite decide_True by done. by rewrite <- app_assoc.
    + rewrite decide_False by done. done.
Qed.

Lemma coalesce_fst q n :
  fst (coalesce np q) = substitute np <$> snd (pass1 np q (locals_init n)).
Proof.
  unfold coalesce. rewrite pass2_spec. simpl.
  by rewrite (pass1_counters q _ n).
Qed.

Lemma coalesce_snd q n :
  snd (coalesce np q) =
    filter (fun c => retrigger np c = true) (snd (pass1 np q (locals_init n))).
Proof.
  unfold coalesce. rewrite pass2_spec. simpl.
  by rewrite (pass1_counters q _ n).
Qed.

(** What step 3 finds at index [i]. *)
Lemma coalesce_lookup q (i : nat) c :
  q !! i = Some c ->
  fst (coalesce np q) !! i =
    Some (substitute np
            (snd (pass1_step np c
                    (fst (pass1 np (drop (S i) q) (locals_init 0)))))).
Proof.
  intros Hi. rewrite (coalesce_fst q 0), list_lookup_fmap.
  by rewrite (pass1_lookup np q _ i c Hi).
Qed.

Lemma step_laterNotes c l :
  laterNotes (fst (pass1_step np c l)) =
    laterNotes l + (if retrigger np (snd (pass1_step np c l)) then 1 else 0).
Proof.
  unfold retrigger, is_noteon.
  step_cases c;
    repeat match goal with H : type c = _ |- _ => rewrite H end;
    simpl; try lia; destruct (np (channel c) (note c)); lia.
Qed.

(** [delayedCommands] is allocated with exactly the cells step 2 fills. *)
Lemma pass1_laterNotes q l :
  laterNotes (fst (pass1 np q l)) =
    laterNotes l +
    Z.of_nat (length (filter (fun c => retrigger np c = true)
                        (snd (pass1 np q l)))).
Proof.
  induction q as [|c rest IH].
  - simpl. lia.
  - rewrite pass1_cons. simpl fst. simpl snd.
    rewrite filter_cons, step_laterNotes, IH.
    case_decide as Hr.
    + rewrite Hr. simpl length. lia.
    + apply not_true_is_false in Hr. rewrite Hr. lia.
Qed.

Lemma delayed_sublist q l :
  filter (fun c => retrigger np c = true) (snd (pass1 np q l)) `sublist_of` q.
Proof.
  induction q as [|c rest IH]; [done|].
  rewrite pass1_cons. simpl snd. rewrite filter_cons.
  destruct (step_kept_or_removed np c (fst (pass1 np rest l))) as [-> | ->].
  - case_decide; [by apply sublist_skip | by apply sublist_cons].
  - rewrite decide_False; [by apply sublist_cons|].
    unfold retrigger, is_noteon. simpl. done.
Qed.
End Coalesce.


Lemma in_range_spec lo hi x : in_range lo hi x = true <-> lo <= x <= hi.
Proof. unfold in_range. rewrite andb_true_iff, !Z.leb_le. done. Qed.

Lemma cmd_in_range_channel c : cmd_in_range c = true -> 0 <= channel c < 16.
Proof.
  unfold cmd_in_range. rewrite andb_true_iff, in_range_spec. lia.
Qed.

Lemma batch_in_range_lookup q (i : nat) c :
  batch_in_range q = true -> q !! i = Some c -> cmd_in_range c = true.
Proof.
  unfold batch_in_range. rewrite forallb_forall. intros Hq Hi.
  apply Hq, list_elem_of_In, list_elem_of_lookup. eauto.
Qed.

Lemma existsb_lookup {A} (f : A -> bool) (l : list A) (i : nat) x :
  l !! i = Some x -> f x = true -> existsb f l = true.
Proof.
  intros Hi Hx. apply existsb_exists. exists x. split; [|done].
  apply list_elem_of_In, list_elem_of_lookup. eauto.
Qed.

Lemma elem_of_immediateList c q :
  c ∈ immediateList q <-> type c <> kInvalid /\ c ∈ q.
Proof. unfold immediateList. by rewrite list_elem_of_filter. Qed.

Lemma pass3_step_invalid c s : type c = kInvalid -> pass3_step c s = s.
Proof. unfold pass3_step. by intros ->. Qed.

(** Step 3 over the queue is step 3 over the immediate list. *)
Lemma pass3_immediateList q s : pass3 (immediateList q) s = pass3 q s.
Proof.
  revert s. induction q as [|c rest IH]; intros s; [done|].
  unfold immediateList. rewrite filter_cons. case_decide as Hc; simpl.
  - apply IH.
  - destruct (decide (type c = kInvalid)) as [Hi | Hi]; [|done].
    rewrite (pass3_step_invalid c s Hi). apply IH.
Qed.

Section Entries.
Variable np : Z -> Z -> bool.

Lemma substitute_other c : is_noteon c = false -> substitute np c = c.
Proof. unfold substitute, retrigger. by intros ->. Qed.

Lemma coalesce_length q : length (fst (coalesce np q)) = length q.
Proof. by rewrite (coalesce_fst np q 0), length_fmap, pass1_length. Qed.

(** Entries come out of steps 1 and 2 as they would from the batch that
    starts at any earlier point of the queue. *)
Lemma coalesce_drop q (m k : nat) :
  fst (coalesce np q) !! (m + k)%nat = fst (coalesce np (drop m q)) !! k.
Proof.
  rewrite (coalesce_fst np q 0), (coalesce_fst np (drop m q) 0).
  rewrite <- pass1_drop, fmap_drop. by rewrite lookup_drop.
Qed.

Lemma noteon_removed c l :
  is_noteon c = true ->
  bit_set (noteOffs l (note c)) (channel c) = true \/
  bit_set (notesReset l) (channel c) = true ->
  snd (pass1_step np c l) = set_type kInvalid c.
Proof.
  unfold is_noteon. intros Hc Hbit.
  step_cases c; try done; destruct Hbit; congruence.
Qed.

Lemma noteoff_kept c l : type c = kNoteOff -> snd (pass1_step np c l) = c.
Proof. intros Hc. unfold pass1_step. by rewrite Hc. Qed.
End Entries.

(** ** Steps 1 and 2 on a batch *)

Section Batches.
Variable np : Z -> Z -> bool.

Lemma noteoff_coalesce (q : list command) (i : nat) (c : command) :
  q !! i = Some c -> type c = kNoteOff ->
  fst (coalesce np q) !! i = Some c /\
  c ∈ immediateList (fst (coalesce np q)).
Proof.
  intros Hi Hc.
  assert (Hcoal : fst (coalesce np q) !! i = Some c).
  { rewrite (coalesce_lookup np q i c Hi), noteoff_kept by done.
    rewrite substitute_other; [done|]. unfold is_noteon. by rewrite Hc. }
  split; [done|].
  apply elem_of_immediateList. split; [by rewrite Hc|].
  apply list_elem_of_lookup. eauto.
Qed.

(** C4.  In a batch of in-range commands, a note-off is never invalidated
    by the backward scan: step 1 leaves it as it is, its (note, channel) bit
    is set in the note-off masks from the moment the scan has passed it
    (what the entries before it see) to the end of the scan, step 2 leaves it
    as it is, and step 3 sends it with [sendNoteOff], whatever else the
    batch holds. *)
Theorem noteoff_never_invalidated (q : list command) (i : nat) (c : command) :
  batch_in_range q = true ->
  q !! i = Some c ->
  type c = kNoteOff ->
  let l0 := locals_init (Z.of_nat (length q)) in
  snd (pass1 np q l0) !! i = Some c /\
  bit_set (noteOffs (fst (pass1 np (drop i q) l0)) (note c)) (channel c) = true /\
  bit_set (noteOffs (fst (pass1 np q l0)) (note c)) (channel c) = true /\
  fst (coalesce np q) !! i = Some c /\
  c ∈ immediateList (fst (coalesce np q)) /\
  (forall s, pass3_step c s = sendNoteOff (channel c) (note c) s).
Proof.
  intros Hq Hi Hc l0.
  pose proof (cmd_in_range_channel c (batch_in_range_lookup q i c Hq Hi)) as Hch.
  assert (Hfor : noteoff_for (note c) (channel c) c = true).
  { unfold noteoff_for. rewrite Hc, !Z.eqb_refl. done. }
  destruct (noteoff_coalesce q i c Hi Hc) as [Hcoal Hin].
  repeat split; try done.
  - by rewrite (pass1_lookup np q l0 i c Hi), noteoff_kept.
  - rewrite pass1_noteOffs by done. apply orb_true_iff. right.
    apply (existsb_lookup _ _ 0%nat c); [|done].
    by rewrite lookup_drop, Nat.add_0_r.
  - rewrite pass1_noteOffs by done. apply orb_true_iff. right.
    by apply (existsb_lookup _ _ i c).
  - intros s. unfold pass3_step. by rewrite Hc.
Qed.

(** In a batch of in-range commands, a note-on of either kind followed
    later by a note-off for the same channel and note is invalidated; the
    note-off itself stays in the queue. *)
Lemma noteon_removed_by_noteoff (q : list command) (i j : nat) (on off : command) :
  batch_in_range q = true ->
  q !! i = Some on ->
  q !! j = Some off ->
  (i < j)%nat ->
  is_noteon on = true ->
  type off = kNoteOff ->
  channel off = channel on ->
  note off = note on ->
  fst (coalesce np q) !! i = Some (set_type kInvalid on) /\
  (forall s, pass3_step (set_type kInvalid on) s = s) /\
  fst (coalesce np q) !! j = Some off /\
  off ∈ immediateList (fst (coalesce np q)) /\
  (forall s, pass3_step off s = sendNoteOff (channel on) (note on) s).
Proof.
  intros Hq Hi Hj Hij Hon Hoff Hch Hn.
  pose proof (cmd_in_range_channel on (batch_in_range_lookup q i on Hq Hi)) as Hr.
  destruct (noteoff_coalesce q j off Hj Hoff) as [Hj' Hin].
  repeat split; try done.
  - rewrite (coalesce_lookup np q i on Hi), noteon_removed; [done..|].
    left. rewrite pass1_noteOffs by done. apply orb_true_iff. right.
    apply (existsb_lookup _ _ (j - S i)%nat off).
    + rewrite lookup_drop. by replace (S i + (j - S i))%nat with j by lia.
    + unfold noteoff_for. by rewrite Hoff, Hch, Hn, !Z.eqb_refl.
  - intros s. unfold pass3_step. by rewrite Hoff, Hch, Hn.
Qed.

Lemma step_noteOns c l n ch :
  0 <= ch < 16 ->
  bit_set (noteOns (fst (pass1_step np c l)) n) ch = true ->
  bit_set (noteOns l n) ch = true \/ noteon_for n ch c = true.
Proof.
  intros Hch. unfold noteon_for, is_noteon.
  step_cases c; auto; unfold upd;
    rewrite (Z.eqb_sym (note c) n), (Z.eqb_sym (channel c) ch);
    (destruct (Z.eqb_spec n (note c)) as [-> | Hne]; [|by auto]);
    rewrite bit_set_claim, orb_true_iff by done;
    (intros [H | H]; [by left | by right]).
Qed.

Lemma pass1_noteOns q l n ch :
  0 <= ch < 16 ->
  existsb (noteon_for n ch) q = false ->
  bit_set (noteOns l n) ch = false ->
  bit_set (noteOns (fst (pass1 np q l)) n) ch = false.
Proof.
  intros Hch. induction q as [|c rest IH]; [done|].
  simpl existsb. rewrite orb_false_iff. intros [Hc Hrest] Hl.
  rewrite pass1_cons. simpl fst. apply not_true_is_false. intros Hbit.
  apply step_noteOns in Hbit as [Hbit | Hbit]; [|congruence|done].
  rewrite IH in Hbit; done.
Qed.

(** A note-on with nothing behind it for its note or its channel stays. *)
Lemma noteon_kept c l :
  is_noteon c = true ->
  bit_set (noteOffs l (note c)) (channel c) = false ->
  bit_set (noteOns l (note c)) (channel c) = false ->
  bit_set (notesReset l) (channel c) = false ->
  snd (pass1_step np c l) = c.
Proof.
  unfold is_noteon. intros Hc Hoff Hon Hreset.
  unfold pass1_step. destruct (type c); try done; by rewrite Hoff, Hon, Hreset.
Qed.

(** In a batch of in-range commands with a ResetNotes at index [j]:
    every note-on of either kind for the channel of the reset before index
    [j] is invalidated; every entry behind index [j] comes out of steps 1
    and 2 exactly as it does from the batch without the reset; and a note-on
    for that channel behind the reset which has no note-off or note-on for
    its note and no reset for its channel behind it survives step 1. *)
Lemma resetnotes_in_queue (q : list command) (j : nat)
    (r : command) :
  batch_in_range q = true ->
  q !! j = Some r ->
  type r = kResetNotes ->
  (forall (i : nat) (on : command),
      (i < j)%nat -> q !! i = Some on -> is_noteon on = true ->
      channel on = channel r ->
      fst (coalesce np q) !! i = Some (set_type kInvalid on)) /\
  (forall k : nat,
      (j < k)%nat ->
      fst (coalesce np q) !! k = fst (coalesce np (delete j q)) !! (k - 1)%nat) /\
  (forall (k : nat) (on : command),
      (j < k)%nat -> q !! k = Some on -> is_noteon on = true ->
      channel on = channel r ->
      existsb (noteoff_for (note on) (channel on)) (drop (S k) q) = false ->
      existsb (noteon_for (note on) (channel on)) (drop (S k) q) = false ->
      existsb (reset_for (channel on)) (drop (S k) q) = false ->
      snd (pass1 np q (locals_init (Z.of_nat (length q)))) !! k = Some on).
Proof.
  intros Hq Hj Hr. split; [|split].
  - intros i on Hij Hi Hon Hch.
    pose proof (cmd_in_range_channel on (batch_in_range_lookup q i on Hq Hi)).
    rewrite (coalesce_lookup np q i on Hi), noteon_removed; [done..|].
    right. rewrite pass1_notesReset by done. apply orb_true_iff. right.
    apply (existsb_lookup _ _ (j - S i)%nat r).
    + rewrite lookup_drop. by replace (S i + (j - S i))%nat with j by lia.
    + unfold reset_for. by rewrite Hr, Hch, Z.eqb_refl.
  - intros k Hjk.
    replace k with (S j + (k - S j))%nat at 1 by lia.
    replace (k - 1)%nat with (j + (k - S j))%nat by lia.
    rewrite !coalesce_drop. do 3 f_equal.
    rewrite delete_take_drop, drop_app_length'; [done|].
    rewrite length_take. apply lookup_lt_Some in Hj. lia.
  - intros k on Hjk Hk Hon Hch Hoffs Hons Hresets.
    pose proof (cmd_in_range_channel on (batch_in_range_lookup q k on Hq Hk)).
    rewrite (pass1_lookup np q _ k on Hk). f_equal.
    apply noteon_kept; [done|..].
    + rewrite pass1_noteOffs, Hoffs by done. simpl. by rewrite bit_set_0.
    + apply pass1_noteOns; [done..|]. simpl. by rewrite bit_set_0.
    + rewrite pass1_notesReset, Hresets by done. simpl. by rewrite bit_set_0.
Qed.
End Batches.
Lemma filter_existsb_false {A} (f : A -> bool) (l : list A) :
  existsb f l = false -> filter (fun x => f x = true) l = [].
Proof.
  induction l as [|x l IH]; [done|]. simpl existsb.
  rewrite orb_false_iff. intros [Hx Hl].
  rewrite filter_cons, decide_False by congruence. auto.
Qed.

Lemma last_filter_existsb {A} (f : A -> bool) (l : list A) :
  existsb f l = true -> is_Some (last (filter (fun x => f x = true) l)).
Proof.
  induction l as [|x l IH]; [done|]. simpl existsb. intros Hl.
  rewrite filter_cons. destruct (f x) eqn:Hx; simpl in Hl.
  - rewrite decide_True by done. rewrite last_cons.
    destruct (last _); eauto.
  - rewrite decide_False by congruence. auto.
Qed.

Lemma cc_for_type cc ch c : cc_for cc ch c = true -> type c = kCC.
Proof.
  unfold cc_for. rewrite !andb_true_iff, bool_decide_eq_true. tauto.
Qed.

Section ControlChanges.
Variable np : Z -> Z -> bool.
Variables cc ch : Z.
Hypothesis Hch : 0 <= ch < 16.

Local Abbreviation P := (fun c : command => cc_for cc ch c = true).

Lemma filter_P_singleton c :
  filter P [c] = if cc_for cc ch c then [c] else [].
Proof.
  rewrite filter_cons, filter_nil.
  destruct (cc_for cc ch c);
        [by rewrite decide_True | by rewrite decide_False].
Qed.

Lemma cc_sent_step c l :
  filter P (immediateList [substitute np (snd (pass1_step np c l))]) =
    if cc_for cc ch c && negb (bit_set (CCs l cc) ch) then [c] else [].
Proof.
  destruct (cc_for cc ch c) eqn:Hc; simpl.
  - pose proof (cc_for_type cc ch c Hc) as Ht.
    unfold cc_for in Hc. rewrite !andb_true_iff, !Z.eqb_eq in Hc.
    destruct Hc as [[_ Hcc] Hchan].
    unfold pass1_step, remove_me. rewrite Ht, Hcc, Hchan.
    destruct (bit_set (CCs l cc) ch); simpl.
    + rewrite substitute_other by done. unfold immediateList.
      by rewrite filter_cons, decide_False by (simpl; tauto).
    + rewrite substitute_other by (unfold is_noteon; by rewrite Ht).
      unfold immediateList.
      rewrite filter_cons, decide_True by (by rewrite Ht).
      rewrite filter_nil, filter_P_singleton. unfold cc_for.
      by rewrite Ht, Hcc, Hchan, !Z.eqb_refl.
  - unfold immediateList. rewrite filter_cons, filter_nil.
    case_decide; [|done]. rewrite filter_P_singleton.
    set (c' := substitute np _).
    destruct (cc_for cc ch c') eqn:Hc'; [|done]. exfalso.
    pose proof (cc_for_type cc ch c' Hc') as Ht'.
    subst c'. unfold substitute in *.
    destruct (retrigger np _); [done|].
    destruct (step_kept_or_removed np c l) as [E | E]; rewrite E in *;
      [congruence | done].
Qed.

Lemma immediateList_cons c q :
  immediateList (c :: q) = immediateList [c] ++ immediateList q.
Proof. unfold immediateList. by rewrite <- filter_app. Qed.

(** Of the controller changes for one controller and channel, step 3
    finds the last one of the batch and no other. *)
Lemma cc_sent q l :
  filter P (immediateList (substitute np <$> snd (pass1 np q l))) =
    if bit_set (CCs l cc) ch then [] else option_list (last (filter P q)).
Proof.
  induction q as [|c rest IH].
  - simpl. by destruct (bit_set _ _).
  - rewrite pass1_cons. simpl snd. rewrite fmap_cons, immediateList_cons.
    rewrite filter_app, IH, cc_sent_step, pass1_CCs by done.
    destruct (bit_set (CCs l cc) ch); simpl.
    { by rewrite andb_false_r. }
    rewrite filter_cons.
    destruct (existsb (cc_for cc ch) rest) eqn:Hrest; simpl.
    + rewrite andb_false_r. simpl.
      destruct (last_filter_existsb _ _ Hrest) as [y Hy].
      case_decide; [|done]. by rewrite last_cons, Hy.
    + rewrite andb_true_r.
      rewrite (filter_existsb_false _ _ Hrest). simpl.
      destruct (cc_for cc ch c);
        [by rewrite decide_True | by rewrite decide_False].
Qed.
End ControlChanges.

(** In a batch of in-range commands that holds N >= 1 controller changes
    for one (controller, channel), exactly one command for that controller
    and channel is in the immediate list: the last of them in batch
    order. *)
Lemma last_cc_in_queue (np : Z -> Z -> bool) (q : list command) (cc ch : Z) :
  batch_in_range q = true ->
  (1 <= length (filter (fun c => cc_for cc ch c = true) q))%nat ->
  exists c : command,
    last (filter (fun c => cc_for cc ch c = true) q) = Some c /\
    filter (fun c => cc_for cc ch c = true) (immediateList (fst (coalesce np q)))
      = [c] /\
    (forall s, pass3_step c s = sendCC ch cc (value c) s).
Proof.
  intros Hq HN.
  destruct (last (filter (fun c => cc_for cc ch c = true) q)) as [c|] eqn:Hlast.
  2: { apply last_None in Hlast. rewrite Hlast in HN. simpl in HN. lia. }
  exists c. split; [done|].
  assert (Hc : c ∈ filter (fun c => cc_for cc ch c = true) q).
  { apply last_Some in Hlast as [l' ->].
    apply elem_of_app. right. by apply list_elem_of_singleton. }
  apply list_elem_of_filter in Hc as [Hc Hin].
  pose proof (cc_for_type cc ch c Hc) as Ht.
  apply list_elem_of_lookup in Hin as [i Hi].
  pose proof (cmd_in_range_channel c (batch_in_range_lookup q i c Hq Hi)) as Hr.
  unfold cc_for in Hc. rewrite !andb_true_iff, !Z.eqb_eq in Hc.
  destruct Hc as [[_ Hcc] Hchan]. rewrite Hchan in Hr.
  split.
  - rewrite (coalesce_fst np q 0), cc_sent, Hlast by done.
    simpl. by rewrite bit_set_0.
  - intros s. unfold pass3_step. by rewrite Ht, Hcc, Hchan.
Qed.

(** C2.  If the note-on (of either kind) at index [i] survives step 1 and
    its (channel, note) is playing before the flush, then it is the command
    the batch had at index [i]; step 2 puts a note-off for the same channel
    and note in its place in the queue, which step 3 sends with
    [sendNoteOff]; the note-on itself is in the delayed list; and the
    delayed list is the list of such survivors in queue order, a
    subsequence of the batch. *)
Theorem retrigger_split (np : Z -> Z -> bool) (q : list command) (i : nat)
    (c : command) :
  snd (pass1 np q (locals_init (Z.of_nat (length q)))) !! i = Some c ->
  is_noteon c = true ->
  np (channel c) (note c) = true ->
  q !! i = Some c /\
  fst (coalesce np q) !! i = Some (set_type kNoteOff c) /\
  set_type kNoteOff c ∈ immediateList (fst (coalesce np q)) /\
  (forall s, pass3_step (set_type kNoteOff c) s = sendNoteOff (channel c) (note c) s) /\
  c ∈ snd (coalesce np q) /\
  snd (coalesce np q) =
    filter (fun c => retrigger np c = true)
      (snd (pass1 np q (locals_init (Z.of_nat (length q))))) /\
  snd (coalesce np q) `sublist_of` q.
Proof.
  intros Hi Hon Hnp.
  assert (Hr : retrigger np c = true) by (unfold retrigger; by rewrite Hon, Hnp).
  assert (Hq : q !! i = Some c).
  { destruct (q !! i) as [c0|] eqn:Hq.
    - rewrite (pass1_lookup np q _ i c0 Hq) in Hi.
      destruct (step_kept_or_removed np c0
                  (fst (pass1 np (drop (S i) q) (locals_init (Z.of_nat (length q))))))
        as [E | E]; rewrite E in Hi; [done|].
      injection Hi as <-. done.
    - apply lookup_ge_None in Hq.
      apply lookup_lt_Some in Hi. rewrite pass1_length in Hi. lia. }
  assert (Hsub : fst (coalesce np q) !! i = Some (set_type kNoteOff c)).
  { rewrite (coalesce_fst np q (Z.of_nat (length q))), list_lookup_fmap, Hi.
    simpl. unfold substitute. by rewrite Hr. }
  rewrite (coalesce_snd np q (Z.of_nat (length q))).
  repeat split; try done.
  - apply elem_of_immediateList. split; [done|].
    apply list_elem_of_lookup. eauto.
  - apply list_elem_of_filter. split; [done|].
    apply list_elem_of_lookup. eauto.
  - apply delayed_sublist.
Qed.

(** ** The sending functions *)

Lemma same_settings_refl s : same_settings s s.
Proof. by repeat split. Qed.

Lemma same_settings_trans s1 s2 s3 :
  same_settings s1 s2 -> same_settings s2 s3 -> same_settings s1 s3.
Proof. unfold same_settings. intuition congruence. Qed.

Lemma pass3_step_settings c s : same_settings s (pass3_step c s).
Proof. unfold pass3_step. destruct (type c); by repeat split. Qed.

Lemma delayed_step_settings c s : same_settings s (delayed_step c s).
Proof. unfold delayed_step. destruct (type c); by repeat split. Qed.

Lemma note_off_block_settings ch n id s : same_settings s (note_off_block ch n id s).
Proof. unfold note_off_block. destruct (_ =? _); by repeat split. Qed.

Lemma pass3_settings q s : same_settings s (pass3 q s).
Proof.
  revert s. induction q as [|c rest IH]; intros s; simpl.
  - apply same_settings_refl.
  - eapply same_settings_trans; [apply pass3_step_settings | apply IH].
Qed.

Lemma delayed_block_settings q s : same_settings s (delayed_block q s).
Proof.
  revert s. induction q as [|c rest IH]; intros s; simpl.
  - apply same_settings_refl.
  - eapply same_settings_trans; [apply delayed_step_settings | apply IH].
Qed.

Lemma fire_settings i s : same_settings s (fire i s).
Proof.
  unfold fire. destruct (timers s !! i) as [[d [ch n id | cmds]]|]; simpl.
  - apply (note_off_block_settings ch n id (set_timers _ s)).
  - apply (delayed_block_settings cmds (set_timers _ s)).
  - apply same_settings_refl.
Qed.

Lemma same_settings_queued s s' : same_settings s s' -> queued s' = queued s.
Proof. unfold queued. intros (_ & _ & _ & _ & _ & -> & _ & ->). done. Qed.

(** ** Generations *)

Lemma wrap_u8_range z : 0 <= wrap_u8 z < 256.
Proof. unfold wrap_u8. change (2 ^ 8) with 256. apply Z.mod_pos_bound. lia. Qed.

Lemma wrap_u8_add_l x k : wrap_u8 (wrap_u8 x + k) = wrap_u8 (x + k).
Proof. unfold wrap_u8. apply Zplus_mod_idemp_l. Qed.

Lemma upd2_same {A} (a : Z -> Z -> A) i j v : upd2 a i j v i j = v.
Proof. unfold upd2. by rewrite !Z.eqb_refl. Qed.

Section Generations.
Variables ch n : Z.

Lemma pass3_step_generation c s :
  lastNoteIDs (pass3_step c s) ch n =
    if noteon_for n ch c then wrap_u8 (lastNoteIDs s ch n + 1)
    else lastNoteIDs s ch n.
Proof.
  unfold pass3_step, noteon_for, is_noteon.
  destruct (type c); simpl; try done; unfold upd2;
    rewrite (Z.eqb_sym (note c) n), (Z.eqb_sym (channel c) ch), andb_comm;
    destruct (Z.eqb_spec ch (channel c)) as [-> | ?];
    destruct (Z.eqb_spec n (note c)) as [-> | ?]; done.
Qed.

Lemma delayed_step_generation c s :
  lastNoteIDs (delayed_step c s) ch n =
    if noteon_for n ch c then wrap_u8 (lastNoteIDs s ch n + 1)
    else lastNoteIDs s ch n.
Proof.
  unfold delayed_step, noteon_for, is_noteon.
  destruct (type c); simpl; try done; unfold upd2;
    rewrite (Z.eqb_sym (note c) n), (Z.eqb_sym (channel c) ch), andb_comm;
    destruct (Z.eqb_spec ch (channel c)) as [-> | ?];
    destruct (Z.eqb_spec n (note c)) as [-> | ?]; done.
Qed.

Lemma note_off_block_generation ch' n' id s :
  lastNoteIDs (note_off_block ch' n' id s) = lastNoteIDs s.
Proof. unfold note_off_block. by destruct (_ =? _). Qed.

Lemma apply_event_generation ev s :
  lastNoteIDs (apply_event ev s) ch n =
    if retriggers ch n ev then wrap_u8 (lastNoteIDs s ch n + 1)
    else lastNoteIDs s ch n.
Proof.
  destruct ev as [c | c | ch' n' id]; simpl.
  - apply pass3_step_generation.
  - apply delayed_step_generation.
  - by rewrite note_off_block_generation.
Qed.

(** The generation of a note counts the note-ons sent for it, modulo 256,
    and nothing else. *)
Lemma apply_events_generation evs s :
  0 <= lastNoteIDs s ch n < 256 ->
  lastNoteIDs (apply_events evs s) ch n =
    wrap_u8 (lastNoteIDs s ch n + retrigger_count ch n evs).
Proof.
  unfold retrigger_count. revert s.
  induction evs as [|ev rest IH]; intros s Hs; simpl apply_events.
  - rewrite filter_nil. simpl. rewrite Z.add_0_r.
    unfold wrap_u8. symmetry. by apply Z.mod_small.
  - rewrite filter_cons, IH, apply_event_generation.
    + destruct (retriggers ch n ev) eqn:Hev.
      * rewrite decide_True by done. rewrite wrap_u8_add_l.
        f_equal. simpl length. lia.
      * by rewrite decide_False by congruence.
    + rewrite apply_event_generation.
      destruct (retriggers ch n ev); [apply wrap_u8_range | done].
Qed.
End Generations.

(** C1, amended.  [sendNoteOnWithDuration] schedules one block, which holds
    the generation [g] the note has right after the send.  After any
    sequence of sends and block runs, [k] of which send a note-on for the
    note, the generation of the note is [g + k] modulo 256; it equals [g]
    exactly if [k] is a multiple of 256 (so it differs after 1 to 255
    retriggers, and is unchanged by note-offs and resets).  Run then, the
    block sends a note-off and clears the playing flag if the generation
    equals [g], and does nothing otherwise. *)
Theorem timed_noteoff_generation (ch n vel dur : Z) (offset : float)
    (s0 : state) (evs : list event) :
  let s1 := sendNoteOnWithDuration ch n vel dur offset s0 in
  let g := lastNoteIDs s1 ch n in
  let s2 := apply_events evs s1 in
  let k := retrigger_count ch n evs in
  timers s1 =
    timers s0 ++ [mkTimer (note_off_delay (duration_unit s0) dur offset)
                    (NoteOffBlock ch n g)] /\
  lastNoteIDs s2 ch n = wrap_u8 (g + k) /\
  (lastNoteIDs s2 ch n = g <-> k mod 256 = 0) /\
  (lastNoteIDs s2 ch n = g ->
   run_block (NoteOffBlock ch n g) s2 =
     set_notePlaying (upd2 (notePlaying s2) ch n false)
       (MIDIReceived [bytes (0x80 + ch) n 0] s2)) /\
  (lastNoteIDs s2 ch n <> g -> run_block (NoteOffBlock ch n g) s2 = s2).
Proof.
  intros s1 g s2 k.
  assert (Hg : 0 <= g < 256).
  { subst g s1. unfold sendNoteOnWithDuration. simpl.
    rewrite upd2_same. apply wrap_u8_range. }
  assert (Hgen : lastNoteIDs s2 ch n = wrap_u8 (g + k)).
  { subst s2 k. by apply apply_events_generation. }
  split; [done|]. split; [done|]. split; [|split].
  - rewrite Hgen. unfold wrap_u8. change (2 ^ 8) with 256.
    rewrite Z.add_mod by done. rewrite (Z.mod_small g 256) by done.
    pose proof (Z.mod_pos_bound k 256) as Hk. split.
    + intros Heq. destruct (Z.ltb_spec (g + k mod 256) 256).
      * rewrite Z.mod_small in Heq by lia. lia.
      * replace (g + k mod 256) with (g + k mod 256 - 256 + 1 * 256) in Heq by lia.
        rewrite Z.mod_add, Z.mod_small in Heq by lia. lia.
    + intros ->. rewrite Z.add_0_r. by apply Z.mod_small.
  - intros Heq. simpl. unfold note_off_block.
    by rewrite (proj2 (Z.eqb_eq _ _) Heq).
  - intros Hne. simpl. unfold note_off_block.
    by rewrite (proj2 (Z.eqb_neq _ _) Hne).
Qed.

(** * Floating point: bounds and exact cases of the rounding *)

Lemma iter_pos_nat {A} (f : A -> A) (p : positive) (x : A) :
  SpecFloat.iter_pos f p x = Nat.iter (Pos.to_nat p) f x.
Proof.
  revert x; induction p as [p IH|p IH|]; intros x; cbn [SpecFloat.iter_pos].
  - rewrite !IH, <- Nat.iter_add, <- Nat.iter_succ_r. f_equal. lia.
  - rewrite !IH, <- Nat.iter_add. f_equal; lia.
  - reflexivity.
Qed.

Lemma shr_1_m (r : shr_record) :
  0 <= shr_m r -> shr_m (shr_1 r) = shr_m r / 2.
Proof.
  destruct r as [m r s]; cbn [shr_m]; intros Hm.
  destruct m as [|[p|p|]|]; cbn [shr_1 shr_m]; try done.
  - rewrite (Pos2Z.inj_xI p). apply Z.div_unique with 1; lia.
  - rewrite (Pos2Z.inj_xO p). apply Z.div_unique with 0; lia.
Qed.

Lemma shr_1_inexact (r : shr_record) :
  0 <= shr_m r -> inexact (shr_1 r) = Z.odd (shr_m r) || inexact r.
Proof.
  destruct r as [m r s]; unfold inexact; cbn [shr_m]; intros Hm.
  destruct m as [|[p|p|]|]; cbn [shr_1 shr_m shr_r shr_s]; try lia; reflexivity.
Qed.

Lemma shr_iter_nonneg (n : nat) (r : shr_record) :
  0 <= shr_m r -> 0 <= shr_m (Nat.iter n shr_1 r).
Proof.
  intros Hm; induction n as [|n IH]; [done|].
  rewrite Nat.iter_succ, shr_1_m by done. apply Z.div_pos; lia.
Qed.

Lemma shr_iter_m (n : nat) (r : shr_record) :
  0 <= shr_m r -> shr_m (Nat.iter n shr_1 r) = shr_m r / 2 ^ Z.of_nat n.
Proof.
  intros Hm; induction n as [|n IH].
  - by rewrite Z.div_1_r.
  - rewrite Nat.iter_succ, shr_1_m by by apply shr_iter_nonneg.
    rewrite IH, Z.div_div by lia.
    by rewrite Nat2Z.inj_succ, Z.pow_succ_r, (Z.mul_comm 2) by lia.
Qed.

Lemma shr_iter_inexact (n : nat) (m : Z) :
  0 <= m ->
  inexact (Nat.iter n shr_1 (Build_shr_record m false false))
  = negb (m mod 2 ^ Z.of_nat n =? 0).
Proof.
  intros Hm; induction n as [|n IH].
  - by rewrite Z.mod_1_r.
  - rewrite Nat.iter_succ, shr_1_inexact by by apply shr_iter_nonneg.
    rewrite IH, shr_iter_m by done. cbn [shr_m].
    rewrite Nat2Z.inj_succ, Z.pow_succ_r, (Z.mul_comm 2) by lia.
    rewrite Z.rem_mul_r by lia.
    pose proof (Z.mod_pos_bound m (2 ^ Z.of_nat n) ltac:(lia)) as Hr.
    pose proof (Zmod_odd (m / 2 ^ Z.of_nat n)) as Ho.
    assert (0 < 2 ^ Z.of_nat n) as Hp by lia.
    destruct (Z.odd _); rewrite Ho.
    + symmetry. cbn [orb]. apply negb_true_iff, Z.eqb_neq. lia.
    + cbn [orb]. by rewrite Z.mul_0_r, Z.add_0_r.
Qed.

(** Shifting a mantissa right from an exact position: the quotient, and
    whether anything was shifted out. *)
Lemma shr_exact (m e n : Z) :
  0 <= m ->
  shr (shr_record_of_loc m loc_Exact) e n =
    (fst (shr (shr_record_of_loc m loc_Exact) e n), e + Z.max 0 n) /\
  shr_m (fst (shr (shr_record_of_loc m loc_Exact) e n)) = m / 2 ^ Z.max 0 n /\
  inexact (fst (shr (shr_record_of_loc m loc_Exact) e n))
  = negb (m mod 2 ^ Z.max 0 n =? 0).
Proof.
  intros Hm. unfold shr, shr_record_of_loc.
  destruct n as [|p|p]; cbn [fst].
  - rewrite Z.max_l by lia. rewrite Z.add_0_r, Z.div_1_r, Z.mod_1_r. done.
  - rewrite Z.max_r by lia. rewrite iter_pos_nat.
    rewrite shr_iter_m, shr_iter_inexact by done. cbn [shr_m].
    by rewrite positive_nat_Z.
  - rewrite Z.max_l by lia. rewrite Z.add_0_r, Z.div_1_r, Z.mod_1_r. done.
Qed.

Lemma round_nearest_even_cases (mrs : shr_record) :
  round_nearest_even (shr_m mrs) (loc_of_shr_record mrs) = shr_m mrs \/
  (round_nearest_even (shr_m mrs) (loc_of_shr_record mrs) = shr_m mrs + 1 /\
   inexact mrs = true).
Proof.
  destruct mrs as [m [|] [|]]; unfold inexact; cbn; auto.
  destruct (Z.even m); auto.
Qed.

Lemma digits2_pos_bounds (p : positive) :
  2 ^ (Zpos (digits2_pos p) - 1) <= Zpos p < 2 ^ Zpos (digits2_pos p).
Proof.
  induction p as [p IH|p IH|]; cbn [digits2_pos].
  - rewrite Pos2Z.inj_succ, (Pos2Z.inj_xI p).
    replace (Z.succ (Z.pos (digits2_pos p)) - 1) with (Z.succ (Z.pos (digits2_pos p) - 1)) by lia.
    rewrite !Z.pow_succ_r by lia. lia.
  - rewrite Pos2Z.inj_succ, (Pos2Z.inj_xO p).
    replace (Z.succ (Z.pos (digits2_pos p)) - 1) with (Z.succ (Z.pos (digits2_pos p) - 1)) by lia.
    rewrite !Z.pow_succ_r by lia. lia.
  - split; [apply Z.leb_le | apply Z.ltb_lt]; reflexivity.
Qed.

Lemma Zdigits2_bounds (m : Z) :
  0 < m -> 0 < Zdigits2 m /\ 2 ^ (Zdigits2 m - 1) <= m < 2 ^ Zdigits2 m.
Proof.
  destruct m as [|p|p]; try lia. intros _. cbn [Zdigits2].
  split; [lia | apply digits2_pos_bounds].
Qed.

Lemma Zdigits2_unique (m d : Z) :
  2 ^ (d - 1) <= m < 2 ^ d -> 0 < d -> Zdigits2 m = d.
Proof.
  intros [Hl Hu] Hd.
  assert (0 < m) as Hm by (pose proof (Z.pow_pos_nonneg 2 (d - 1)); lia).
  destruct (Zdigits2_bounds m Hm) as (Hd' & Hl' & Hu').
  destruct (Z.lt_trichotomy (Zdigits2 m) d) as [H|[H|H]]; [|done|].
  - pose proof (Z.pow_le_mono_r 2 (Zdigits2 m) (d - 1)). lia.
  - pose proof (Z.pow_le_mono_r 2 d (Zdigits2 m - 1)). lia.
Qed.

Lemma Zdigits2_mul_pow (m k : Z) :
  0 < m -> 0 <= k -> Zdigits2 (m * 2 ^ k) = Zdigits2 m + k.
Proof.
  intros Hm Hk. destruct (Zdigits2_bounds m Hm) as (Hd & Hl & Hu).
  apply Zdigits2_unique; [|lia].
  replace (Zdigits2 m + k - 1) with (Zdigits2 m - 1 + k) by lia.
  rewrite !Z.pow_add_r by lia.
  assert (0 < 2 ^ k) by lia. nia.
Qed.

Lemma Zdigits2_div_pow (m k : Z) :
  0 <= k -> 0 < m / 2 ^ k -> Zdigits2 (m / 2 ^ k) = Zdigits2 m - k.
Proof.
  intros Hk Hq.
  assert (0 < 2 ^ k) as Hp by lia.
  assert (0 < m) as Hm.
  { destruct (Z.le_gt_cases m 0) as [H|H]; [|done].
    pose proof (Z.div_le_upper_bound m (2 ^ k) 0 Hp). lia. }
  destruct (Zdigits2_bounds m Hm) as (Hd & Hl & Hu).
  assert (2 ^ k <= m) as Hkm.
  { destruct (Z.le_gt_cases (2 ^ k) m) as [H|H]; [done|].
    rewrite Z.div_small in Hq by lia. lia. }
  assert (k < Zdigits2 m) as Hkd.
  { destruct (Z.le_gt_cases (Zdigits2 m) k) as [H|H]; [|done].
    pose proof (Z.pow_le_mono_r 2 (Zdigits2 m) k). lia. }
  apply Zdigits2_unique; [|lia]. split.
  - apply Z.div_le_lower_bound; [done|].
    rewrite <- Z.pow_add_r by lia.
    by replace (k + (Zdigits2 m - k - 1)) with (Zdigits2 m - 1) by lia.
  - apply Z.div_lt_upper_bound; [done|].
    rewrite <- Z.pow_add_r by lia.
    by replace (k + (Zdigits2 m - k)) with (Zdigits2 m) by lia.
Qed.

(** [binary_round_aux] from an exact position: a shift to the exponent of
    the format, the rounding of what was shifted out, and a second shift
    for a mantissa that the rounding made one digit longer. *)
Lemma binary_round_aux_spec (prec emax : Z) (sx : bool) (m e : Z) :
  0 < m ->
  let n1 := Z.max 0 (fexp prec emax (Zdigits2 m + e) - e) in
  exists m1,
    (m1 = m / 2 ^ n1 \/ (m1 = m / 2 ^ n1 + 1 /\ m mod 2 ^ n1 <> 0)) /\
    let n2 := Z.max 0 (fexp prec emax (Zdigits2 m1 + (e + n1)) - (e + n1)) in
    binary_round_aux prec emax sx m e loc_Exact =
      match m1 / 2 ^ n2 with
      | 0 => S754_zero sx
      | Zpos p =>
          if e + n1 + n2 <=? emax - prec
          then S754_finite sx p (e + n1 + n2) else S754_infinity sx
      | Zneg _ => S754_nan
      end.
Proof.
  intros Hm n1. unfold binary_round_aux, shr_fexp.
  destruct (shr_exact m e (fexp prec emax (Zdigits2 m + e) - e) ltac:(lia))
    as (H1 & H2 & H3).
  rewrite H1. fold n1 in H2, H3 |- *.
  set (mrs := fst (shr (shr_record_of_loc m loc_Exact) e
                     (fexp prec emax (Zdigits2 m + e) - e))) in *.
  assert (0 <= m / 2 ^ n1) as Hq by (apply Z.div_pos; lia).
  exists (round_nearest_even (shr_m mrs) (loc_of_shr_record mrs)). split.
  - destruct (round_nearest_even_cases mrs) as [->|[-> Hi]]; [by left|right].
    split; [by rewrite H2|].
    rewrite H3 in Hi. by apply negb_true_iff, Z.eqb_neq in Hi.
  - set (m1 := round_nearest_even _ _).
    assert (0 <= m1) as Hm1.
    { unfold m1. destruct (round_nearest_even_cases mrs) as [->|[-> _]]; lia. }
    cbv zeta.
    destruct (shr_exact m1 (e + n1)
                (fexp prec emax (Zdigits2 m1 + (e + n1)) - (e + n1)) Hm1)
      as (H1' & H2' & _).
    rewrite H1', H2'. done.
Qed.

(** A value below [2 ^ prec * 2 ^ N] has its format exponent at or below
    [N]. *)
Lemma fexp_bounded (prec emax B N m e : Z) :
  emin prec emax <= N -> 0 <= B < 2 ^ prec -> 0 < prec ->
  0 < m -> e <= N -> m <= B * 2 ^ (N - e) ->
  fexp prec emax (Zdigits2 m + e) <= N.
Proof.
  intros Hemin HB Hprec Hm He Hb.
  destruct (Zdigits2_bounds m Hm) as (Hd & Hl & _).
  assert (0 < 2 ^ (N - e)) as Hpe by lia.
  assert (2 ^ (Zdigits2 m - 1) < 2 ^ (prec + (N - e))) as Hlt.
  { rewrite Z.pow_add_r by lia. nia. }
  apply Z.pow_lt_mono_r_iff in Hlt; [|lia..].
  unfold fexp. lia.
Qed.

(** The shift keeps a bound that lies on the grid of the format. *)
Lemma shift_bounded (prec emax B N m e : Z) :
  emin prec emax <= N -> 0 <= B < 2 ^ prec -> 0 < prec ->
  0 < m -> e <= N -> m <= B * 2 ^ (N - e) ->
  let n := Z.max 0 (fexp prec emax (Zdigits2 m + e) - e) in
  e + n <= N /\
  m / 2 ^ n <= B * 2 ^ (N - (e + n)) /\
  (m mod 2 ^ n <> 0 -> m / 2 ^ n + 1 <= B * 2 ^ (N - (e + n))).
Proof.
  intros Hemin HB Hprec Hm He Hb n.
  pose proof (fexp_bounded prec emax B N m e Hemin HB Hprec Hm He Hb) as Hf.
  assert (0 <= n) as Hn by lia.
  assert (e + n <= N) as Hen by lia.
  assert (0 < 2 ^ n) as Hpn by lia.
  assert (0 < 2 ^ (N - (e + n))) as Hpen by lia.
  assert (2 ^ (N - e) = 2 ^ n * 2 ^ (N - (e + n))) as Hsplit.
  { rewrite <- Z.pow_add_r by lia. f_equal. lia. }
  rewrite Hsplit in Hb.
  split; [done|]. split.
  - apply Z.div_le_upper_bound; [done|]. lia.
  - intros Hr.
    pose proof (Z.div_mod m (2 ^ n) ltac:(lia)) as Hdm.
    pose proof (Z.mod_pos_bound m (2 ^ n) Hpn) as Hrb.
    nia.
Qed.

(** Rounding keeps the bound, and does not overflow below the largest
    exponent. *)
Lemma binary_round_aux_bounded (prec emax B N : Z) (sx : bool) (m e : Z) :
  emin prec emax <= N <= emax - prec -> 0 <= B < 2 ^ prec -> 0 < prec ->
  0 < m -> e <= N -> m <= B * 2 ^ (N - e) ->
  bounded B N (binary_round_aux prec emax sx m e loc_Exact).
Proof.
  intros [Hemin Hemax] HB Hprec Hm He Hb.
  destruct (binary_round_aux_spec prec emax sx m e Hm) as (m1 & Hm1 & ->).
  destruct (shift_bounded prec emax B N m e Hemin HB Hprec Hm He Hb)
    as (He1 & Hq & Hq').
  set (n1 := Z.max 0 (fexp prec emax (Zdigits2 m + e) - e)) in *.
  assert (0 <= m / 2 ^ n1) as Hq0 by (apply Z.div_pos; lia).
  assert (0 <= m1 /\ m1 <= B * 2 ^ (N - (e + n1))) as [Hm10 Hm1b].
  { destruct Hm1 as [->|[-> Hr]]; [lia|]. split; [lia|]. by apply Hq'. }
  cbv zeta.
  destruct (Z.eq_dec m1 0) as [->|Hnz].
  { by rewrite Z.div_0_l by lia. }
  destruct (shift_bounded prec emax B N m1 (e + n1) Hemin HB Hprec
              ltac:(lia) He1 Hm1b) as (He2 & Hq2 & _).
  assert (0 <= m1 / 2 ^ Z.max 0 (fexp prec emax (Zdigits2 m1 + (e + n1)) - (e + n1)))
    as Hq2' by (apply Z.div_pos; lia).
  destruct (m1 / 2 ^ _) as [|p|p] eqn:Hp; [done| |lia].
  destruct (Z.leb_spec (e + n1 + Z.max 0 (fexp prec emax (Zdigits2 m1 + (e + n1)) - (e + n1)))
              (emax - prec)); [|lia].
  split; [lia|done].
Qed.

Lemma pos_iter_xO (m d : positive) :
  Zpos (Pos.iter xO m d) = Zpos m * 2 ^ Zpos d.
Proof.
  induction d as [|d IH] using Pos.peano_ind.
  - cbn [Pos.iter]. rewrite (Pos2Z.inj_xO m). lia.
  - rewrite Pos.iter_succ, Pos2Z.inj_xO, IH, Pos2Z.inj_succ, Z.pow_succ_r by lia.
    lia.
Qed.

Lemma shl_align_spec (mx : positive) (ex ex' : Z) :
  snd (shl_align mx ex ex') = Z.min ex ex' /\
  Zpos (fst (shl_align mx ex ex')) = Zpos mx * 2 ^ (ex - Z.min ex ex').
Proof.
  unfold shl_align. destruct (ex' - ex) as [|d|d] eqn:Hd; cbn [fst snd].
  - rewrite Z.min_l by lia. rewrite Z.sub_diag. lia.
  - rewrite Z.min_l by lia. rewrite Z.sub_diag. lia.
  - rewrite Z.min_r by lia. split; [done|].
    rewrite pos_iter_xO. f_equal. f_equal. lia.
Qed.

Lemma binary_round_bounded (prec emax B N : Z) (sx : bool) (mx : positive) (ex : Z) :
  emin prec emax <= N <= emax - prec -> 0 <= B < 2 ^ prec -> 0 < prec ->
  ex <= N -> Zpos mx <= B * 2 ^ (N - ex) ->
  bounded B N (binary_round prec emax sx mx ex).
Proof.
  intros Hemin HB Hprec He Hb. unfold binary_round.
  destruct (shl_align_spec mx ex (fexp prec emax (Z.pos (digits2_pos mx) + ex)))
    as [He' Hm'].
  destruct (shl_align _ _ _) as [mz ez]. cbn [fst snd] in He', Hm'.
  rewrite <- He' in Hm'.
  apply binary_round_aux_bounded; try done; [lia|].
  rewrite Hm'.
  assert (0 <= ex - ez) by lia.
  replace (N - ez) with (N - ex + (ex - ez)) by lia.
  rewrite Z.pow_add_r by lia.
  assert (0 < 2 ^ (ex - ez)) by lia.
  rewrite Z.mul_assoc. apply Z.mul_le_mono_nonneg_r; lia.
Qed.

Lemma binary_normalize_bounded (prec emax B N z e : Z) (szero : bool) :
  emin prec emax <= N <= emax - prec -> 0 <= B < 2 ^ prec -> 0 < prec ->
  e <= N -> Z.abs z <= B * 2 ^ (N - e) ->
  bounded B N (binary_normalize prec emax z e szero).
Proof.
  intros Hemin HB Hprec He Hb. unfold binary_normalize.
  destruct z as [|p|p]; [done|..]; apply binary_round_bounded; try done; lia.
Qed.


Lemma SFmul_bounded (prec emax B1 B2 N1 N2 : Z) (x y : spec_float) :
  emin prec emax <= N1 + N2 <= emax - prec ->
  0 <= B1 -> 0 <= B2 -> B1 * B2 < 2 ^ prec -> 0 < prec ->
  bounded B1 N1 x -> bounded B2 N2 y ->
  bounded (B1 * B2) (N1 + N2) (SFmul prec emax x y).
Proof.
  intros Hemin HB1 HB2 HB Hprec Hx Hy.
  destruct x as [sx|sx| |sx mx ex], y as [sy|sy| |sy my ey]; try done.
  cbn [SFmul bounded] in *. destruct Hx as [Hex Hmx], Hy as [Hey Hmy].
  apply binary_round_aux_bounded; try done; try lia.
  rewrite Pos2Z.inj_mul.
  replace (N1 + N2 - (ex + ey)) with (N1 - ex + (N2 - ey)) by lia.
  rewrite Z.pow_add_r by lia.
  assert (0 < 2 ^ (N1 - ex)) by lia. assert (0 < 2 ^ (N2 - ey)) by lia.
  nia.
Qed.


Lemma truncate_bounded (B N : Z) (x : spec_float) :
  0 <= B -> 0 <= N -> bounded B N x ->
  exists z, truncate x = Some z /\ - (B * 2 ^ N) <= z <= B * 2 ^ N.
Proof.
  intros HB HN Hx. destruct x as [s|s| |s m e]; try done.
  - exists 0. split; [done|]. assert (0 < 2 ^ N) by lia. nia.
  - cbn [truncate bounded] in *. destruct Hx as [He Hm].
    eexists; split; [done|].
    assert (0 <= (if 0 <=? e then Z.pos m * 2 ^ e else Z.pos m / 2 ^ (- e))
            <= B * 2 ^ N) as Hr.
    { destruct (Z.leb_spec 0 e).
      - assert (0 < 2 ^ e) by lia. split; [nia|].
        assert (2 ^ N = 2 ^ (N - e) * 2 ^ e) as ->
          by (rewrite <- Z.pow_add_r by lia; f_equal; lia).
        rewrite Z.mul_assoc. apply Z.mul_le_mono_nonneg_r; lia.
      - assert (0 < 2 ^ (- e)) by lia.
        split; [apply Z.div_pos; lia|].
        apply Z.div_le_upper_bound; [lia|].
        assert (2 ^ (N - e) = 2 ^ (- e) * 2 ^ N) as Hs
          by (rewrite <- Z.pow_add_r by lia; f_equal; lia).
        rewrite Hs in Hm. lia. }
    destruct s; cbn [cond_Zopp]; lia.
Qed.

(** A rounded mantissa has at most [prec] digits. *)
Lemma binary_round_aux_digits (prec emax : Z) (sx : bool) (m e : Z)
    (s' : bool) (m' : positive) (e' : Z) :
  0 < m ->
  binary_round_aux prec emax sx m e loc_Exact = S754_finite s' m' e' ->
  Zdigits2 (Zpos m') <= prec.
Proof.
  intros Hm. destruct (binary_round_aux_spec prec emax sx m e Hm) as (m1 & _ & ->).
  cbv zeta.
  set (n2 := Z.max 0 (fexp prec emax (Zdigits2 m1 + _) - _)).
  destruct (m1 / 2 ^ n2) as [|p|p] eqn:Hp; [done| |done].
  destruct (_ <=? _); [|done]. intros [= _ <- _].
  rewrite <- Hp, Zdigits2_div_pow by lia.
  unfold n2, fexp. lia.
Qed.

Lemma binary_round_digits (prec emax : Z) (sx : bool) (mx : positive) (ex : Z)
    (s' : bool) (m' : positive) (e' : Z) :
  binary_round prec emax sx mx ex = S754_finite s' m' e' ->
  Zdigits2 (Zpos m') <= prec.
Proof.
  unfold binary_round. destruct (shl_align _ _ _) as [mz ez].
  by apply binary_round_aux_digits.
Qed.

Lemma double_of_float_digits (x : float) (s : bool) (m : positive) (e : Z) :
  double_of_float x = S754_finite s m e -> Zdigits2 (Zpos m) <= 53.
Proof.
  destruct x as [| | |sx mx ex]; try done. unfold double_of_float.
  destruct sx; apply binary_round_digits.
Qed.

Lemma binary_round_aux_not_nan (prec emax : Z) (sx : bool) (m e : Z) :
  0 < m -> binary_round_aux prec emax sx m e loc_Exact <> S754_nan.
Proof.
  intros Hm. destruct (binary_round_aux_spec prec emax sx m e Hm) as (m1 & Hm1 & ->).
  cbv zeta.
  assert (0 <= m / 2 ^ Z.max 0 (fexp prec emax (Zdigits2 m + e) - e)) as Hq
    by (apply Z.div_pos; lia).
  assert (0 <= m1) as Hm10 by (destruct Hm1 as [->|[-> _]]; lia).
  set (n2 := Z.max 0 _).
  assert (0 <= m1 / 2 ^ n2) as Hq2 by (apply Z.div_pos; lia).
  destruct (m1 / 2 ^ n2) as [|p|p]; [done| |lia].
  by destruct (_ <=? _).
Qed.

Lemma binary_round_not_nan (prec emax : Z) (sx : bool) (mx : positive) (ex : Z) :
  binary_round prec emax sx mx ex <> S754_nan.
Proof.
  unfold binary_round. destruct (shl_align _ _ _) as [mz ez].
  by apply binary_round_aux_not_nan.
Qed.

Lemma double_of_float_not_nan (x : float) :
  x <> S754_nan -> double_of_float x <> S754_nan.
Proof.
  destruct x as [| | |s m e]; try done. intros _. unfold double_of_float.
  destruct s; apply binary_round_not_nan.
Qed.

Lemma float_of_double_not_nan (x : double) :
  x <> S754_nan -> float_of_double x <> S754_nan.
Proof.
  destruct x as [| | |s m e]; try done. intros _. unfold float_of_double.
  destruct s; apply binary_round_not_nan.
Qed.

(** What the two comparisons of the clamp leave: a [double] of at most 53
    digits that is neither above [1.0] nor below [-1.0]. *)
Lemma unit_interval (x : double) :
  x <> S754_nan ->
  (forall s m e, x = S754_finite s m e -> Zdigits2 (Zpos m) <= 53) ->
  SFltb (double_of_Z 1) x = false ->
  SFltb x (double_of_Z (-1)) = false ->
  bounded 1 0 x.
Proof.
  intros Hnan Hd H1 H2. destruct x as [|[|]| |s m e]; try done.
  specialize (Hd s m e eq_refl).
  destruct (Zdigits2_bounds (Zpos m) ltac:(lia)) as (_ & _ & Hm).
  assert (Z.pos m < 2 ^ 53) as Hm53.
  { pose proof (Z.pow_le_mono_r 2 (Zdigits2 (Z.pos m)) 53). lia. }
  assert (double_of_Z 1 = S754_finite false 4503599627370496 (-52)) as E1
    by (vm_compute; reflexivity).
  assert (double_of_Z (-1) = S754_finite true 4503599627370496 (-52)) as E2
    by (vm_compute; reflexivity).
  rewrite E1 in H1. rewrite E2 in H2. clear E1 E2 Hd Hm.
  unfold SFltb, SFcompare in H1, H2.
  change (Pos.compare_cont Eq) with Pos.compare in *.
  rewrite Pos2Z.inj_compare in H1, H2.
  cbn [bounded].
  assert (e <= -52 /\ (e = -52 -> Z.pos m <= 4503599627370496)) as [He Hm52].
  { destruct s.
    - clear H1. destruct (Z.compare_spec e (-52)) as [Heq|?|?];
        [|split; lia|discriminate H2].
      split; [lia|]. intros _.
      destruct (Z.compare_spec (Z.pos m) 4503599627370496) as [Heq'|?|?];
        [lia|lia|discriminate H2].
    - clear H2. destruct (Z.compare_spec (-52) e) as [Heq|?|?];
        [|discriminate H1|split; lia].
      split; [lia|]. intros _.
      destruct (Z.compare_spec 4503599627370496 (Z.pos m)) as [Heq'|?|?];
        [lia|discriminate H1|lia]. }
  clear H1 H2.
  split; [lia|]. rewrite Z.mul_1_l, Z.sub_0_l.
  destruct (Z.eq_dec e (-52)) as [->|Hne].
  { apply Hm52. reflexivity. }
  pose proof (Z.pow_le_mono_r 2 53 (- e)). lia.
Qed.

Lemma clamped_bend_bounded (bend : double) :
  bend <> S754_nan -> bounded 1 0 (double_of_float (clamped_bend bend)).
Proof.
  intros Hnan. unfold clamped_bend.
  destruct (SFltb (double_of_Z 1) _) eqn:H1.
  - vm_compute. split; discriminate.
  - destruct (SFltb _ (double_of_Z (-1))) eqn:H2.
    + vm_compute. split; discriminate.
    + apply unit_interval; [|intros s m e; apply double_of_float_digits|done..].
      by apply double_of_float_not_nan, float_of_double_not_nan.
Qed.

Lemma float_of_double_bounded (B N : Z) (x : double) :
  -149 <= N <= 104 -> 0 <= B < 2 ^ 24 -> bounded B N x ->
  bounded B N (float_of_double x).
Proof.
  intros HN HB Hx. destruct x as [| | |s m e]; try done.
  destruct Hx as [He Hm]. unfold float_of_double.
  apply binary_normalize_bounded; try done; try (unfold emin; lia).
  destruct s; cbn [cond_Zopp]; lia.
Qed.


Lemma roundf_bounded (B : Z) (y : float) :
  0 <= B < 2 ^ 24 -> bounded B 0 y -> bounded B 0 (roundf y).
Proof.
  intros HB Hy. destruct y as [| | |s m e]; try done.
  pose proof Hy as [He Hm]. unfold roundf.
  destruct (Z.leb_spec 0 e); [done|].
  rewrite Z.sub_0_l in Hm.
  assert (0 < 2 ^ (- e)) as Hp by lia.
  pose proof (Z.div_mod (Zpos m) (2 ^ (- e)) ltac:(lia)) as Hdm.
  pose proof (Z.mod_pos_bound (Zpos m) (2 ^ (- e)) Hp) as Hr.
  assert (0 <= Zpos m / 2 ^ (- e)) as Hq by (apply Z.div_pos; lia).
  apply binary_normalize_bounded; try done; try (unfold emin; lia).
  change (2 ^ (0 - 0)) with 1. rewrite Z.mul_1_r.
  assert (0 <= (if 2 ^ (- e) <=? 2 * (Z.pos m mod 2 ^ (- e))
                then Z.pos m / 2 ^ (- e) + 1 else Z.pos m / 2 ^ (- e)) <= B)
    as Hn.
  { destruct (Z.leb_spec (2 ^ (- e)) (2 * (Z.pos m mod 2 ^ (- e)))); nia. }
  destruct s; cbn [cond_Zopp]; lia.
Qed.

(** The clamp works: whatever number the script passes, [delta14b] is
    defined and lies between -8191 and 8191.  Only a NaN, which passes both
    comparisons, leaves the conversion to [int] undefined. *)
Lemma bend_delta_defined (bend : double) :
  bend <> S754_nan ->
  exists d, bend_delta bend = Some d /\ -8191 <= d <= 8191.
Proof.
  intros Hnan. unfold bend_delta, int_of_float.
  set (x := roundf _).
  assert (bounded 8191 0 x) as Hx.
  { apply roundf_bounded; [lia|].
    apply float_of_double_bounded; [lia..|].
    change 8191 with (8191 * 1) at 1. change 0 with (0 + 0) at 1.
    apply SFmul_bounded; try lia; try (unfold emin; lia).
    - apply binary_normalize_bounded; try lia. unfold emin; lia.
    - by apply clamped_bend_bounded. }
  destruct (truncate_bounded 8191 0 x ltac:(lia) ltac:(lia) Hx) as (z & -> & Hz).
  change (2 ^ 0) with 1 in Hz.
  exists z. split; [|lia].
  destruct (Z.leb_spec (- 2 ^ 31) z); [|lia].
  destruct (Z.ltb_spec z (2 ^ 31)); [done|lia].
Qed.

Lemma bend_delta_nan : bend_delta S754_nan = None.
Proof. reflexivity. Qed.

Lemma bend_delta_defined_iff (bend : double) :
  defined (bend_delta bend) = true <-> bend <> S754_nan.
Proof.
  split.
  - intros Hd ->. by rewrite bend_delta_nan in Hd.
  - intros Hnan. by destruct (bend_delta_defined bend Hnan) as (d & -> & _).
Qed.

(** ** Exact cases

    An integer below [2 ^ prec] is a value of the format, and rounding
    leaves it as it is. *)

Lemma binary_round_aux_int (prec emax : Z) (s : bool) (z k m : Z) :
  emin prec emax <= 1 - prec -> 0 < prec <= emax ->
  0 < z < 2 ^ prec -> prec - Zdigits2 z <= k -> m = z * 2 ^ k ->
  binary_round_aux prec emax s m (- k) loc_Exact
  = S754_finite s (Z.to_pos (z * 2 ^ (prec - Zdigits2 z))) (Zdigits2 z - prec).
Proof.
  intros Hemin Hprec Hz Hk ->.
  destruct (Zdigits2_bounds z ltac:(lia)) as (Hd & Hl & Hu).
  assert (Zdigits2 z <= prec) as Hdp.
  { destruct (Z.le_gt_cases (Zdigits2 z) prec) as [H|H]; [done|].
    pose proof (Z.pow_le_mono_r 2 prec (Zdigits2 z - 1)). lia. }
  assert (0 <= k) as Hk0 by lia.
  assert (0 < 2 ^ k) as Hpk by lia.
  assert (0 < 2 ^ (prec - Zdigits2 z)) as Hpd by lia.
  destruct (binary_round_aux_spec prec emax s (z * 2 ^ k) (- k) ltac:(nia))
    as (m1 & Hm1 & ->).
  rewrite Zdigits2_mul_pow in * by lia.
  replace (Zdigits2 z + k + - k) with (Zdigits2 z) in * by lia.
  assert (fexp prec emax (Zdigits2 z) = Zdigits2 z - prec) as Hf
    by (unfold fexp, emin in *; lia).
  rewrite Hf in *.
  replace (Z.max 0 (Zdigits2 z - prec - - k)) with (k - (prec - Zdigits2 z))
    in * by lia.
  set (n1 := k - (prec - Zdigits2 z)) in *.
  assert (z * 2 ^ k = z * 2 ^ (prec - Zdigits2 z) * 2 ^ n1) as Hsplit.
  { rewrite <- Z.mul_assoc, <- Z.pow_add_r by lia. do 2 f_equal. lia. }
  rewrite Hsplit in Hm1.
  rewrite Z.div_mul, Z.mod_mul in Hm1 by lia.
  destruct Hm1 as [->|[_ ?]]; [|done].
  cbv zeta. rewrite Zdigits2_mul_pow by lia.
  replace (Zdigits2 z + (prec - Zdigits2 z) + (- k + n1)) with (Zdigits2 z) by lia.
  rewrite Hf.
  replace (Z.max 0 (Zdigits2 z - prec - (- k + n1))) with 0 by lia.
  rewrite Z.div_1_r.
  replace (- k + n1 + 0) with (Zdigits2 z - prec) by lia.
  destruct (z * 2 ^ (prec - Zdigits2 z)) as [|p|p] eqn:Hp; [lia| |lia].
  destruct (Z.leb_spec (Zdigits2 z - prec) (emax - prec)); [done|lia].
Qed.

Lemma binary_round_int (prec emax : Z) (s : bool) (z k : Z) (mx : positive) :
  emin prec emax <= 1 - prec -> 0 < prec <= emax ->
  0 < z < 2 ^ prec -> 0 <= k -> Zpos mx = z * 2 ^ k ->
  binary_round prec emax s mx (- k)
  = S754_finite s (Z.to_pos (z * 2 ^ (prec - Zdigits2 z))) (Zdigits2 z - prec).
Proof.
  intros Hemin Hprec Hz Hk Hmx. unfold binary_round.
  destruct (Zdigits2_bounds z ltac:(lia)) as (Hd & _ & _).
  change (Z.pos (digits2_pos mx)) with (Zdigits2 (Zpos mx)).
  rewrite Hmx, Zdigits2_mul_pow by lia.
  replace (Zdigits2 z + k + - k) with (Zdigits2 z) by lia.
  assert (fexp prec emax (Zdigits2 z) = Zdigits2 z - prec) as ->
    by (unfold fexp, emin in *; lia).
  destruct (shl_align_spec mx (- k) (Zdigits2 z - prec)) as [He' Hm'].
  destruct (shl_align _ _ _) as [mz ez]. cbn [fst snd] in He', Hm'.
  rewrite <- He' in Hm'.
  replace ez with (- (- ez)) by lia.
  apply binary_round_aux_int; try done; [lia|].
  rewrite Hm', Hmx, <- Z.mul_assoc, <- Z.pow_add_r by lia. do 2 f_equal. lia.
Qed.

Lemma canon_pos (prec z : Z) :
  0 < z ->
  canon prec z = S754_finite false (Z.to_pos (z * 2 ^ (prec - Zdigits2 z)))
                   (Zdigits2 z - prec).
Proof. destruct z; done. Qed.

Lemma canon_neg (prec z : Z) :
  0 < z ->
  canon prec (- z) = S754_finite true (Z.to_pos (z * 2 ^ (prec - Zdigits2 z)))
                       (Zdigits2 z - prec).
Proof. destruct z; done. Qed.

(** A value [z * 2 ^ e], written in any way, normalises to the integer
    [z]. *)
Lemma binary_normalize_int (prec emax z k v : Z) (szero : bool) :
  emin prec emax <= 1 - prec -> 0 < prec <= emax ->
  Z.abs z < 2 ^ prec -> z <> 0 -> 0 <= k -> v = z * 2 ^ k ->
  binary_normalize prec emax v (- k) szero = canon prec z.
Proof.
  intros Hemin Hprec Hz Hnz Hk ->. assert (0 < 2 ^ k) by lia.
  unfold binary_normalize.
  destruct (z * 2 ^ k) as [|p|p] eqn:Hp; [nia|..].
  - rewrite canon_pos by nia. apply binary_round_int; try done; nia.
  - replace z with (- - z) by lia. rewrite canon_neg by nia.
    apply binary_round_int; try done; nia.
Qed.

Lemma float_of_Z_canon (z : Z) : Z.abs z < 2 ^ 24 -> float_of_Z z = canon 24 z.
Proof.
  intros Hz. destruct (Z.eq_dec z 0) as [->|Hnz]; [done|].
  unfold float_of_Z. change 0 with (- 0) at 1.
  apply binary_normalize_int; try done; unfold emin; lia.
Qed.

Lemma double_of_Z_canon (z : Z) : Z.abs z < 2 ^ 53 -> double_of_Z z = canon 53 z.
Proof.
  intros Hz. destruct (Z.eq_dec z 0) as [->|Hnz]; [done|].
  unfold double_of_Z. change 0 with (- 0) at 1.
  apply binary_normalize_int; try done; unfold emin; lia.
Qed.

Lemma Zdigits2_le_prec (prec z : Z) :
  0 < z < 2 ^ prec -> Zdigits2 z <= prec.
Proof.
  intros Hz. destruct (Zdigits2_bounds z ltac:(lia)) as (Hd & Hl & Hu).
  destruct (Z.le_gt_cases (Zdigits2 z) prec) as [H|H]; [done|].
  pose proof (Z.pow_le_mono_r 2 prec (Zdigits2 z - 1)). lia.
Qed.

Lemma Zdigits2_abs (z : Z) : Zdigits2 (Z.abs z) = Zdigits2 z.
Proof. by destruct z. Qed.

Lemma Zdigits2_mul_ge (a b : Z) :
  0 < a -> 0 < b -> Zdigits2 a + Zdigits2 b - 1 <= Zdigits2 (a * b).
Proof.
  intros Ha Hb.
  destruct (Zdigits2_bounds a Ha) as (Hda & Hla & _).
  destruct (Zdigits2_bounds b Hb) as (Hdb & Hlb & _).
  destruct (Zdigits2_bounds (a * b) ltac:(nia)) as (Hdab & _ & Hu).
  assert (2 ^ (Zdigits2 a - 1 + (Zdigits2 b - 1)) < 2 ^ Zdigits2 (a * b)) as Hlt.
  { rewrite Z.pow_add_r by lia. nia. }
  apply Z.pow_lt_mono_r_iff in Hlt; lia.
Qed.

(** The parts of the integer [z] in a format that holds it. *)
Lemma canon_finite (prec z : Z) :
  z <> 0 -> Z.abs z < 2 ^ prec ->
  exists m,
    canon prec z = S754_finite (z <? 0) m (- (prec - Zdigits2 z)) /\
    0 <= prec - Zdigits2 z /\
    Zpos m = Z.abs z * 2 ^ (prec - Zdigits2 z).
Proof.
  intros Hnz Hz.
  pose proof (Zdigits2_le_prec prec (Z.abs z) ltac:(lia)) as Hd.
  rewrite Zdigits2_abs in Hd.
  assert (0 < 2 ^ (prec - Zdigits2 z)) by lia.
  exists (Z.to_pos (Z.abs z * 2 ^ (prec - Zdigits2 z))). split; [|split; [lia|]].
  - replace (- (prec - Zdigits2 z)) with (Zdigits2 z - prec) by lia.
    by destruct z.
  - rewrite Z2Pos.id; [done|nia].
Qed.

Lemma cond_Zopp_abs (z : Z) : cond_Zopp (z <? 0) (Z.abs z) = z.
Proof. destruct (Z.ltb_spec z 0); cbn [cond_Zopp]; lia. Qed.

Lemma cond_Zopp_mul (s : bool) (a b : Z) :
  cond_Zopp s (a * b) = cond_Zopp s a * b.
Proof. destruct s; cbn [cond_Zopp]; lia. Qed.

(** An integer that both formats hold converts between them as it is. *)
Lemma canon_convert (prec prec' emax' z : Z) (s szero : bool) (m : positive) (e : Z) :
  emin prec' emax' <= 1 - prec' -> 0 < prec' <= emax' ->
  Z.abs z < 2 ^ prec -> Z.abs z < 2 ^ prec' -> z <> 0 ->
  canon prec z = S754_finite s m e ->
  binary_normalize prec' emax' (cond_Zopp s (Zpos m)) e szero = canon prec' z.
Proof.
  intros Hemin Hprec Hz Hz' Hnz Hc.
  destruct (canon_finite prec z Hnz Hz) as (m' & Hc' & Hk & Hm').
  rewrite Hc' in Hc. injection Hc as <- <- <-.
  apply binary_normalize_int; try done.
  by rewrite Hm', cond_Zopp_mul, cond_Zopp_abs.
Qed.

Lemma double_of_float_canon (z : Z) :
  Z.abs z < 2 ^ 24 -> double_of_float (canon 24 z) = canon 53 z.
Proof.
  intros Hz. destruct (Z.eq_dec z 0) as [->|Hnz]; [done|].
  destruct (canon_finite 24 z Hnz Hz) as (m & Hc & _).
  rewrite Hc. unfold double_of_float.
  apply (canon_convert 24); try done; try (unfold emin; lia).
Qed.

Lemma float_of_double_canon (z : Z) :
  Z.abs z < 2 ^ 24 -> float_of_double (canon 53 z) = canon 24 z.
Proof.
  intros Hz. destruct (Z.eq_dec z 0) as [->|Hnz]; [done|].
  destruct (canon_finite 53 z Hnz ltac:(lia)) as (m & Hc & _).
  rewrite Hc. unfold float_of_double.
  apply (canon_convert 53); try done; try (unfold emin; lia).
Qed.

Lemma canon_opp (prec z : Z) : z <> 0 -> canon prec (- z) = SFopp (canon prec z).
Proof. by destruct z. Qed.

(** The difference of two integers is exact when it fits the format. *)
Lemma float_sub_canon (a b : Z) :
  Z.abs a < 2 ^ 24 -> Z.abs b < 2 ^ 24 -> Z.abs (a - b) < 2 ^ 24 ->
  float_sub (canon 24 a) (canon 24 b) = canon 24 (a - b).
Proof.
  intros Ha Hb Hab. unfold float_sub.
  destruct (Z.eq_dec b 0) as [->|Hnb].
  { rewrite Z.sub_0_r. by destruct a. }
  destruct (Z.eq_dec a 0) as [->|Hna].
  { rewrite Z.sub_0_l, canon_opp by done. by destruct b. }
  destruct (canon_finite 24 a Hna Ha) as (ma & -> & Hka & Hma).
  destruct (canon_finite 24 b Hnb Hb) as (mb & -> & Hkb & Hmb).
  cbn [SFsub].
  set (ea := - (24 - Zdigits2 a)) in *. set (eb := - (24 - Zdigits2 b)) in *.
  destruct (shl_align_spec ma ea (Z.min ea eb)) as [_ ->].
  destruct (shl_align_spec mb eb (Z.min ea eb)) as [_ ->].
  rewrite (Z.min_r ea (Z.min ea eb)), (Z.min_r eb (Z.min ea eb)) by lia.
  set (ez := Z.min ea eb).
  assert (0 <= - ez /\ 0 <= ea - ez /\ 0 <= eb - ez) as (Hez & Hea & Heb)
    by (unfold ez, ea, eb; lia).
  rewrite !cond_Zopp_mul, Hma, Hmb, !cond_Zopp_mul, !cond_Zopp_abs.
  rewrite <- !Z.mul_assoc, <- !Z.pow_add_r by lia.
  replace (24 - Zdigits2 a + (ea - ez)) with (- ez) by (unfold ea; lia).
  replace (24 - Zdigits2 b + (eb - ez)) with (- ez) by (unfold eb; lia).
  rewrite <- Z.mul_sub_distr_r.
  destruct (Z.eq_dec (a - b) 0) as [->|Hnz]; [done|].
  replace ez with (- - ez) at 2 by lia.
  apply binary_normalize_int; try done; unfold emin; lia.
Qed.

Lemma int_value_canon (prec z : Z) : int_value prec z (canon prec z).
Proof.
  unfold int_value. destruct (Z.eqb_spec z 0) as [->|]; [by eexists|done].
Qed.

(** So is the product. *)
Lemma double_mul_int (a b : Z) (x y : double) :
  int_value 53 a x -> int_value 53 b y -> Z.abs (a * b) < 2 ^ 53 ->
  int_value 53 (a * b) (double_mul x y).
Proof.
  unfold int_value at 1 2. intros Hx Hy Hab.
  destruct (Z.eqb_spec a 0) as [->|Hna].
  { destruct Hx as [s ->]. rewrite Z.mul_0_l.
    destruct (Z.eqb_spec b 0) as [->|Hnb].
    - destruct Hy as [s' ->]. by eexists.
    - rewrite Hy. destruct b; [done|by eexists..]. }
  destruct (Z.eqb_spec b 0) as [->|Hnb].
  { destruct Hy as [s ->]. rewrite Z.mul_0_r.
    rewrite Hx. destruct a; [done|by eexists..]. }
  assert (Z.abs a < 2 ^ 53 /\ Z.abs b < 2 ^ 53) as [Ha Hb] by nia.
  destruct (canon_finite 53 a Hna Ha) as (ma & Hca & Hka & Hma).
  destruct (canon_finite 53 b Hnb Hb) as (mb & Hcb & Hkb & Hmb).
  unfold int_value. destruct (Z.eqb_spec (a * b) 0) as [|Hnab]; [nia|].
  destruct (canon_finite 53 (a * b) Hnab Hab) as (mab & -> & Hkab & Hmab).
  rewrite Hx, Hy, Hca, Hcb. unfold double_mul. cbn [SFmul].
  pose proof (Zdigits2_mul_ge (Z.abs a) (Z.abs b) ltac:(lia) ltac:(lia)) as Hd.
  rewrite <- Z.abs_mul, !Zdigits2_abs in Hd.
  replace (- (53 - Zdigits2 a) + - (53 - Zdigits2 b))
    with (- (53 - Zdigits2 a + (53 - Zdigits2 b))) by lia.
  rewrite (binary_round_aux_int 53 1024 _ (Z.abs (a * b))); try done.
  - rewrite Zdigits2_abs. f_equal.
    + destruct (Z.ltb_spec a 0), (Z.ltb_spec b 0), (Z.ltb_spec (a * b) 0);
        cbn [xorb]; try done; nia.
    + apply Pos2Z.inj. rewrite Hmab, Z2Pos.id; [done|].
      assert (0 < 2 ^ (53 - Zdigits2 (a * b))) by lia. nia.
    + lia.
  - unfold emin; lia.
  - rewrite Zdigits2_abs. lia.
  - rewrite Pos2Z.inj_mul, Hma, Hmb, Z.abs_mul, Z.pow_add_r by lia. lia.
Qed.

Lemma truncate_int (z : Z) (x : double) :
  int_value 53 z x -> Z.abs z < 2 ^ 53 -> truncate x = Some z.
Proof.
  unfold int_value. intros Hx Hz.
  destruct (Z.eqb_spec z 0) as [->|Hnz]; [by destruct Hx as [s ->]|].
  destruct (canon_finite 53 z Hnz Hz) as (m & Hc & Hk & Hm).
  rewrite Hx, Hc. cbn [truncate]. f_equal.
  transitivity (cond_Zopp (z <? 0) (Z.abs z)); [f_equal|apply cond_Zopp_abs].
  assert (0 < 2 ^ (53 - Zdigits2 z)) by lia.
  rewrite Z.opp_involutive, Hm.
  destruct (Z.leb_spec 0 (- (53 - Zdigits2 z))).
  - replace (53 - Zdigits2 z) with 0 by lia.
    change (- 0) with 0. rewrite !Z.pow_0_r. lia.
  - by rewrite Z.div_mul by lia.
Qed.

Lemma int64_of_double_int (z : Z) (x : double) :
  int_value 53 z x -> Z.abs z < 2 ^ 53 -> int64_of_double x = Some z.
Proof.
  intros Hx Hz. unfold int64_of_double. rewrite (truncate_int z x Hx Hz).
  destruct (Z.leb_spec (- 2 ^ 63) z); [|lia].
  destruct (Z.ltb_spec z (2 ^ 63)); [done|lia].
Qed.

(** With whole numbers of ticks and of milliseconds, in the range where
    [float] and [double] count exactly, the note-off delay is the exact
    number of nanoseconds. *)
Lemma note_off_delay_int (u duration offset : Z) :
  Z.abs duration < 2 ^ 24 -> Z.abs offset < 2 ^ 24 ->
  Z.abs (duration - offset) < 2 ^ 24 ->
  Z.abs (1000000 * u) < 2 ^ 53 ->
  Z.abs (1000000 * u * (duration - offset)) < 2 ^ 53 ->
  note_off_delay (double_of_Z u) duration (float_of_Z offset)
  = Some (1000000 * u * (duration - offset)).
Proof.
  intros Hd Ho Hdo Hu Hall. unfold note_off_delay.
  apply int64_of_double_int; [|done].
  apply double_mul_int; [| |done].
  - apply double_mul_int; [..|done]; rewrite double_of_Z_canon by lia;
      apply int_value_canon.
  - rewrite !float_of_Z_canon, float_sub_canon, double_of_float_canon by done.
    apply int_value_canon.
Qed.

Lemma float_of_double_of_Z (z : Z) :
  Z.abs z < 2 ^ 24 -> float_of_double (double_of_Z z) = float_of_Z z.
Proof.
  intros Hz. rewrite double_of_Z_canon, float_of_Z_canon by lia.
  by apply float_of_double_canon.
Qed.

Lemma flush_delay_int (offset : Z) :
  Z.abs (1000000 * offset) < 2 ^ 53 ->
  flush_delay (double_of_Z offset) = Some (1000000 * offset).
Proof.
  intros Ho. unfold flush_delay.
  apply int64_of_double_int; [|done].
  apply double_mul_int; [..|done]; rewrite double_of_Z_canon by lia;
    apply int_value_canon.
Qed.

(** ** Delays that have a value *)





(** ** Signs of the floating-point operations *)

Lemma binary_round_aux_sign prec emax sx mx ex lx :
  binary_round_aux prec emax sx mx ex lx = S754_nan \/
  sign_bit (binary_round_aux prec emax sx mx ex lx) = sx.
Proof.
  unfold binary_round_aux.
  destruct (shr_fexp prec emax mx ex lx) as [mrs' e'].
  destruct (shr_fexp prec emax _ e' loc_Exact) as [mrs'' e''].
  destruct (shr_m mrs''); [by right | | by left].
  destruct (e'' <=? emax - prec); by right.
Qed.

Lemma binary_round_sign prec emax sx mx ex :
  binary_round prec emax sx mx ex = S754_nan \/
  sign_bit (binary_round prec emax sx mx ex) = sx.
Proof.
  unfold binary_round. destruct (shl_align _ _ _) as [mz ez].
  apply binary_round_aux_sign.
Qed.

Lemma SFmul_sign prec emax x y :
  SFmul prec emax x y = S754_nan \/
  sign_bit (SFmul prec emax x y) = xorb (sign_bit x) (sign_bit y).
Proof.
  destruct x as [sx | sx | | sx mx ex], y as [sy | sy | | sy my ey]; simpl;
    try (by left); try (by right).
  apply binary_round_aux_sign.
Qed.

Lemma double_of_float_sign x :
  double_of_float x = S754_nan \/ sign_bit (double_of_float x) = sign_bit x.
Proof.
  destruct x as [sx | sx | | sx mx ex]; simpl; try (by left); try (by right).
  destruct sx; simpl; apply binary_round_sign.
Qed.

Lemma truncate_sign x z :
  truncate x = Some z -> if sign_bit x then z <= 0 else 0 <= z.
Proof.
  destruct x as [sx | sx | | sx mx ex]; simpl; try done.
  - intros [= <-]. by destruct sx.
  - intros [= <-].
    assert (0 <= (if 0 <=? ex then Z.pos mx * 2 ^ ex else Z.pos mx / 2 ^ (- ex))).
    { destruct (Z.leb_spec 0 ex).
      - apply Z.mul_nonneg_nonneg; [lia | by apply Z.pow_nonneg].
      - apply Z.div_pos; [lia | apply Z.pow_pos_nonneg; lia]. }
    destruct sx; simpl; lia.
Qed.

Lemma int64_of_double_sign x z :
  int64_of_double x = Some z -> if sign_bit x then z <= 0 else 0 <= z.
Proof.
  unfold int64_of_double. destruct (truncate x) as [z0|] eqn:Hz; [|done].
  destruct (_ && _); [|done]. intros [= <-]. by apply truncate_sign.
Qed.

(** With a [duration_unit] that is not negative, the delay has the sign of
    the difference taken in [float]. *)
Lemma note_off_delay_sign du dur offset z :
  note_off_delay du dur offset = Some z ->
  sign_bit du = false ->
  if sign_bit (float_sub (float_of_Z dur) offset) then z <= 0 else 0 <= z.
Proof.
  unfold note_off_delay, double_mul. intros Hz Hdu.
  set (difference := float_sub (float_of_Z dur) offset) in *.
  set (unit_ns := SFmul 53 1024 (double_of_Z 1000000) du) in *.
  pose proof (int64_of_double_sign _ _ Hz) as Hs.
  destruct (SFmul_sign 53 1024 unit_ns (double_of_float difference)) as [E | E];
    [by rewrite E in Hz|].
  rewrite E in Hs.
  destruct (SFmul_sign 53 1024 (double_of_Z 1000000) du) as [E1 | E1].
  { fold unit_ns in E1. by rewrite E1 in Hz. }
  fold unit_ns in E1. rewrite E1, Hdu in Hs.
  change (sign_bit (double_of_Z 1000000)) with false in Hs. simpl in Hs.
  destruct (double_of_float_sign difference) as [E2 | E2].
  { rewrite E2 in Hz. by destruct unit_ns. }
  by rewrite E2 in Hs.
Qed.

(** ** The delayed block *)

Lemma delayed_step_deltas c s :
  delta <$> timers (delayed_step c s) =
    (delta <$> timers s) ++
    (if decide (type c = kNoteOnWithDuration)
     then [note_off_delay (duration_unit s) (duration c)
             (float_of_double (late_note_offset s))]
     else []).
Proof.
  unfold delayed_step.
  destruct (type c); simpl; rewrite ?app_nil_r; try done.
  by rewrite fmap_app.
Qed.

Lemma delayed_block_deltas cmds s :
  delta <$> timers (delayed_block cmds s) =
    (delta <$> timers s) ++
    ((fun c => note_off_delay (duration_unit s) (duration c)
                 (float_of_double (late_note_offset s))) <$>
       filter (fun c => type c = kNoteOnWithDuration) cmds).
Proof.
  revert s. induction cmds as [|c rest IH]; intros s; simpl delayed_block.
  - by rewrite filter_nil, app_nil_r.
  - rewrite IH, delayed_step_deltas, filter_cons.
    destruct (delayed_step_settings c s) as (-> & -> & _).
    case_decide; [|by rewrite app_nil_r].
    by rewrite <- app_assoc.
Qed.

(** C7, amended.  When the delayed block runs, every NoteOnWithDuration in
    its list schedules its note-off with [late_note_offset], converted to
    [float], as the offset: the delay is
    [1000000 * duration_unit * (duration - offset)] nanoseconds as C
    evaluates it, the difference in [float] and the products in [double],
    converted to [int64_t].  Nothing is clamped: with a [duration_unit]
    that is not negative the delay has the sign of the [float] difference,
    not negative where the difference is not and not positive where the
    difference is negative.  With whole numbers for the unit [u], the
    offset [o] and the duration, in the range where the two formats count
    exactly, the delay is exactly [1000000 * u * (duration - o)], which is
    negative whenever [u] is positive and the offset exceeds the
    duration. *)
Theorem deferred_noteoff_delay (s : state) (i : nat) (d : option Z)
    (delayedCommands : list command) :
  timers s !! i = Some (mkTimer d (DelayedBlock delayedCommands)) ->
  let offset := float_of_double (late_note_offset s) in
  delta <$> timers (fire i s) =
    (delta <$> delete i (timers s)) ++
    ((fun c => note_off_delay (duration_unit s) (duration c) offset) <$>
       filter (fun c => type c = kNoteOnWithDuration) delayedCommands) /\
  (forall c z,
     note_off_delay (duration_unit s) (duration c) offset = Some z ->
     sign_bit (duration_unit s) = false ->
     if sign_bit (float_sub (float_of_Z (duration c)) offset)
     then z <= 0 else 0 <= z) /\
  (forall u o c,
     duration_unit s = double_of_Z u -> late_note_offset s = double_of_Z o ->
     Z.abs (duration c) < 2 ^ 24 -> Z.abs o < 2 ^ 24 ->
     Z.abs (duration c - o) < 2 ^ 24 ->
     Z.abs (1000000 * u) < 2 ^ 53 ->
     Z.abs (1000000 * u * (duration c - o)) < 2 ^ 53 ->
     note_off_delay (duration_unit s) (duration c) offset
     = Some (1000000 * u * (duration c - o))).
Proof.
  intros Hi offset. split; [|split].
  - unfold fire. rewrite Hi. simpl. by rewrite delayed_block_deltas.
  - intros c z. apply note_off_delay_sign.
  - intros u o c Hu Ho Hd Hob Hdo Hub Hall. subst offset.
    rewrite Hu, Ho, float_of_double_of_Z by done.
    by apply note_off_delay_int.
Qed.

(** ** The queue *)

Lemma queue_wf_spec s :
  queue_wf s = true <->
  exists buf, commandQueue s = Some buf /\
    commandQueueAllocatedSize s = Z.of_nat (length buf) /\
    0 <= commandQueueIndex s <= commandQueueAllocatedSize s.
Proof.
  unfold queue_wf. destruct (commandQueue s) as [buf|].
  - rewrite !andb_true_iff, Z.eqb_eq, !Z.leb_le. split.
    + intros [[H1 H2] H3]. exists buf. auto.
    + intros (buf' & [= <-] & H1 & H2 & H3). auto.
  - split; [done|]. by intros (buf & ? & _).
Qed.

Lemma wrap_u32_small z : 0 <= z < 2 ^ 32 -> wrap_u32 z = z.
Proof. intros Hz. unfold wrap_u32. by apply Z.mod_small. Qed.

Lemma wrap_int_small z : - 2 ^ 31 <= z < 2 ^ 31 -> wrap_int z = z.
Proof. intros Hz. unfold wrap_int. rewrite Z.mod_small; lia. Qed.

Lemma take_insert_snoc {A} (l : list A) (i : nat) (x : A) :
  (i < length l)%nat -> take (S i) (<[i := x]> l) = take i l ++ [x].
Proof.
  intros Hi. rewrite (take_S_r _ _ x) by (by apply list_lookup_insert_eq).
  by rewrite take_insert_ge by lia.
Qed.

(** C8, amended.  On an allocated queue with fewer than [2^31 - 1]
    entries, [queueCommand] stores the command at the tail of the queue, the
    entries before it unchanged; when the queue is full the capacity first
    grows by [CMD_BLOCK] = 64 cells (the new capacity is the old plus 64).
    The result of [realloc] is not tested: when the queue is full and the
    reallocation fails, the store goes through a null pointer and no state
    results in which the command was dropped. *)
Theorem queueCommand_appends (e : env) (c : command) (s : state) :
  queue_wf s = true ->
  commandQueueIndex s < 2 ^ 31 - 1 ->
  if (commandQueueIndex s =? commandQueueAllocatedSize s) && negb (alloc_ok e)
  then queueCommand e c s = None
  else
    exists s',
      queueCommand e c s = Some s' /\
      queued s' = queued s ++ [c] /\
      commandQueueIndex s' = commandQueueIndex s + 1 /\
      commandQueueAllocatedSize s' =
        (if commandQueueIndex s =? commandQueueAllocatedSize s
         then commandQueueAllocatedSize s + CMD_BLOCK
         else commandQueueAllocatedSize s) /\
      queue_wf s' = true.
Proof.
  intros Hwf Hmax.
  apply queue_wf_spec in Hwf as (buf & Hbuf & Hsize & Hidx).
  unfold queueCommand. rewrite wrap_u32_small by lia.
  destruct (Z.eqb_spec (commandQueueIndex s) (commandQueueAllocatedSize s))
    as [Hfull | Hroom]; simpl.
  - rewrite wrap_u32_small by (unfold CMD_BLOCK; lia).
    unfold realloc. rewrite Hbuf. simpl.
    destruct (alloc_ok e); simpl; [|done].
    rewrite take_ge by (unfold CMD_BLOCK; lia).
    replace (Z.to_nat (commandQueueAllocatedSize s + CMD_BLOCK) - length buf)%nat
      with 64%nat by (unfold CMD_BLOCK; lia).
    assert (Hfresh : length (replicate 64 (uninit e)) = 64%nat)
      by apply length_replicate.
    revert Hfresh. generalize (replicate 64 (uninit e)). intros fresh Hfresh.
    rewrite length_app, Hfresh.
    rewrite (proj2 (Z.leb_le _ _)), (proj2 (Z.ltb_lt _ _)) by lia. simpl.
    eexists. split; [done|]. unfold queued. simpl. rewrite Hbuf.
    rewrite wrap_int_small by lia.
    replace (Z.to_nat (commandQueueIndex s + 1))
      with (S (Z.to_nat (commandQueueIndex s))) by lia.
    rewrite take_insert_snoc by (rewrite length_app; lia).
    repeat split.
    + f_equal. rewrite take_app_le by lia. done.
    + apply queue_wf_spec. eexists. simpl. split; [done|].
      rewrite length_insert, length_app, Hfresh.
      unfold CMD_BLOCK. lia.
  - rewrite Hbuf.
    rewrite (proj2 (Z.leb_le _ _)), (proj2 (Z.ltb_lt _ _)) by lia. simpl.
    eexists. split; [done|]. unfold queued. simpl. rewrite Hbuf.
    rewrite wrap_int_small by lia.
    replace (Z.to_nat (commandQueueIndex s + 1)) with (S (Z.to_nat (commandQueueIndex s))) by lia.
    rewrite take_insert_snoc by lia.
    repeat split.
    apply queue_wf_spec. eexists. simpl. split; [done|].
    rewrite length_insert. lia.
Qed.

(** ** Ranges of the queued commands *)

Lemma land_0x7F_range z : 0 <= Z.land z 0x7F <= 127.
Proof.
  assert (Z.land z 0x7F = z mod 128) as ->
    by (change 0x7F with (Z.ones 7); by rewrite Z.land_ones).
  pose proof (Z.mod_pos_bound z 128). lia.
Qed.

Lemma masked_arg z : wrap_int (Z.land z 0x7F) = Z.land z 0x7F.
Proof.
  pose proof (land_0x7F_range z). apply wrap_int_small.
  change (2 ^ 31) with 2147483648. lia.
Qed.

Lemma wrap_int_le z : 0 <= z -> wrap_int z <= z.
Proof.
  intros Hz. unfold wrap_int. change (2 ^ 31) with 2147483648.
  change (2 ^ 32) with 4294967296.
  pose proof (Z.mod_le (z + 2147483648) 4294967296). lia.
Qed.

Lemma channel_arg_range x ch : channel_arg x = Some ch -> 0 <= ch <= 15.
Proof.
  unfold channel_arg. destruct (_ =? - 2 ^ 31); [done|]. intros [= <-].
  destruct (Z.ltb_spec (wrap_int x - 1) 0); [done|].
  destruct (Z.gtb_spec (wrap_int x - 1) 15); lia.
Qed.

Lemma optional_channel_range given x ch :
  optional_channel given x = Some ch -> 0 <= ch <= 15.
Proof.
  unfold optional_channel. destruct given; [apply channel_arg_range|].
  intros [= <-]. lia.
Qed.

Lemma batch_in_range_app q1 q2 :
  batch_in_range (q1 ++ q2) = batch_in_range q1 && batch_in_range q2.
Proof. apply forallb_app. Qed.

Lemma batch_in_range_take q (n : nat) :
  batch_in_range q = true -> batch_in_range (take n q) = true.
Proof.
  rewrite <- (take_drop n q) at 1. rewrite batch_in_range_app, andb_true_iff.
  tauto.
Qed.

Lemma queueCommand_inv e c s s' :
  queue_inv s -> cmd_in_range c = true ->
  queueCommand e c s = Some s' -> queue_inv s'.
Proof.
  intros [Hb Hq] Hc. unfold queueCommand.
  set (s1 := if wrap_u32 _ =? _ then _ else s).
  assert (Hi1 : commandQueueIndex s1 = commandQueueIndex s)
    by (subst s1; by destruct (_ =? _)).
  destruct (commandQueue s1) as [buf1|] eqn:Hbuf1; [|done].
  rewrite Hi1.
  destruct (Z.leb_spec 0 (commandQueueIndex s)) as [Hlo|]; [|done].
  destruct (Z.ltb_spec (commandQueueIndex s) (Z.of_nat (length buf1)))
    as [Hhi|]; [|done].
  simpl. intros [= <-].
  (* the cells below the index are the queue as it was *)
  assert (Hold : take (Z.to_nat (commandQueueIndex s)) buf1 = queued s).
  { unfold queued. unfold queue_bounded in Hb. subst s1.
    destruct (wrap_u32 _ =? _); simpl in Hbuf1.
    - unfold realloc in Hbuf1. destruct (alloc_ok e); [|done].
      injection Hbuf1 as <-.
      rewrite length_app, length_take, length_replicate in Hhi.
      destruct (commandQueue s) as [buf|]; simpl in *.
      + rewrite take_app_le by (rewrite length_take; lia).
        rewrite take_take. f_equal. lia.
      + replace (Z.to_nat (commandQueueIndex s)) with 0%nat by lia. done.
    - by rewrite Hbuf1. }
  set (i := Z.to_nat (commandQueueIndex s)) in *.
  assert (Hnew : batch_in_range (take (S i) (<[i := c]> buf1)) = true).
  { rewrite take_insert_snoc by lia.
    rewrite Hold, batch_in_range_app, Hq. simpl. by rewrite Hc. }
  pose proof (wrap_int_le (commandQueueIndex s + 1)) as Hw.
  split.
  - unfold queue_bounded. simpl. rewrite length_insert. lia.
  - unfold queued. simpl.
    replace (take (Z.to_nat (wrap_int (commandQueueIndex s + 1))) (<[i := c]> buf1))
      with (take (Z.to_nat (wrap_int (commandQueueIndex s + 1)))
              (take (S i) (<[i := c]> buf1)))
      by (rewrite take_take; f_equal; lia).
    by apply batch_in_range_take.
Qed.

Lemma queue_and_return_inv e c s s' :
  queue_inv s -> cmd_in_range c = true ->
  queue_and_return e c s = Return s' -> queue_inv s'.
Proof.
  unfold queue_and_return. intros Hs Hc.
  destruct (queueCommand e c s) as [s1|] eqn:Hq; [|done].
  intros [= <-]. by apply (queueCommand_inv e c s).
Qed.

Lemma same_settings_inv s s' : same_settings s s' -> queue_inv s -> queue_inv s'.
Proof.
  intros Hs [Hb Hq]. split.
  - unfold queue_bounded in *.
    destruct Hs as (_ & _ & _ & _ & _ & -> & _ & ->). done.
  - by rewrite (same_settings_queued s s').
Qed.

Lemma index_zero_inv s : commandQueueIndex s = 0 -> queue_inv s.
Proof.
  intros Hi. split.
  - unfold queue_bounded. rewrite Hi. destruct (commandQueue s); lia.
  - unfold queued. rewrite Hi. by destruct (commandQueue s).
Qed.

Lemma in_range_true lo hi x : lo <= x <= hi -> in_range lo hi x = true.
Proof. apply in_range_spec. Qed.

(** The command each call builds is in range, whatever its arguments. *)
Lemma midi_noteon_inv e args s s' :
  queue_inv s -> midi_noteon e args s = Return s' -> queue_inv s'.
Proof.
  intros Hs. unfold midi_noteon.
  destruct (_ || _); [done|]. destruct (negb _); [done|].
  rewrite !masked_arg.
  destruct (Z.eqb_spec (Z.land (luaL_checkinteger args 2) 0x7F) 0) as [|Hvel].
  { by intros [= <-]. }
  destruct (optional_channel _ _) as [ch|] eqn:Hch; [|done].
  apply queue_and_return_inv; [done|].
  unfold cmd_in_range. simpl.
  pose proof (land_0x7F_range (luaL_checkinteger args 1)).
  pose proof (land_0x7F_range (luaL_checkinteger args 2)).
  pose proof (optional_channel_range _ _ _ Hch).
  rewrite !in_range_true; [done|lia..].
Qed.

Lemma midi_noteoff_inv e args s s' :
  queue_inv s -> midi_noteoff e args s = Return s' -> queue_inv s'.
Proof.
  intros Hs. unfold midi_noteoff.
  destruct (_ || _); [done|]. destruct (negb _); [done|].
  rewrite !masked_arg.
  destruct (optional_channel _ _) as [ch|] eqn:Hch; [|done].
  apply queue_and_return_inv; [done|].
  unfold cmd_in_range. simpl.
  pose proof (land_0x7F_range (luaL_checkinteger args 1)).
  pose proof (optional_channel_range _ _ _ Hch).
  rewrite !in_range_true; [done|lia..].
Qed.

Lemma midi_noteonwithduration_inv e args s s' :
  queue_inv s -> midi_noteonwithduration e args s = Return s' -> queue_inv s'.
Proof.
  intros Hs. unfold midi_noteonwithduration.
  destruct (_ || _); [done|]. destruct (negb _); [done|].
  rewrite !masked_arg.
  destruct (Z.eqb_spec (Z.land (luaL_checkinteger args 2) 0x7F) 0) as [|Hvel].
  { by intros [= <-]. }
  destruct (Z.gtb_spec (wrap_int (luaL_checkinteger args 3)) 0) as [Hdur|]; simpl.
  2: { by intros [= <-]. }
  destruct (optional_channel _ _) as [ch|] eqn:Hch; [|done].
  apply queue_and_return_inv; [done|].
  unfold cmd_in_range. simpl.
  pose proof (land_0x7F_range (luaL_checkinteger args 1)).
  pose proof (land_0x7F_range (luaL_checkinteger args 2)).
  pose proof (optional_channel_range _ _ _ Hch).
  rewrite !in_range_true; [|lia..].
  simpl. by apply Z.ltb_lt.
Qed.

Lemma midi_CC_inv e args s s' :
  queue_inv s -> midi_CC e args s = Return s' -> queue_inv s'.
Proof.
  intros Hs. unfold midi_CC.
  destruct (_ || _); [done|]. destruct (negb _); [done|].
  rewrite !masked_arg.
  destruct (optional_channel _ _) as [ch|] eqn:Hch; [|done].
  apply queue_and_return_inv; [done|].
  unfold cmd_in_range, CC, value. simpl.
  pose proof (land_0x7F_range (luaL_checkinteger args 2)).
  pose proof (optional_channel_range _ _ _ Hch).
  rewrite !in_range_true; [done|lia| |lia].
  destruct (Z.ltb_spec (wrap_int (luaL_checkinteger args 1)) 0);
    [done|]. destruct (Z.gtb_spec (wrap_int (luaL_checkinteger args 1)) 119); lia.
Qed.

Lemma midi_pitchbend_inv e bend args s s' :
  queue_inv s -> midi_pitchbend e bend args s = Return s' -> queue_inv s'.
Proof.
  intros Hs. unfold midi_pitchbend.
  destruct (_ || _); [done|]. destruct (negb _); [done|].
  destruct (optional_channel _ _) as [ch|] eqn:Hch; [|done].
  destruct (bend_delta bend) as [delta14b|]; [|done].
  apply queue_and_return_inv; [done|].
  unfold cmd_in_range, MS7b, LS7b. simpl.
  pose proof (optional_channel_range _ _ _ Hch).
  rewrite !in_range_true; [done|apply land_0x7F_range..|lia].
Qed.

Lemma midi_allnotesoff_inv e args s s' :
  queue_inv s -> midi_allnotesoff e args s = Return s' -> queue_inv s'.
Proof.
  intros Hs. unfold midi_allnotesoff.
  destruct (_ >? _); [done|]. destruct (negb _); [done|].
  destruct (optional_channel _ _) as [ch|] eqn:Hch; [|done].
  apply queue_and_return_inv; [done|].
  unfold cmd_in_range. simpl.
  pose proof (optional_channel_range _ _ _ Hch).
  rewrite !in_range_true; [done|lia].
Qed.

Lemma midi_init_inv e s s' : midi_init e s = Return s' -> queue_inv s'.
Proof. unfold midi_init. intros [= <-]. by apply index_zero_inv. Qed.

Lemma midi_configuretiming_inv args s s' :
  queue_inv s -> midi_configuretiming args s = Return s' -> queue_inv s'.
Proof.
  intros Hs. unfold midi_configuretiming.
  destruct (_ || _); [done|]. intros [= <-].
  destruct Hs as [Hb Hq].
  split; unfold queue_bounded, queued in *;
    by destruct (lua_gettop args =? 2).
Qed.

Lemma midi_sendMessages_inv e s s' :
  midi_sendMessages e s = Return s' -> queue_inv s'.
Proof.
  unfold midi_sendMessages.
  destruct (negb _); [done|]. destruct (commandQueue s) as [buf|]; [|done].
  destruct (pass1 _ _ _) as [loc q1]. destruct (pass2 _ _ _) as [q2 delayed].
  destruct (_ && _); [done|]. intros [= <-]. by apply index_zero_inv.
Qed.

Lemma exec_inv e k s s' : queue_inv s -> exec e k s = Return s' -> queue_inv s'.
Proof.
  intros Hs. destruct k; simpl.
  - apply midi_init_inv.
  - by apply midi_configuretiming_inv.
  - by apply midi_noteon_inv.
  - by apply midi_noteoff_inv.
  - by apply midi_noteonwithduration_inv.
  - by apply midi_CC_inv.
  - by apply midi_pitchbend_inv.
  - by apply midi_allnotesoff_inv.
  - apply midi_sendMessages_inv.
  - intros [= <-]. apply (same_settings_inv s); [apply fire_settings | done].
Qed.

Lemma run_inv calls s s' : queue_inv s -> run calls s = Some s' -> queue_inv s'.
Proof.
  revert s. induction calls as [|[e k] rest IH]; intros s Hs; simpl.
  - by intros [= <-].
  - destruct (exec e k s) as [s1 | msg |] eqn:Hk; [|by apply IH|done].
    apply IH. by apply (exec_inv e k s).
Qed.

(** C9.  After any run of API calls and block runs from the load of the
    module, every command in the queue is in range: channel in [0,15], note
    in [0,127], velocity in [1,127] and duration positive for note-ons,
    controller in [0,119], value in [0,127], both pitch-bend fields in
    [0,127].  Every call that appends clamps or masks what it appends, so
    the scan never has to check. *)
Theorem queued_commands_in_range (calls : list (env * call)) (s : state) :
  run calls static_init = Some s ->
  Forall (fun c => cmd_in_range c = true) (queued s).
Proof.
  intros Hrun.
  assert (Hinv : queue_inv s).
  { apply (run_inv calls static_init); [|done]. by apply index_zero_inv. }
  destruct Hinv as [_ Hq]. unfold batch_in_range in Hq.
  apply Forall_forall. intros c Hc.
  rewrite forallb_forall in Hq. by apply Hq, list_elem_of_In.
Qed.

(** ** The calls *)

(** [MIDI.sendmessages()] in terms of the steps: it sends the immediate
    list, then schedules one block with the delayed list. *)
Lemma midi_sendMessages_flush (e : env) (s : state) :
  initcheck s = true ->
  queue_wf s = true ->
  let q2 := fst (coalesce (notePlaying s) (queued s)) in
  let delayed := snd (coalesce (notePlaying s) (queued s)) in
  if negb (alloc_ok e) && negb (bool_decide (delayed = []))
  then midi_sendMessages e s = Undefined
  else
    exists buf',
      let s3 := pass3 (immediateList q2) (set_commandQueue (Some buf') s) in
      midi_sendMessages e s =
        Return (set_commandQueueIndex 0
                  (dispatch_after (flush_delay (late_note_offset s))
                     (DelayedBlock delayed) s3)).
Proof.
  intros Hinit Hwf q2 delayed. subst q2 delayed.
  apply queue_wf_spec in Hwf as (buf & Hbuf & Hsize & Hidx).
  unfold midi_sendMessages, coalesce, queued. rewrite Hinit, Hbuf. simpl.
  rewrite length_take_le by lia. rewrite Z2Nat.id by lia.
  destruct (pass1 _ _ _) as [loc q1]. simpl.
  destruct (pass2 _ _ _) as [q2 delayed]. simpl.
  destruct (_ && _); [done|].
  eexists. rewrite pass3_immediateList.
  destruct (pass3_settings q2 (set_commandQueue (Some (q2 ++ drop (Z.to_nat (commandQueueIndex s)) buf)) s))
    as (_ & -> & _).
  done.
Qed.

Lemma silent_call_keeps_state (e : env) (s : state) (args : list Z) :
  Z.land (luaL_checkinteger args 2) 0x7F = 0 ->
  (forall s', midi_noteon e args s = Return s' -> s' = s) /\
  (forall s', midi_noteonwithduration e args s = Return s' -> s' = s) /\
  midi_noteon e args s <> Undefined /\
  midi_noteonwithduration e args s <> Undefined.
Proof.
  intros Hvel. unfold midi_noteon, midi_noteonwithduration.
  rewrite !masked_arg, Hvel. simpl.
  repeat split; intros; repeat destruct (_ || _); repeat destruct (negb _);
    congruence.
Qed.


(** ** Generations along a run *)

Lemma apply_events_app evs1 evs2 s :
  apply_events (evs1 ++ evs2) s = apply_events evs2 (apply_events evs1 s).
Proof. revert s. induction evs1 as [|ev rest IH]; intros s; simpl; auto. Qed.

Section RunGenerations.
Variables ch n : Z.

(** The generation after some events depends on the generation before
    them only. *)
Lemma apply_events_generation_ext evs s1 s2 :
  lastNoteIDs s1 ch n = lastNoteIDs s2 ch n ->
  lastNoteIDs (apply_events evs s1) ch n = lastNoteIDs (apply_events evs s2) ch n.
Proof.
  revert s1 s2. induction evs as [|ev rest IH]; intros s1 s2 Hs; simpl; [done|].
  apply IH. rewrite !apply_event_generation. by rewrite Hs.
Qed.

Lemma pass3_events q s : pass3 q s = apply_events (Sent <$> q) s.
Proof. revert s. induction q as [|c rest IH]; intros s; simpl; auto. Qed.

Lemma delayed_block_events q s : delayed_block q s = apply_events (SentDelayed <$> q) s.
Proof. revert s. induction q as [|c rest IH]; intros s; simpl; auto. Qed.

Lemma queueCommand_generation e c s s' :
  queueCommand e c s = Some s' -> lastNoteIDs s' = lastNoteIDs s.
Proof.
  unfold queueCommand.
  set (s1 := if wrap_u32 _ =? _ then _ else s).
  assert (H1 : lastNoteIDs s1 = lastNoteIDs s) by (subst s1; by destruct (_ =? _)).
  destruct (commandQueue s1); [|done]. destruct (_ && _); [|done].
  by intros [= <-].
Qed.

Lemma queue_and_return_generation e c s s' :
  queue_and_return e c s = Return s' -> lastNoteIDs s' = lastNoteIDs s.
Proof.
  unfold queue_and_return.
  destruct (queueCommand e c s) as [s1|] eqn:Hq; [|done].
  intros [= <-]. by apply (queueCommand_generation e c s).
Qed.

(** A call changes the generation of a note as its events do. *)
Lemma exec_generation e k s s' :
  exec e k s = Return s' ->
  lastNoteIDs s' ch n = lastNoteIDs (apply_events (call_events k s) s) ch n.
Proof.
  destruct k; simpl.
  - unfold midi_init. intros [= <-]. simpl. by repeat case_match.
  - unfold midi_configuretiming. destruct (_ || _); [done|].
    intros [= <-]. by destruct (lua_gettop args =? 2).
  - unfold midi_noteon. destruct (_ || _); [done|]. destruct (negb _); [done|].
    destruct (_ =? 0); [by intros [= <-]|].
    destruct (optional_channel _ _); [|done].
    intros H. by rewrite (queue_and_return_generation _ _ _ _ H).
  - unfold midi_noteoff. destruct (_ || _); [done|]. destruct (negb _); [done|].
    destruct (optional_channel _ _); [|done].
    intros H. by rewrite (queue_and_return_generation _ _ _ _ H).
  - unfold midi_noteonwithduration.
    destruct (_ || _); [done|]. destruct (negb _); [done|].
    destruct (_ =? 0); [by intros [= <-]|].
    destruct (negb _); [by intros [= <-]|].
    destruct (optional_channel _ _); [|done].
    intros H. by rewrite (queue_and_return_generation _ _ _ _ H).
  - unfold midi_CC. destruct (_ || _); [done|]. destruct (negb _); [done|].
    destruct (optional_channel _ _); [|done].
    intros H. by rewrite (queue_and_return_generation _ _ _ _ H).
  - unfold midi_pitchbend. destruct (_ || _); [done|]. destruct (negb _); [done|].
    destruct (optional_channel _ _); [|done].
    destruct (bend_delta _); [|done].
    intros H. by rewrite (queue_and_return_generation _ _ _ _ H).
  - unfold midi_allnotesoff. destruct (_ >? _); [done|]. destruct (negb _); [done|].
    destruct (optional_channel _ _); [|done].
    intros H. by rewrite (queue_and_return_generation _ _ _ _ H).
  - unfold midi_sendMessages, queued, coalesce.
    destruct (negb _); [done|]. destruct (commandQueue s) as [buf|]; [|done].
    rewrite (pass1_counters (notePlaying s) _ _ (commandQueueIndex s)).
    destruct (pass1 _ _ _) as [loc q1]. simpl.
    destruct (pass2 _ _ _) as [q2 delayed]. simpl.
    destruct (_ && _); [done|]. intros [= <-]. simpl.
    rewrite pass3_events. by apply apply_events_generation_ext.
  - intros [= <-]. unfold fire.
    destruct (timers s !! i) as [[d [ch' n' id | cmds]]|]; simpl; [| |done].
    + by rewrite !note_off_block_generation.
    + rewrite delayed_block_events. by apply apply_events_generation_ext.
Qed.

(** Along a run the generation of a note changes as the events of the run
    change it: by one, modulo 256, for every note-on sent for the note. *)
Lemma run_generation calls s s' :
  run calls s = Some s' ->
  lastNoteIDs s' ch n = lastNoteIDs (apply_events (run_events calls s) s) ch n.
Proof.
  revert s. induction calls as [|[e k] rest IH]; intros s; simpl.
  - by intros [= <-].
  - destruct (exec e k s) as [s1 | msg |] eqn:Hk; [|by apply IH|done].
    intros Hrun. rewrite (IH s1 Hrun), apply_events_app.
    apply apply_events_generation_ext.
    by apply (exec_generation e k s).
Qed.
End RunGenerations.

(** * The claims at concrete inputs *)

(** C4 at the note-off of [on_then_off]. *)
Lemma noteoff_never_invalidated_witness :
  (batch_in_range on_then_off = true /\
   on_then_off !! 1%nat = Some NoteOff_0_60 /\
   type NoteOff_0_60 = kNoteOff) /\
  fst (coalesce quiet on_then_off) !! 1%nat = Some NoteOff_0_60 /\
  NoteOff_0_60 ∈ immediateList (fst (coalesce quiet on_then_off)).
Proof.
  split; [by repeat split|].
  destruct (noteoff_never_invalidated quiet on_then_off 1 NoteOff_0_60
              eq_refl eq_refl eq_refl) as (_ & _ & _ & Hq & Hin & _).
  exact (conj Hq Hin).
Defined.

(** C3 as stated fails on its own scenario: the note-off is sent. *)
Lemma on_then_off_sends_noteoff :
  coalesce quiet on_then_off = ([set_type kInvalid NoteOn_0_60; NoteOff_0_60], []) /\
  immediateList (fst (coalesce quiet on_then_off)) = [NoteOff_0_60] /\
  immediateList (fst (coalesce quiet on_then_off)) <> [] /\
  received <$> run on_then_off_run static_init = Some [(0x80, 60, 100)].
Proof. repeat split; try done. Qed.

(** C2 on the scenario of the specification. *)
Lemma retrigger_split_witness :
  let np := only_playing 2 10 in
  (snd (pass1 np [NoteOn_2_10] (locals_init 1)) !! 0%nat = Some NoteOn_2_10 /\
   is_noteon NoteOn_2_10 = true /\
   np 2 10 = true) /\
  fst (coalesce np [NoteOn_2_10]) !! 0%nat = Some (set_type kNoteOff NoteOn_2_10) /\
  snd (coalesce np [NoteOn_2_10]) `sublist_of` [NoteOn_2_10] /\
  NoteOn_2_10 ∈ snd (coalesce np [NoteOn_2_10]).
Proof.
  intros np. split; [by repeat split|].
  destruct (retrigger_split np [NoteOn_2_10] 0 NoteOn_2_10
              eq_refl eq_refl eq_refl) as (_ & Hsub & _ & _ & Hin & _ & Hord).
  exact (conj Hsub (conj Hord Hin)).
Defined.

(** C1 as stated fails: a note-off sent by hand leaves the generation of
    the note where it was, so the timed block still sends its note-off;
    so do 256 note-ons. *)
Lemma explicit_noteoff_keeps_generation :
  let s1 := sendNoteOnWithDuration 0 60 100 4 (float_of_Z 0) static_init in
  let g := lastNoteIDs s1 0 60 in
  let s2 := apply_events [Sent NoteOff_0_60] s1 in
  let s3 := apply_events (replicate 256 (Sent NoteOn_0_60)) s1 in
  (notePlaying s2 0 60 = false /\
   lastNoteIDs s2 0 60 = g /\
   received (run_block (NoteOffBlock 0 60 g) s2) = received s2 ++ [(0x80, 60, 0)]) /\
  (lastNoteIDs s3 0 60 = g /\
   notePlaying (run_block (NoteOffBlock 0 60 g) s3) 0 60 = false) /\
  (fun s => (timers s !! 0%nat, lastNoteIDs s 0 60, received s)) <$>
    run timed_then_off_run static_init =
    Some (Some (mkTimer (Some 64000000) (NoteOffBlock 0 60 1)), 1,
          [(0x90, 60, 100); (0x80, 60, 100)]) /\
  received <$> run (timed_then_off_run ++ [(plain_env, TimerFires 0)]) static_init =
    Some [(0x90, 60, 100); (0x80, 60, 100); (0x80, 60, 0)].
Proof. repeat split; vm_compute; reflexivity. Qed.

(** C7 as stated fails: with a note-on delay longer than the duration the
    delay computed for the note-off is negative. *)
Lemma deferred_delay_negative :
  (fun s => (late_note_offset s, timers s !! 1%nat)) <$>
    run late_retrigger_run static_init =
    Some (double_of_Z 5,
          Some (mkTimer (Some 5000000)
                  (DelayedBlock [mkCommand kNoteOnWithDuration 0 60 100 1]))) /\
  timers <$> run (late_retrigger_run ++ [(plain_env, TimerFires 1)]) static_init =
    Some [mkTimer (Some 5000000) (DelayedBlock []);
          mkTimer (Some (-64000000)) (NoteOffBlock 0 60 2)] /\
  -64000000 < 0.
Proof. repeat split; vm_compute; reflexivity. Qed.

(** C7, amended, on [late_state]: a duration of 1 unit of 16 ms and a
    note-on delay of 5 ms give a delay of 1000000 * 16 * (1 - 5) ns. *)
Lemma deferred_noteoff_delay_witness :
  timers late_state !! 0%nat =
    Some (mkTimer (Some 5000000)
            (DelayedBlock [mkCommand kNoteOnWithDuration 0 60 100 1])) /\
  delta <$> timers (fire 0 late_state) = [Some (-64000000)] /\
  note_off_delay (duration_unit late_state) 1
    (float_of_double (late_note_offset late_state))
  = Some (1000000 * 16 * (1 - 5)).
Proof.
  split; [reflexivity|].
  pose proof (deferred_noteoff_delay late_state 0 (Some 5000000)
                [mkCommand kNoteOnWithDuration 0 60 100 1] eq_refl)
    as (Hdeltas & _ & Hexact).
  split; [exact Hdeltas|].
  apply (Hexact 16 5 (mkCommand kNoteOnWithDuration 0 60 100 1));
    vm_compute; reflexivity.
Defined.

(** The difference is taken in [float]: a duration of 2^24 and a note-on
    delay of 2^24 + 1, which as a [float] is 2^24, give a delay of 0 where
    the exact difference is negative; and a delay beyond the range of
    [int64_t] has no defined conversion. *)
Lemma note_off_delay_rounds :
  note_off_delay (double_of_Z 16) (2 ^ 24)
    (float_of_double (double_of_Z (2 ^ 24 + 1))) = Some 0 /\
  note_off_delay (double_of_Z 16) (2 ^ 24 + 1) (float_of_Z 0) =
    Some (1000000 * 16 * 2 ^ 24) /\
  note_off_delay (double_of_Z (2 ^ 40)) (2 ^ 30) (float_of_Z 0) = None.
Proof. repeat split; vm_compute; reflexivity. Qed.

(** C8 as stated fails: the capacity goes from 64 to 128 to 192 cells, by
    a fixed block and not by a fixed factor. *)
Lemma capacity_growth_not_geometric :
  ((fun s => (commandQueueIndex s, commandQueueAllocatedSize s)) <$>
     run (fill_run 64) static_init = Some (64, 64) /\
   (fun s => (commandQueueIndex s, commandQueueAllocatedSize s)) <$>
     run (fill_run 65) static_init = Some (65, 128) /\
   (fun s => (commandQueueIndex s, commandQueueAllocatedSize s)) <$>
     run (fill_run 128) static_init = Some (128, 128) /\
   (fun s => (commandQueueIndex s, commandQueueAllocatedSize s)) <$>
     run (fill_run 129) static_init = Some (129, 192)) /\
  ~ (exists p q : Z,
        0 < q /\
        forall e c s s',
          queue_wf s = true ->
          commandQueueIndex s = commandQueueAllocatedSize s ->
          queueCommand e c s = Some s' ->
          q * commandQueueAllocatedSize s' = p * commandQueueAllocatedSize s).
Proof.
  split; [repeat split; vm_compute; reflexivity|].
  intros (p & q & Hq & Hgrow).
  assert (H1 : exists s', queueCommand plain_env NoteOn_0_60 (full_queue 64) = Some s' /\
                 commandQueueAllocatedSize s' = 128)
    by (eexists; split; [vm_compute; reflexivity|reflexivity]).
  assert (H2 : exists s', queueCommand plain_env NoteOn_0_60 (full_queue 128) = Some s' /\
                 commandQueueAllocatedSize s' = 192)
    by (eexists; split; [vm_compute; reflexivity|reflexivity]).
  destruct H1 as (s1 & Hs1 & Hc1). destruct H2 as (s2 & Hs2 & Hc2).
  pose proof (Hgrow plain_env NoteOn_0_60 (full_queue 64) s1 eq_refl eq_refl Hs1) as E1.
  pose proof (Hgrow plain_env NoteOn_0_60 (full_queue 128) s2 eq_refl eq_refl Hs2) as E2.
  rewrite Hc1 in E1. rewrite Hc2 in E2.
  change (commandQueueAllocatedSize (full_queue 64)) with 64 in E1.
  change (commandQueueAllocatedSize (full_queue 128)) with 128 in E2.
  lia.
Qed.

(** C8, amended, on a full queue of 64 cells. *)
Lemma queueCommand_appends_witness :
  (queue_wf (full_queue 64) = true /\
   commandQueueIndex (full_queue 64) < 2 ^ 31 - 1) /\
  exists s',
    queueCommand plain_env NoteOff_0_60 (full_queue 64) = Some s' /\
    queued s' = queued (full_queue 64) ++ [NoteOff_0_60] /\
    commandQueueIndex s' = 65 /\
    commandQueueAllocatedSize s' = 128.
Proof.
  split; [by split|].
  destruct (queueCommand_appends plain_env NoteOff_0_60 (full_queue 64)
              eq_refl eq_refl) as (s' & Hs' & Hq & Hi & Hsize & _).
  exists s'. exact (conj Hs' (conj Hq (conj Hi Hsize))).
Defined.

(** C9 on calls whose arguments are far out of range. *)
Lemma queued_commands_in_range_witness :
  let s := default static_init (run wild_run static_init) in
  run wild_run static_init = Some s /\
  Forall (fun c => cmd_in_range c = true) (queued s).
Proof.
  intros s.
  assert (Hrun : run wild_run static_init = Some s) by (vm_compute; reflexivity).
  exact (conj Hrun (queued_commands_in_range wild_run s Hrun)).
Defined.



(** * Further properties *)

(** ** MIDI.notenumber *)

Lemma letter_note_range letter note :
  letter_note letter = Some note -> 0 <= note <= 11.
Proof.
  unfold letter_note. repeat case_match; intros [= <-]; lia.
Qed.

Lemma noteNumber_of_range noteString length :
  match noteNumber_of noteString length with
  | Results [] => True
  | Results [v] => 0 <= v <= 127
  | _ => False
  end.
Proof.
  unfold noteNumber_of.
  destruct (_ || _); [done|].
  destruct (letter_note _); [|done].
  repeat (case_match; simplify_eq; try done).
  all: match goal with H : (_ >? 127) || (_ <? 0) = false |- _ =>
         apply orb_false_iff in H as [Hhi Hlo] end.
  all: rewrite Z.gtb_ltb in Hhi; apply Z.ltb_ge in Hhi, Hlo; lia.
Qed.

(** X1.  [MIDI.notenumber] pushes nothing or one integer, and the integer
    is a MIDI note number, 0 to 127; it raises only when it is not given
    exactly one argument. *)
Theorem noteNumber_in_midi_range (signed_char : bool) (args : list (option string)) :
  match midi_noteNumber signed_char args with
  | Results [] => True
  | Results [v] => 0 <= v <= 127
  | Results _ => False
  | Raises _ => List.length args <> 1%nat
  end.
Proof.
  unfold midi_noteNumber.
  destruct (Z.eqb_spec (Z.of_nat (List.length args)) 1) as [Hn | Hn]; simpl.
  - destruct (args !! 0%nat) as [[noteString|]|]; [|done..].
    pose proof (noteNumber_of_range (char_at signed_char noteString)
                  (String.length noteString)) as Hrange.
    by destruct (noteNumber_of _ _) as [[|v [|w vs]]|].
  - lia.
Qed.

(** X2.  On a note name made of a letter in either case, an optional [#] or
    [b], an optional minus sign and one digit, [MIDI.notenumber] pushes
    12 * (2 + octave) + the place of the letter in the octave + the
    accidental (so C3 is 60 and C-2 is 0) when that is within 0 to 127, and
    nothing otherwise. *)
Theorem noteNumber_of_note_name (signed_char : bool) (letter : ascii) (place : Z)
    (a : accidental) (minus : bool) (d : nat) :
  (letter, place) ∈ note_letters ->
  (d <= 9)%nat ->
  midi_noteNumber signed_char [Some (note_name letter a minus d)] =
    let octave := if minus then - Z.of_nat d else Z.of_nat d in
    let v := 12 * (2 + octave) + place + accidental_shift a in
    if (0 <=? v) && (v <=? 127) then Results [v] else Results [].
Proof.
  intros Hletter Hd.
  assert (Hdigit : d ∈ seq 0 10) by (apply elem_of_seq; lia).
  clear Hd. revert Hletter Hdigit.
  unfold note_letters. simpl seq.
  rewrite !elem_of_cons, !elem_of_nil.
  intros Hletter Hdigit.
  repeat (destruct Hletter as [Hletter | Hletter]; [injection Hletter as -> ->|]);
    [..|done];
    (repeat (destruct Hdigit as [-> | Hdigit]); [..|done]);
    destruct signed_char, a, minus; vm_compute; reflexivity.
Qed.

Lemma char_code_same_byte a : same_byte (char_code true a) (char_code false a).
Proof.
  unfold same_byte, char_code. simpl.
  assert (Hb : 0 <= Z.of_N (N_of_ascii a) < 256).
  { pose proof (N_ascii_bounded a). lia. }
  destruct (Z.leb_spec 128 (Z.of_N (N_of_ascii a))); lia.
Qed.

Lemma char_at_same_byte noteString i :
  same_byte (char_at true noteString i) (char_at false noteString i).
Proof.
  unfold char_at. destruct (String.get i noteString).
  - apply char_code_same_byte.
  - left. lia.
Qed.

Lemma same_byte_eqb v u (a : ascii) :
  same_byte v u -> (N_of_ascii a < 128)%N -> (v =? lit a) = (u =? lit a).
Proof.
  unfold lit. intros [[Hu ->] | [Hu ->]] Ha; [done|].
  rewrite (proj2 (Z.eqb_neq _ _)), (proj2 (Z.eqb_neq _ _)) by lia. done.
Qed.

Lemma same_byte_letter_note v u : same_byte v u -> letter_note v = letter_note u.
Proof.
  intros H. unfold letter_note.
  by rewrite !(same_byte_eqb v u) by (done || (vm_compute; reflexivity)).
Qed.

Lemma same_byte_finalnote v u m note :
  same_byte v u -> m = 1 \/ m = -1 -> -1 <= note <= 12 ->
  (if (12 * (2 + m * (v - lit "0")) + note >? 127) ||
      (12 * (2 + m * (v - lit "0")) + note <? 0)
   then Results [] else Results [12 * (2 + m * (v - lit "0")) + note]) =
  (if (12 * (2 + m * (u - lit "0")) + note >? 127) ||
      (12 * (2 + m * (u - lit "0")) + note <? 0)
   then Results [] else Results [12 * (2 + m * (u - lit "0")) + note]).
Proof.
  intros [[Hu ->] | [Hu ->]] Hm Hnote; [done|].
  change (lit "0") with 48.
  rewrite !(proj2 (orb_true_iff _ _)); [done|..].
  - rewrite Z.gtb_ltb, !Z.ltb_lt. destruct Hm as [-> | ->]; lia.
  - rewrite Z.gtb_ltb, !Z.ltb_lt. destruct Hm as [-> | ->]; lia.
Qed.

(** Whether [char] is signed makes no difference to the function. *)
Lemma noteNumber_of_same_byte f g length :
  (forall i, same_byte (f i) (g i)) ->
  noteNumber_of f length = noteNumber_of g length.
Proof.
  intros Hfg. unfold noteNumber_of.
  destruct (_ || _); [done|].
  rewrite (same_byte_letter_note _ _ (Hfg 0%nat)).
  destruct (letter_note (g 0%nat)) as [note|] eqn:Hnote; [|done].
  apply letter_note_range in Hnote.
  repeat first
    [ match goal with
      | |- context [f ?i =? lit ?c] =>
          rewrite (same_byte_eqb (f i) (g i) c (Hfg i)) by (vm_compute; reflexivity)
      end
    | match goal with
      | |- context [if g ?i =? lit ?c then _ else _] =>
          destruct (g i =? lit c); cbv beta iota zeta
      | |- context [if (?a <=? ?b)%nat then _ else _] =>
          destruct (a <=? b)%nat; [reflexivity|]
      end ].
  all: apply same_byte_finalnote; [apply Hfg | lia | lia].
Qed.

(** X3.  The result of [MIDI.notenumber] is the same whether the compiler
    makes plain [char] signed or unsigned. *)
Theorem noteNumber_char_signedness (args : list (option string)) :
  midi_noteNumber true args = midi_noteNumber false args.
Proof.
  unfold midi_noteNumber. destruct (negb _); [done|].
  destruct (args !! 0%nat) as [[noteString|]|]; [|done..].
  apply noteNumber_of_same_byte. intros i. apply char_at_same_byte.
Qed.

(** The function reads the characters up to the octave character and none
    after it. *)
Lemma noteNumber_of_prefix f g (n m : nat) v :
  (forall i, (i < n)%nat -> g i = f i) ->
  (n <= m <= 4)%nat ->
  noteNumber_of f n = Results [v] ->
  noteNumber_of g m = Results [v].
Proof.
  intros Hfg Hnm.
  assert (Hn : n ∈ seq 0 5) by (apply elem_of_seq; lia).
  assert (Hm : m ∈ seq 0 5) by (apply elem_of_seq; lia).
  simpl seq in Hn, Hm. rewrite !elem_of_cons, !elem_of_nil in Hn, Hm.
  unfold noteNumber_of.
  destruct Hn as [-> | [-> | [-> | [-> | [-> | []]]]]];
    destruct Hm as [-> | [-> | [-> | [-> | [-> | []]]]]];
    try lia; try done; cbn [Nat.ltb Nat.leb orb];
    rewrite ?(Hfg 0%nat) by lia;
    (destruct (letter_note (f 0%nat)); [|done]);
    repeat first
      [ match goal with
        | |- context [g ?i =? lit ?c] => rewrite (Hfg i) by lia
        end
      | match goal with
        | |- context [if f ?i =? lit ?c then _ else _] =>
            destruct (f i =? lit c); cbv beta iota zeta; cbn [Nat.leb]
        end ]; try done;
    rewrite ?(Hfg 1%nat), ?(Hfg 2%nat), ?(Hfg 3%nat) by lia; done.
Qed.

Lemma string_length_append (s t : string) :
  String.length (String.append s t) = (String.length s + String.length t)%nat.
Proof. induction s as [|a s IH]; simpl; [done | by rewrite IH]. Qed.

(** X4.  Characters after the octave character are not looked at: a string
    for which [MIDI.notenumber] pushes a note still does so, with the same
    note, when anything is appended to it, as long as the whole is at most
    four characters long. *)
Theorem noteNumber_ignores_trailing (signed_char : bool) (noteString rest : string)
    (v : Z) :
  midi_noteNumber signed_char [Some noteString] = Results [v] ->
  (String.length (String.append noteString rest) <= 4)%nat ->
  midi_noteNumber signed_char [Some (String.append noteString rest)] = Results [v].
Proof.
  unfold midi_noteNumber. simpl. intros Hv Hlen.
  apply (noteNumber_of_prefix (char_at signed_char noteString) _
           (String.length noteString)); [| |done].
  - intros i Hi. unfold char_at.
    by rewrite <- (String.append_correct1 noteString rest i Hi).
  - rewrite string_length_append in *. lia.
Qed.

Lemma noteNumber_ignores_trailing_witness :
  (midi_noteNumber true [Some "C#3"%string] = Results [61] /\
   (String.length (String.append "C#3" "b") <= 4)%nat) /\
  midi_noteNumber true [Some "C#3b"%string] = Results [61].
Proof.
  assert (Hlen : (String.length (String.append "C#3" "b") <= 4)%nat)
    by (vm_compute; lia).
  split; [by split|].
  exact (noteNumber_ignores_trailing true "C#3" "b" 61 eq_refl Hlen).
Defined.

Lemma noteNumber_of_note_name_witness :
  (("G"%char, 7) ∈ note_letters /\ (8 <= 9)%nat) /\
  midi_noteNumber true [Some "G8"%string] = Results [127] /\
  midi_noteNumber true [Some "G#8"%string] = Results [].
Proof.
  assert (HG : ("G"%char, 7) ∈ note_letters)
    by (unfold note_letters; rewrite !elem_of_cons; tauto).
  assert (Hd : (8 <= 9)%nat) by lia.
  split; [by split|].
  exact (conj (noteNumber_of_note_name true "G" 7 Natural false 8 HG Hd)
           (noteNumber_of_note_name true "G" 7 Sharp false 8 HG Hd)).
Defined.

Lemma char_code_eqb_lit signed_char (o a : ascii) :
  (N_of_ascii a < 128)%N ->
  (char_code signed_char o =? lit a) = bool_decide (o = a).
Proof.
  intros Ha. unfold char_code, lit.
  pose proof (N_ascii_bounded o) as Ho.
  case_bool_decide as Hoa.
  - subst o. destruct signed_char; simpl.
    + rewrite (proj2 (Z.leb_gt _ _)) by lia. apply Z.eqb_refl.
    + apply Z.eqb_refl.
  - apply Z.eqb_neq. intros Heq. apply Hoa.
    rewrite <- (ascii_N_embedding o), <- (ascii_N_embedding a). f_equal.
    destruct (signed_char && _); lia.
Qed.

(** X5.  The octave character is not checked to be a digit: for a letter
    followed by any one character [o] other than [#], [b] and [-],
    [MIDI.notenumber] takes [o - '0'] as the octave, so that for instance
    the string C/ gives octave -1 and note 12. *)
Theorem noteNumber_octave_unchecked (signed_char : bool) (letter o : ascii)
    (place : Z) :
  (letter, place) ∈ note_letters ->
  o <> "#"%char -> o <> "b"%char -> o <> "-"%char ->
  midi_noteNumber signed_char [Some (String letter (String o EmptyString))] =
    let v := 12 * (2 + (char_code signed_char o - 48)) + place in
    if (0 <=? v) && (v <=? 127) then Results [v] else Results [].
Proof.
  intros Hletter Hsharp Hflat Hminus.
  unfold midi_noteNumber, noteNumber_of. simpl.
  assert (Hplace : letter_note (char_at signed_char (String letter (String o EmptyString)) 0)
                   = Some place).
  { revert Hletter. unfold note_letters.
    rewrite !elem_of_cons, !elem_of_nil. intros Hletter.
    repeat (destruct Hletter as [Hletter | Hletter];
            [injection Hletter as -> ->; by destruct signed_char|]).
    done. }
  rewrite Hplace.
  do 3 (change (char_at signed_char (String letter (String o EmptyString)) 1)
          with (char_code signed_char o);
        rewrite ?char_code_eqb_lit by (vm_compute; reflexivity);
        rewrite ?bool_decide_eq_false_2 by done;
        cbv beta iota zeta).
  change (char_at signed_char (String letter (String o EmptyString)) 1)
    with (char_code signed_char o).
  change (lit "0") with 48.
  rewrite Z.mul_1_l.
  set (v := 12 * (2 + (char_code signed_char o - 48)) + place).
  rewrite Z.gtb_ltb.
  destruct (Z.leb_spec 0 v), (Z.leb_spec v 127), (Z.ltb_spec 127 v),
    (Z.ltb_spec v 0); simpl; try lia; done.
Qed.

Lemma noteNumber_octave_unchecked_witness :
  (("C"%char, 0) ∈ note_letters /\
   "/"%char <> "#"%char /\ "/"%char <> "b"%char /\ "/"%char <> "-"%char) /\
  midi_noteNumber true [Some "C/"%string] = Results [12].
Proof.
  assert (HC : ("C"%char, 0) ∈ note_letters)
    by (unfold note_letters; rewrite !elem_of_cons; tauto).
  split; [by repeat split|].
  exact (noteNumber_octave_unchecked true "C" "/" 0 HC
           ltac:(discriminate) ltac:(discriminate) ltac:(discriminate)).
Defined.

(** ** More on steps 1 and 2 *)

Section LastWins.
Variable np : Z -> Z -> bool.

(** For a kind of command of which the scan keeps the last per key: [p]
    recognises the commands of the key and [bit] is their bit in the
    locals. *)
Variable p : command -> bool.
Variable bit : locals -> bool.
Hypothesis bit_step : forall c l, bit (fst (pass1_step np c l)) = bit l || p c.
Hypothesis sent_step : forall c l,
  filter (fun c' => p c' = true)
    (immediateList [substitute np (snd (pass1_step np c l))]) =
  if p c && negb (bit l) then [c] else [].

Lemma last_wins q l :
  filter (fun c' => p c' = true)
    (immediateList (substitute np <$> snd (pass1 np q l))) =
  if bit l then [] else option_list (last (filter (fun c' => p c' = true) q)).
Proof.
  induction q as [|c rest IH].
  - simpl. by destruct (bit l).
  - rewrite pass1_cons. simpl snd. rewrite fmap_cons, immediateList_cons.
    rewrite filter_app, IH, sent_step, (pass1_tracks np bit p bit_step).
    destruct (bit l); simpl.
    { by rewrite andb_false_r. }
    rewrite filter_cons.
    destruct (existsb p rest) eqn:Hrest; simpl.
    + rewrite andb_false_r. simpl.
      destruct (last_filter_existsb _ _ Hrest) as [y Hy].
      case_decide; [|done]. by rewrite last_cons, Hy.
    + rewrite andb_true_r, (filter_existsb_false _ _ Hrest). simpl.
      destruct (p c); [by rewrite decide_True | by rewrite decide_False].
Qed.
End LastWins.

Lemma pb_for_type ch c : pb_for ch c = true -> type c = kPitchBend.
Proof. unfold pb_for. rewrite andb_true_iff, bool_decide_eq_true. tauto. Qed.

Section PitchBends.
Variable np : Z -> Z -> bool.
Variable ch : Z.
Hypothesis Hch : 0 <= ch < 16.

Lemma step_pitchBends c l :
  bit_set (pitchBends (fst (pass1_step np c l))) ch =
    bit_set (pitchBends l) ch || pb_for ch c.
Proof.
  unfold pb_for.
  step_cases c; rewrite ?orb_false_r; try done.
  - destruct (Z.eqb_spec (channel c) ch) as [<- | Hne]; simpl;
      [by rewrite Ebit | by rewrite orb_false_r].
  - by rewrite bit_set_claim, (Z.eqb_sym (channel c) ch).
Qed.

Lemma pb_sent_step c l :
  filter (fun c' => pb_for ch c' = true)
    (immediateList [substitute np (snd (pass1_step np c l))]) =
  if pb_for ch c && negb (bit_set (pitchBends l) ch) then [c] else [].
Proof.
  assert (Hsingle : forall c', filter (fun c' => pb_for ch c' = true) [c'] =
                               if pb_for ch c' then [c'] else []).
  { intros c'. rewrite filter_cons, filter_nil.
    destruct (pb_for ch c'); [by rewrite decide_True | by rewrite decide_False]. }
  destruct (pb_for ch c) eqn:Hc; simpl.
  - pose proof (pb_for_type ch c Hc) as Ht.
    unfold pb_for in Hc. rewrite andb_true_iff, Z.eqb_eq in Hc.
    destruct Hc as [_ Hchan].
    unfold pass1_step, remove_me. rewrite Ht, Hchan.
    destruct (bit_set (pitchBends l) ch); simpl.
    + rewrite substitute_other by done. unfold immediateList.
      by rewrite filter_cons, decide_False by (simpl; tauto).
    + rewrite substitute_other by (unfold is_noteon; by rewrite Ht).
      unfold immediateList.
      rewrite filter_cons, decide_True by (by rewrite Ht).
      rewrite filter_nil, Hsingle. unfold pb_for.
      by rewrite Ht, Hchan, Z.eqb_refl.
  - unfold immediateList. rewrite filter_cons, filter_nil.
    case_decide; [|done]. rewrite Hsingle.
    set (c' := substitute np _).
    destruct (pb_for ch c') eqn:Hc'; [|done]. exfalso.
    pose proof (pb_for_type ch c' Hc') as Ht'.
    subst c'. unfold substitute in *.
    destruct (retrigger np _); [done|].
    destruct (step_kept_or_removed np c l) as [E | E]; rewrite E in *;
      [congruence | done].
Qed.
End PitchBends.

(** X6.  Pitch bends coalesce per channel as controller changes do per
    controller: of the pitch bends a batch of in-range commands holds for a
    channel, the immediate list holds the last one only, and step 3 sends
    it with [sendPitchBend] and its own two data bytes. *)
Theorem last_pitchbend_survives (np : Z -> Z -> bool) (q : list command) (ch : Z) :
  batch_in_range q = true ->
  (1 <= length (filter (fun c => pb_for ch c = true) q))%nat ->
  exists c : command,
    last (filter (fun c => pb_for ch c = true) q) = Some c /\
    filter (fun c => pb_for ch c = true) (immediateList (fst (coalesce np q)))
      = [c] /\
    (forall s, pass3_step c s = sendPitchBend ch (MS7b c) (LS7b c) s).
Proof.
  intros Hq HN.
  destruct (last (filter (fun c => pb_for ch c = true) q)) as [c|] eqn:Hlast.
  2: { apply last_None in Hlast. rewrite Hlast in HN. simpl in HN. lia. }
  exists c. split; [done|].
  assert (Hc : c ∈ filter (fun c => pb_for ch c = true) q).
  { apply last_Some in Hlast as [l' ->].
    apply elem_of_app. right. by apply list_elem_of_singleton. }
  apply list_elem_of_filter in Hc as [Hc Hin].
  pose proof (pb_for_type ch c Hc) as Ht.
  apply list_elem_of_lookup in Hin as [i Hi].
  pose proof (cmd_in_range_channel c (batch_in_range_lookup q i c Hq Hi)) as Hr.
  unfold pb_for in Hc. rewrite andb_true_iff, Z.eqb_eq in Hc.
  destruct Hc as [_ Hchan]. rewrite Hchan in Hr.
  split.
  - rewrite (coalesce_fst np q 0).
    rewrite (last_wins np (pb_for ch) (fun l => bit_set (pitchBends l) ch)
               (step_pitchBends np ch Hr) (pb_sent_step np ch Hr)).
    simpl. by rewrite bit_set_0, Hlast.
  - intros s. unfold pass3_step. by rewrite Ht, Hchan.
Qed.

Section NoteOns.
Variable np : Z -> Z -> bool.
Variables n ch : Z.
Hypothesis Hch : 0 <= ch < 16.

Lemma step_noteOns_kept c l :
  bit_set (noteOns l n) ch = true ->
  bit_set (noteOns (fst (pass1_step np c l)) n) ch = true.
Proof.
  intros Hl. step_cases c; try done; unfold upd;
    (destruct (Z.eqb_spec n (note c)) as [-> | Hne]; [|done]);
    by rewrite bit_set_claim, Hl.
Qed.

(** Once a note-on for the note would be removed, it stays so for the rest
    of the scan. *)
Lemma step_blocked_kept c l :
  blocked n ch l = true -> blocked n ch (fst (pass1_step np c l)) = true.
Proof.
  unfold blocked. rewrite !orb_true_iff. intros [[Hoff | Hon] | Hreset].
  - left. left. rewrite step_noteOffs by done. by rewrite Hoff.
  - left. right. by apply step_noteOns_kept.
  - right. rewrite step_notesReset by done. by rewrite Hreset.
Qed.

(** A note-on for the note is removed or claims the note: either way the
    next one before it is removed. *)
Lemma step_blocked_noteon c l :
  noteon_for n ch c = true -> blocked n ch (fst (pass1_step np c l)) = true.
Proof.
  unfold noteon_for, is_noteon. rewrite !andb_true_iff, !Z.eqb_eq.
  intros [[Hc <-] <-]. unfold blocked.
  step_cases c; try done; rewrite ?Ebit, ?Ebit0, ?Ebit1, ?orb_true_r; try done;
    unfold upd; by rewrite Z.eqb_refl, bit_set_claim, Z.eqb_refl, !orb_true_r.
Qed.

Lemma pass1_blocked q l :
  existsb (noteon_for n ch) q = true -> blocked n ch (fst (pass1 np q l)) = true.
Proof.
  induction q as [|c rest IH]; [done|]. simpl existsb.
  rewrite pass1_cons. simpl fst. intros Hq.
  destruct (noteon_for n ch c) eqn:Hc.
  - by apply step_blocked_noteon.
  - apply step_blocked_kept, IH. exact Hq.
Qed.
End NoteOns.

(** X7.  What the backward scan does to a note-on, decided by the entries
    behind it alone: in a batch of in-range commands a note-on (of either
    kind) is left as it is exactly when no later entry of the batch is a
    note-off or a note-on for the same note and channel or a reset of the
    channel; otherwise its type becomes [kInvalid], its other fields
    unchanged.  Whether the note is playing plays no part. *)
Theorem noteon_survives_iff (np : Z -> Z -> bool) (q : list command) (i : nat)
    (c : command) :
  batch_in_range q = true ->
  q !! i = Some c ->
  is_noteon c = true ->
  let behind := drop (S i) q in
  let alone :=
    negb (existsb (noteoff_for (note c) (channel c)) behind) &&
    negb (existsb (noteon_for (note c) (channel c)) behind) &&
    negb (existsb (reset_for (channel c)) behind) in
  snd (pass1 np q (locals_init (Z.of_nat (length q)))) !! i =
    Some (if alone then c else set_type kInvalid c).
Proof.
  intros Hq Hi Hon behind alone.
  pose proof (cmd_in_range_channel c (batch_in_range_lookup q i c Hq Hi)) as Hch.
  rewrite (pass1_lookup np q _ i c Hi). f_equal.
  subst alone. subst behind. set (behind := drop (S i) q).
  set (l := fst (pass1 np behind (locals_init (Z.of_nat (length q))))).
  assert (Hoff : bit_set (noteOffs l (note c)) (channel c) =
                 existsb (noteoff_for (note c) (channel c)) behind).
  { subst l. rewrite pass1_noteOffs by done. simpl. by rewrite bit_set_0. }
  assert (Hreset : bit_set (notesReset l) (channel c) =
                   existsb (reset_for (channel c)) behind).
  { subst l. rewrite pass1_notesReset by done. simpl. by rewrite bit_set_0. }
  assert (Hnone : existsb (noteon_for (note c) (channel c)) behind = false ->
                  bit_set (noteOns l (note c)) (channel c) = false).
  { intros Hons. subst l. apply pass1_noteOns; [done..|]. simpl.
    by rewrite bit_set_0. }
  assert (Hsome : existsb (noteon_for (note c) (channel c)) behind = true ->
                  blocked (note c) (channel c) l = true).
  { intros Hons. by apply pass1_blocked. }
  clearbody l.
  destruct (existsb (noteoff_for (note c) (channel c)) behind) eqn:Hoffs; simpl.
  { apply noteon_removed; [done | by left]. }
  destruct (existsb (reset_for (channel c)) behind) eqn:Hresets;
    [rewrite andb_false_r; apply noteon_removed; [done | by right]|].
  rewrite andb_true_r.
  destruct (existsb (noteon_for (note c) (channel c)) behind) eqn:Hons; simpl.
  - specialize (Hsome eq_refl). unfold blocked in Hsome.
    rewrite Hoff, Hreset, orb_false_r in Hsome. simpl in Hsome.
    unfold pass1_step, remove_me. unfold is_noteon in Hon.
    destruct (type c); try done; cbv zeta; by rewrite Hoff, Hsome.
  - apply noteon_kept; auto.
Qed.

Section Idempotence.
Variable np : Z -> Z -> bool.

Lemma step_again c l l' :
  same_masks l l' ->
  snd (pass1_step np (snd (pass1_step np c l)) l') = snd (pass1_step np c l) /\
  same_masks (fst (pass1_step np c l))
    (fst (pass1_step np (snd (pass1_step np c l)) l')).
Proof.
  destruct l, l'. unfold same_masks. simpl.
  intros (-> & -> & -> & -> & ->).
  step_cases c; unfold pass1_step; simpl;
    repeat match goal with H : type c = _ |- _ => rewrite H end;
    simpl; rewrite ?Ebit, ?Ebit0, ?Ebit1; by simpl.
Qed.

Lemma pass1_again q l l' :
  same_masks l l' ->
  snd (pass1 np (snd (pass1 np q l)) l') = snd (pass1 np q l) /\
  same_masks (fst (pass1 np q l)) (fst (pass1 np (snd (pass1 np q l)) l')).
Proof.
  intros Hl. induction q as [|c rest [IHq IHm]]; [done|].
  rewrite (pass1_cons np c rest l). cbn [fst snd].
  rewrite pass1_cons. cbn [fst snd]. rewrite IHq.
  destruct (step_again c _ _ IHm) as [Hc Hm].
  by rewrite Hc.
Qed.
End Idempotence.

(** X8.  The backward scan is idempotent: scanning a queue that has been
    scanned already changes no entry, whatever the counters start at.  The
    entries that survive a scan are those a second scan keeps. *)
Theorem pass1_idempotent (np : Z -> Z -> bool) (q : list command) (n n' : Z) :
  snd (pass1 np (snd (pass1 np q (locals_init n))) (locals_init n')) =
    snd (pass1 np q (locals_init n)).
Proof. by apply pass1_again. Qed.

Lemma substitute_retrigger np c :
  retrigger np c = true -> substitute np c = set_type kNoteOff c.
Proof. unfold substitute. by intros ->. Qed.

Lemma substitute_kept np c : retrigger np c = false -> substitute np c = c.
Proof. unfold substitute. by intros ->. Qed.

(** X9.  Step 2 loses no note-on and invents none: the note-ons it is
    given are, up to order, those it leaves in the queue followed by those
    it moves to the delayed list. *)
Theorem pass2_keeps_every_noteon (np : Z -> Z -> bool) (q : list command) :
  filter (fun c => is_noteon c = true) q ≡ₚ
    filter (fun c => is_noteon c = true) (fst (pass2 np q [])) ++ snd (pass2 np q []).
Proof.
  rewrite pass2_spec. simpl.
  induction q as [|c rest IH]; [done|].
  rewrite fmap_cons, !filter_cons.
  destruct (retrigger np c) eqn:Hr.
  - assert (Hon : is_noteon c = true)
      by (unfold retrigger in Hr; by apply andb_true_iff in Hr as [? _]).
    rewrite (substitute_retrigger np c Hr).
    rewrite (decide_True (P := is_noteon c = true)) by done.
    rewrite (decide_False (P := is_noteon (set_type kNoteOff c) = true)) by done.
    rewrite (decide_True (P := true = true)) by done.
    rewrite <- Permutation_middle. by constructor.
  - rewrite (substitute_kept np c Hr).
    rewrite (decide_False (P := false = true)) by done.
    case_decide; [|done]. simpl. by constructor.
Qed.

(** ** The delayed buffer and resets *)

(** X10.  The size of [delayedCommands].  The buffer gets as many cells as
    the backward scan counts in [laterNotes]: the surviving note-ons whose
    note is playing when step 1 reads the flag.  Step 2 stores as many
    commands as there are surviving note-ons whose note is playing when
    step 2 reads the flag.  The two numbers agree, and no store falls
    outside the buffer, if the flags read by step 2 are those read by
    step 1 for every surviving note-on; the source reads the global twice
    and takes no lock against the blocks that write it, so nothing else
    makes them agree. *)
Theorem delayed_buffer_exact (np1 np2 : Z -> Z -> bool) (q : list command)
    (n : Z) :
  let scanned := snd (pass1 np1 q (locals_init n)) in
  laterNotes (fst (pass1 np1 q (locals_init n))) =
    Z.of_nat (length (filter (fun c => retrigger np1 c = true) scanned)) /\
  length (snd (pass2 np2 scanned [])) =
    length (filter (fun c => retrigger np2 c = true) scanned) /\
  ((forall c, c ∈ scanned -> is_noteon c = true ->
      np2 (channel c) (note c) = np1 (channel c) (note c)) ->
   laterNotes (fst (pass1 np1 q (locals_init n))) =
     Z.of_nat (length (snd (pass2 np2 scanned [])))).
Proof.
  intros scanned.
  assert (H1 : laterNotes (fst (pass1 np1 q (locals_init n))) =
               Z.of_nat (length (filter (fun c => retrigger np1 c = true) scanned))).
  { rewrite pass1_laterNotes. simpl. subst scanned. lia. }
  assert (H2 : length (snd (pass2 np2 scanned [])) =
               length (filter (fun c => retrigger np2 c = true) scanned))
    by (by rewrite pass2_spec).
  split; [done|]. split; [done|].
  intros Hsame. rewrite H1, H2. do 2 f_equal.
  clear H1 H2. induction scanned as [|c rest IH]; [done|].
  rewrite !filter_cons.
  assert (Hc : retrigger np2 c = retrigger np1 c).
  { unfold retrigger. destruct (is_noteon c) eqn:Hon; [|done]. simpl.
    apply Hsame; [by left | done]. }
  rewrite Hc, IH; [done|].
  intros c' Hc'. apply Hsame. by right.
Qed.

Lemma pass3_app q1 q2 s : pass3 (q1 ++ q2) s = pass3 q2 (pass3 q1 s).
Proof. revert s. induction q1 as [|c rest IH]; intros s; [done|]. simpl. apply IH. Qed.

Section Silence.
Variable ch : Z.

(** Only a note-on for the channel flags one of its notes as playing. *)
Lemma pass3_step_silent c s :
  negb (is_noteon c && (channel c =? ch)) = true ->
  channel_silent ch s -> channel_silent ch (pass3_step c s).
Proof.
  intros Hc Hs n Hn. specialize (Hs n Hn).
  unfold pass3_step, is_noteon in *.
  destruct (type c); simpl in *; try done.
  - apply negb_true_iff in Hc. unfold upd2. by rewrite Z.eqb_sym, Hc.
  - apply negb_true_iff in Hc. unfold upd2. by rewrite Z.eqb_sym, Hc.
  - unfold upd2. by destruct (_ && _).
  - by destruct (_ && _).
Qed.

Lemma pass3_silent q s :
  forallb (fun c => negb (is_noteon c && (channel c =? ch))) q = true ->
  channel_silent ch s -> channel_silent ch (pass3 q s).
Proof.
  revert s. induction q as [|c rest IH]; intros s Hq Hs; [done|].
  simpl in *. apply andb_true_iff in Hq as [Hc Hrest].
  apply IH; [done|]. by apply pass3_step_silent.
Qed.

Lemma sendResetNotes_silent s : channel_silent ch (sendResetNotes ch s).
Proof.
  intros n Hn. unfold sendResetNotes. simpl.
  by rewrite Z.eqb_refl, (in_range_true 0 127 n Hn).
Qed.

End Silence.

(** Steps 1 and 2 turn no entry into a note-on. *)
Lemma coalesce_no_new_noteon np ch q :
  forallb (fun c => negb (is_noteon c && (channel c =? ch))) q = true ->
  forallb (fun c => negb (is_noteon c && (channel c =? ch)))
    (fst (coalesce np q)) = true.
Proof.
  intros Hq. rewrite (coalesce_fst np q 0).
  revert Hq. generalize (locals_init 0). induction q as [|c rest IH]; intros l Hq; [done|].
  rewrite pass1_cons. cbn [fst snd]. rewrite fmap_cons. simpl in Hq. simpl.
  apply andb_true_iff in Hq as [Hc Hrest]. rewrite IH by done.
  rewrite andb_true_r.
  destruct (step_kept_or_removed np c (fst (pass1 np rest l))) as [-> | ->].
  - unfold substitute. destruct (retrigger np c); [by unfold is_noteon | done].
  - by unfold is_noteon.
Qed.

(** X11.  [MIDI.allnotesoff] silences its channel at the flush: when a
    batch holds a reset for a channel and no note-on for the channel behind
    it, then after step 3 has sent the batch no note of the channel is
    flagged as playing, whatever was playing before and whatever else the
    batch holds. *)
Theorem reset_silences_channel (np : Z -> Z -> bool) (q : list command) (i : nat)
    (c : command) (s : state) :
  q !! i = Some c ->
  type c = kResetNotes ->
  existsb (fun c' => is_noteon c' && (channel c' =? channel c)) (drop (S i) q) = false ->
  channel_silent (channel c) (pass3 (fst (coalesce np q)) s).
Proof.
  intros Hi Ht Hbehind.
  assert (Hlen : (i < length q)%nat) by (by apply lookup_lt_Some in Hi).
  assert (Hc : fst (coalesce np q) !! i = Some c).
  { rewrite (coalesce_lookup np q i c Hi).
    unfold pass1_step. rewrite Ht. simpl.
    unfold substitute, retrigger, is_noteon. by rewrite Ht. }
  rewrite <- (take_drop_middle _ i c Hc), pass3_app. simpl.
  apply pass3_silent.
  - assert (Hd : drop (S i) (fst (coalesce np q)) = fst (coalesce np (drop (S i) q))).
    { apply list_eq. intros k. rewrite lookup_drop.
      apply (coalesce_drop np q (S i) k). }
    rewrite Hd. apply coalesce_no_new_noteon.
    clear -Hbehind. induction (drop (S i) q) as [|c' rest IH]; [done|].
    simpl in *. apply orb_false_iff in Hbehind as [-> Hrest]. simpl. by apply IH.
  - unfold pass3_step. rewrite Ht. apply sendResetNotes_silent.
Qed.

(** ** The calls, one by one *)

(** What [queueCommand] leaves alone. *)
Lemma queueCommand_frame e c s s' :
  queueCommand e c s = Some s' ->
  duration_unit s' = duration_unit s /\
  late_note_offset s' = late_note_offset s /\
  luaMIDIClient s' = luaMIDIClient s /\
  luaMIDIEndpoint s' = luaMIDIEndpoint s /\
  luaMIDIQueue s' = luaMIDIQueue s /\
  notePlaying s' = notePlaying s /\
  lastNoteIDs s' = lastNoteIDs s /\
  received s' = received s /\
  timers s' = timers s /\
  is_Some (commandQueue s').
Proof.
  unfold queueCommand.
  set (s1 := if wrap_u32 _ =? _ then _ else s).
  assert (H1 : duration_unit s1 = duration_unit s /\
               late_note_offset s1 = late_note_offset s /\
               luaMIDIClient s1 = luaMIDIClient s /\
               luaMIDIEndpoint s1 = luaMIDIEndpoint s /\
               luaMIDIQueue s1 = luaMIDIQueue s /\
               notePlaying s1 = notePlaying s /\
               lastNoteIDs s1 = lastNoteIDs s /\
               received s1 = received s /\
               timers s1 = timers s)
    by (subst s1; by destruct (_ =? _)).
  destruct (commandQueue s1); [|done]. destruct (_ && _); [|done].
  intros [= <-]. simpl. destruct H1 as (?&?&?&?&?&?&?&?&?).
  repeat split; done.
Qed.

(** With room in the [int] index and an allocator that answers,
    [queueCommand] appends. *)
Lemma queueCommand_ok e c s :
  queue_wf s = true ->
  commandQueueIndex s < 2 ^ 31 - 1 ->
  alloc_ok e = true ->
  exists s',
    queueCommand e c s = Some s' /\
    queued s' = queued s ++ [c] /\
    commandQueueIndex s' = commandQueueIndex s + 1 /\
    queue_wf s' = true.
Proof.
  intros Hwf Hmax Halloc.
  apply queue_wf_spec in Hwf as (buf & Hbuf & Hsize & Hidx).
  unfold queueCommand. rewrite wrap_u32_small by lia.
  destruct (Z.eqb_spec (commandQueueIndex s) (commandQueueAllocatedSize s))
    as [Hfull | Hroom]; simpl.
  - rewrite wrap_u32_small by (unfold CMD_BLOCK; lia).
    unfold realloc. rewrite Hbuf, Halloc. simpl.
    rewrite take_ge by (unfold CMD_BLOCK; lia).
    replace (Z.to_nat (commandQueueAllocatedSize s + CMD_BLOCK) - length buf)%nat
      with 64%nat by (unfold CMD_BLOCK; lia).
    assert (Hfresh : length (replicate 64 (uninit e)) = 64%nat)
      by apply length_replicate.
    revert Hfresh. generalize (replicate 64 (uninit e)). intros fresh Hfresh.
    rewrite length_app, Hfresh.
    rewrite (proj2 (Z.leb_le _ _)), (proj2 (Z.ltb_lt _ _)) by lia. simpl.
    eexists. split; [done|]. unfold queued. simpl. rewrite Hbuf.
    rewrite wrap_int_small by lia.
    replace (Z.to_nat (commandQueueIndex s + 1))
      with (S (Z.to_nat (commandQueueIndex s))) by lia.
    rewrite take_insert_snoc by (rewrite length_app; lia).
    repeat split.
    + f_equal. rewrite take_app_le by lia. done.
    + apply queue_wf_spec. eexists. simpl. split; [done|].
      rewrite length_insert, length_app, Hfresh.
      unfold CMD_BLOCK. lia.
  - rewrite Hbuf.
    rewrite (proj2 (Z.leb_le _ _)), (proj2 (Z.ltb_lt _ _)) by lia. simpl.
    eexists. split; [done|]. unfold queued. simpl. rewrite Hbuf.
    rewrite wrap_int_small by lia.
    replace (Z.to_nat (commandQueueIndex s + 1)) with (S (Z.to_nat (commandQueueIndex s))) by lia.
    rewrite take_insert_snoc by lia.
    repeat split.
    apply queue_wf_spec. eexists. simpl. split; [done|].
    rewrite length_insert. lia.
Qed.

(** The ways a queueing call ends: a Lua error; or, on an initialised
    module, a return with nothing done, the undefined decrement of the
    channel or conversion of the bend, or the append of one in-range
    command. *)
Lemma queueing_call_shape e k s :
  queueing k = true ->
  (exists msg, exec e k s = LuaError msg) \/
  initcheck s = true /\
  (exec e k s = Return s \/
   (exec e k s = Undefined /\ arith_defined k = false) \/
   exists c, cmd_in_range c = true /\ exec e k s = queue_and_return e c s).
Proof.
  destruct k; try done; intros _; simpl.
  - unfold midi_noteon.
    destruct (_ || _); [left; by eexists|].
    destruct (initcheck s); [|left; by eexists]. simpl. right. split; [done|].
    rewrite !masked_arg.
    destruct (Z.eqb_spec (Z.land (luaL_checkinteger args 2) 0x7F) 0) as [|Hvel];
      [by left|].
    destruct (optional_channel _ _) as [ch|] eqn:Hch; [|by right; left].
    right. right. eexists. split; [|done].
    unfold cmd_in_range. simpl.
    pose proof (land_0x7F_range (luaL_checkinteger args 1)).
    pose proof (land_0x7F_range (luaL_checkinteger args 2)).
    pose proof (optional_channel_range _ _ _ Hch).
    rewrite !in_range_true; [done|lia..].
  - unfold midi_noteoff.
    destruct (_ || _); [left; by eexists|].
    destruct (initcheck s); [|left; by eexists]. simpl. right. split; [done|].
    rewrite !masked_arg.
    destruct (optional_channel _ _) as [ch|] eqn:Hch; [|by right; left].
    right. right. eexists. split; [|done].
    unfold cmd_in_range. simpl.
    pose proof (land_0x7F_range (luaL_checkinteger args 1)).
    pose proof (optional_channel_range _ _ _ Hch).
    rewrite !in_range_true; [done|lia..].
  - unfold midi_noteonwithduration.
    destruct (_ || _); [left; by eexists|].
    destruct (initcheck s); [|left; by eexists]. simpl. right. split; [done|].
    rewrite !masked_arg.
    destruct (Z.eqb_spec (Z.land (luaL_checkinteger args 2) 0x7F) 0) as [|Hvel];
      [by left|].
    destruct (Z.gtb_spec (wrap_int (luaL_checkinteger args 3)) 0) as [Hdur|]; simpl;
      [|by left].
    destruct (optional_channel _ _) as [ch|] eqn:Hch; [|by right; left].
    right. right. eexists. split; [|done].
    unfold cmd_in_range. simpl.
    pose proof (land_0x7F_range (luaL_checkinteger args 1)).
    pose proof (land_0x7F_range (luaL_checkinteger args 2)).
    pose proof (optional_channel_range _ _ _ Hch).
    rewrite !in_range_true; [|lia..].
    simpl. by apply Z.ltb_lt.
  - unfold midi_CC.
    destruct (_ || _); [left; by eexists|].
    destruct (initcheck s); [|left; by eexists]. simpl. right. split; [done|].
    rewrite !masked_arg.
    destruct (optional_channel _ _) as [ch|] eqn:Hch; [|by right; left].
    right. right. eexists. split; [|done].
    unfold cmd_in_range, CC, value. simpl.
    pose proof (land_0x7F_range (luaL_checkinteger args 2)).
    pose proof (optional_channel_range _ _ _ Hch).
    rewrite !in_range_true; [done|lia| |lia].
    destruct (Z.ltb_spec (wrap_int (luaL_checkinteger args 1)) 0);
      [done|]. destruct (Z.gtb_spec (wrap_int (luaL_checkinteger args 1)) 119); lia.
  - unfold midi_pitchbend.
    destruct (_ || _); [left; by eexists|].
    destruct (initcheck s); [|left; by eexists]. simpl. right. split; [done|].
    destruct (optional_channel _ _) as [ch|] eqn:Hch; [|by right; left].
    destruct (bend_delta bend) as [delta14b|]; [|by right; left].
    right. right. eexists. split; [|done].
    unfold cmd_in_range, MS7b, LS7b. simpl.
    pose proof (optional_channel_range _ _ _ Hch).
    rewrite !in_range_true; [done|apply land_0x7F_range..|lia].
  - unfold midi_allnotesoff.
    destruct (_ >? _); [left; by eexists|].
    destruct (initcheck s); [|left; by eexists]. simpl. right. split; [done|].
    destruct (optional_channel _ _) as [ch|] eqn:Hch; [|by right; left].
    right. right. eexists. split; [|done].
    unfold cmd_in_range. simpl.
    pose proof (optional_channel_range _ _ _ Hch).
    rewrite !in_range_true; [done|lia].
Qed.

(** ** Initialisation *)

Lemma initcheck_spec s :
  initcheck s = true <->
  luaMIDIClient s <> 0 /\ luaMIDIEndpoint s <> 0 /\ luaMIDIQueue s <> 0 /\
  is_Some (commandQueue s).
Proof.
  unfold initcheck.
  rewrite !andb_true_iff, !negb_true_iff, !Z.eqb_neq, bool_decide_eq_true.
  tauto.
Qed.

(** Only [MIDI.init()] writes the handles, and only when all three are
    null. *)
Lemma exec_handles e k s s' :
  exec e k s = Return s' ->
  (luaMIDIClient s =? 0) && (luaMIDIEndpoint s =? 0) && (luaMIDIQueue s =? 0) = false ->
  luaMIDIClient s' = luaMIDIClient s /\
  luaMIDIEndpoint s' = luaMIDIEndpoint s /\
  luaMIDIQueue s' = luaMIDIQueue s.
Proof.
  intros Hk Hsome.
  destruct (queueing k) eqn:Hq.
  - destruct (queueing_call_shape e k s Hq) as [[msg Hm] | [_ [Hs | [[Hu _] | (c & _ & Hc)]]]].
    + congruence.
    + rewrite Hs in Hk. by injection Hk as <-.
    + congruence.
    + rewrite Hc in Hk. unfold queue_and_return in Hk.
      destruct (queueCommand e c s) as [s1|] eqn:Hq1; [|done].
      injection Hk as <-.
      by destruct (queueCommand_frame e c s s1 Hq1) as (_ & _ & ? & ? & ? & _).
  - destruct k; try done; simpl in Hk.
    + unfold midi_init in Hk. rewrite Hsome in Hk. injection Hk as <-.
      simpl. by destruct (commandQueue s).
    + unfold midi_configuretiming in Hk. destruct (_ || _); [done|].
      injection Hk as <-. by destruct (lua_gettop args =? 2).
    + unfold midi_sendMessages in Hk. destruct (negb _); [done|].
      destruct (commandQueue s) as [buf|]; [|done].
      destruct (pass1 _ _ _) as [loc q1]. destruct (pass2 _ _ _) as [q2 delayed].
      destruct (_ && _); [done|]. injection Hk as <-. simpl.
      by destruct (pass3_settings q2
                     (set_commandQueue
                        (Some (q2 ++ drop (Z.to_nat (commandQueueIndex s)) buf)) s))
        as (_ & _ & ? & ? & ? & _).
    + injection Hk as <-.
      by destruct (fire_settings i s) as (_ & _ & ? & ? & ? & _).
Qed.

(** No call frees the queue buffer. *)
Lemma exec_buffer e k s s' :
  exec e k s = Return s' -> is_Some (commandQueue s) -> is_Some (commandQueue s').
Proof.
  intros Hk Hbuf.
  destruct (queueing k) eqn:Hq.
  - destruct (queueing_call_shape e k s Hq) as [[msg Hm] | [_ [Hs | [[Hu _] | (c & _ & Hc)]]]].
    + congruence.
    + rewrite Hs in Hk. by injection Hk as <-.
    + congruence.
    + rewrite Hc in Hk. unfold queue_and_return in Hk.
      destruct (queueCommand e c s) as [s1|] eqn:Hq1; [|done].
      injection Hk as <-.
      by destruct (queueCommand_frame e c s s1 Hq1) as (_&_&_&_&_&_&_&_&_&?).
  - destruct k; try done; simpl in Hk.
    + unfold midi_init in Hk. injection Hk as <-. destruct Hbuf as [buf Hbuf].
      simpl.
      destruct ((luaMIDIClient s =? 0) && _ && _); simpl; by rewrite Hbuf.
    + unfold midi_configuretiming in Hk. destruct (_ || _); [done|].
      injection Hk as <-. by destruct (lua_gettop args =? 2).
    + unfold midi_sendMessages in Hk. destruct (negb _); [done|].
      destruct (commandQueue s) as [buf|]; [|done].
      destruct (pass1 _ _ _) as [loc q1]. destruct (pass2 _ _ _) as [q2 delayed].
      destruct (_ && _); [done|]. injection Hk as <-. simpl.
      destruct (pass3_settings q2
                     (set_commandQueue
                        (Some (q2 ++ drop (Z.to_nat (commandQueueIndex s)) buf)) s))
        as (_ & _ & _ & _ & _ & -> & _). by eexists.
    + injection Hk as <-.
      by destruct (fire_settings i s) as (_ & _ & _ & _ & _ & -> & _).
Qed.

Lemma exec_initcheck e k s s' :
  initcheck s = true -> exec e k s = Return s' -> initcheck s' = true.
Proof.
  intros Hinit Hk. apply initcheck_spec in Hinit as (Hc & He & Hq & Hbuf).
  apply initcheck_spec.
  destruct (exec_handles e k s s' Hk) as (-> & -> & ->).
  { apply andb_false_iff. left. apply andb_false_iff. left. by apply Z.eqb_neq. }
  repeat split; try done. by apply (exec_buffer e k s).
Qed.

(** X12.  Once initialised, always initialised: after [MIDI.init()] has
    succeeded no call and no block makes [initcheck] fail again, so no
    later call raises the "Must call MIDI.init()" error. *)
Theorem initialised_for_good (calls : list (env * call)) (s s' : state) :
  initcheck s = true -> run calls s = Some s' -> initcheck s' = true.
Proof.
  revert s. induction calls as [|[e k] rest IH]; intros s Hs; simpl.
  - by intros [= <-].
  - destruct (exec e k s) as [s1 | msg |] eqn:Hk; [|by apply IH|done].
    apply IH. by apply (exec_initcheck e k s).
Qed.

Lemma exec_partial e k s s' :
  handles_partial s = true -> exec e k s = Return s' -> handles_partial s' = true.
Proof.
  unfold handles_partial. intros Hp Hk.
  apply andb_true_iff in Hp as [Hsome Hnull]. apply negb_true_iff in Hsome.
  destruct (exec_handles e k s s' Hk Hsome) as (-> & -> & ->).
  by rewrite Hsome, Hnull.
Qed.

Lemma partial_not_initialised s : handles_partial s = true -> initcheck s = false.
Proof.
  unfold handles_partial, initcheck. intros Hp.
  apply andb_true_iff in Hp as [_ Hnull].
  destruct (luaMIDIClient s =? 0), (luaMIDIEndpoint s =? 0), (luaMIDIQueue s =? 0);
    done.
Qed.

(** X13.  A [MIDI.init()] that obtained some of its three handles but not
    all is never repaired: the creation is retried only when all three
    handles are null, so from such a state every run, further calls of
    [MIDI.init()] included, ends in a state where [initcheck] fails, and
    every queueing call and every flush keeps raising the Lua error. *)
Theorem partial_init_is_final (calls : list (env * call)) (s s' : state) :
  handles_partial s = true -> run calls s = Some s' ->
  handles_partial s' = true /\ initcheck s' = false.
Proof.
  intros Hp Hrun.
  assert (Hp' : handles_partial s' = true).
  { revert s Hp Hrun. induction calls as [|[e k] rest IH]; intros s Hs; simpl.
    - by intros [= <-].
    - destruct (exec e k s) as [s1 | msg |] eqn:Hk; [|by apply IH|done].
      apply IH. by apply (exec_partial e k s). }
  split; [done|]. by apply partial_not_initialised.
Qed.

(** X14.  Before [MIDI.init()] has succeeded, each of the six queueing
    calls and [MIDI.sendmessages()] raises a Lua error, whatever its
    arguments: none of them returns and none reaches the queue. *)
Theorem uninitialised_calls_raise (e : env) (k : call) (s : state) :
  initcheck s = false ->
  queueing k = true \/ k = SendMessages ->
  exists msg, exec e k s = LuaError msg.
Proof.
  intros Hinit [Hq | ->].
  - destruct (queueing_call_shape e k s Hq) as [Hm | [Ht _]]; [done|congruence].
  - simpl. unfold midi_sendMessages. rewrite Hinit. simpl. by eexists.
Qed.

(** ** Defined behaviour *)




(** ** Delays that have a value *)


















(** ** What goes out on the wire *)

Lemma packet_ok_intro b0 b1 b2 :
  0 <= b1 <= 127 -> 0 <= b2 <= 127 ->
  0x80 <= b0 <= 0x8F \/ (0x90 <= b0 <= 0x9F /\ 1 <= b2) \/
    (0xB0 <= b0 <= 0xBF /\ b1 <= 119) \/ 0xE0 <= b0 <= 0xEF ->
  packet_ok (bytes b0 b1 b2) = true.
Proof.
  intros H1 H2 H0. unfold bytes, wrap_u8. change (2 ^ 8) with 256.
  rewrite !Z.mod_small by lia.
  unfold packet_ok.
  rewrite !andb_true_iff, !orb_true_iff, !andb_true_iff, !in_range_spec, !Z.leb_le.
  lia.
Qed.

Ltac ranges Hc Ty :=
  unfold cmd_in_range, CC, value, MS7b, LS7b in Hc; rewrite Ty in Hc;
  rewrite ?andb_true_iff, ?in_range_spec, ?Z.ltb_lt in Hc.

Lemma sent_ok s p :
  wire_ok s -> packet_ok p = true -> Forall (fun p => packet_ok p = true) (received s ++ [p]).
Proof. intros [_ Hr] Hp. apply Forall_app. split; [done|]. by repeat constructor. Qed.

Lemma pass3_step_wire c s :
  cmd_in_range c = true -> wire_ok s -> wire_ok (pass3_step c s).
Proof.
  intros Hc Hs. pose proof Hs as [Ht Hr].
  unfold pass3_step, CC, value, MS7b, LS7b. destruct (type c) eqn:Ty; ranges Hc Ty.
  - done.
  - split; [done|]. apply (sent_ok s); [done|]. apply packet_ok_intro; lia.
  - split.
    + apply Forall_app. split; [done|]. repeat constructor. simpl.
      rewrite !in_range_true; [done | lia | lia].
    + apply (sent_ok s); [done|]. apply packet_ok_intro; lia.
  - split; [done|]. apply (sent_ok s); [done|]. apply packet_ok_intro; lia.
  - split; [done|]. apply (sent_ok s); [done|]. apply packet_ok_intro; lia.
  - split; [done|]. apply (sent_ok s); [done|]. apply packet_ok_intro; lia.
  - split; [done|]. simpl. apply Forall_app. split; [done|].
    apply Forall_fmap, Forall_forall. intros n Hn. simpl.
    apply list_elem_of_filter in Hn as [_ Hn]. apply elem_of_seqZ in Hn.
    apply packet_ok_intro; lia.
Qed.

Lemma delayed_step_wire c s :
  cmd_in_range c = true -> wire_ok s -> wire_ok (delayed_step c s).
Proof.
  intros Hc Hs. pose proof Hs as [Ht Hr].
  unfold delayed_step. destruct (type c) eqn:Ty; ranges Hc Ty; try done.
  - split; [done|]. apply (sent_ok s); [done|]. apply packet_ok_intro; lia.
  - split.
    + apply Forall_app. split; [done|]. repeat constructor. simpl.
      rewrite !in_range_true; [done | lia | lia].
    + apply (sent_ok s); [done|]. apply packet_ok_intro; lia.
Qed.

Lemma note_off_block_wire ch n id s :
  in_range 0 15 ch && in_range 0 127 n = true ->
  wire_ok s -> wire_ok (note_off_block ch n id s).
Proof.
  rewrite andb_true_iff, !in_range_spec. intros Hc Hs. unfold note_off_block.
  destruct (_ =? _); [|done]. destruct Hs as [Ht Hr].
  split; [done|]. apply (sent_ok s); [done|]. apply packet_ok_intro; lia.
Qed.

Lemma pass3_wire q s :
  batch_in_range q = true -> wire_ok s -> wire_ok (pass3 q s).
Proof.
  revert s. induction q as [|c rest IH]; intros s Hq Hs; [done|].
  simpl in *. apply andb_true_iff in Hq as [Hc Hrest].
  apply IH; [done|]. by apply pass3_step_wire.
Qed.

Lemma delayed_block_wire q s :
  batch_in_range q = true -> wire_ok s -> wire_ok (delayed_block q s).
Proof.
  revert s. induction q as [|c rest IH]; intros s Hq Hs; [done|].
  simpl in *. apply andb_true_iff in Hq as [Hc Hrest].
  apply IH; [done|]. by apply delayed_step_wire.
Qed.

(** Steps 1 and 2 keep the entries in range. *)
Lemma removed_in_range c :
  cmd_in_range c = true -> cmd_in_range (set_type kInvalid c) = true.
Proof.
  unfold cmd_in_range. simpl. rewrite !andb_true_iff. by intros [-> _].
Qed.

Lemma substitute_in_range np c :
  cmd_in_range c = true -> cmd_in_range (substitute np c) = true.
Proof.
  intros Hc. unfold substitute, retrigger, is_noteon.
  destruct (type c) eqn:Ty; simpl; try done; destruct (np _ _); try done;
    ranges Hc Ty; unfold cmd_in_range; simpl; rewrite !in_range_true; done || lia.
Qed.

Lemma pass1_in_range np q l :
  batch_in_range q = true -> batch_in_range (snd (pass1 np q l)) = true.
Proof.
  induction q as [|c rest IH]; [done|]. intros Hq.
  rewrite pass1_cons. cbn [fst snd]. simpl in Hq.
  apply andb_true_iff in Hq as [Hc Hrest]. simpl. rewrite IH by done.
  rewrite andb_true_r.
  destruct (step_kept_or_removed np c (fst (pass1 np rest l))) as [-> | ->];
    [done | by apply removed_in_range].
Qed.

Lemma pass2_in_range np q :
  batch_in_range q = true ->
  batch_in_range (fst (pass2 np q [])) = true /\
  batch_in_range (snd (pass2 np q [])) = true.
Proof.
  intros Hq. rewrite pass2_spec. simpl. unfold batch_in_range in *.
  rewrite forallb_forall in Hq. split; apply forallb_forall; intros c Hc.
  - apply list_elem_of_In, list_elem_of_fmap in Hc as (c0 & -> & Hc0).
    apply substitute_in_range, Hq. by apply list_elem_of_In.
  - apply list_elem_of_In, list_elem_of_filter in Hc as [_ Hc].
    apply Hq. by apply list_elem_of_In.
Qed.

Lemma midi_sendMessages_wire e s s' :
  wire_inv s -> midi_sendMessages e s = Return s' -> wire_ok s'.
Proof.
  intros [[_ Hq] Hs]. unfold midi_sendMessages, queued in *.
  destruct (negb _); [done|]. destruct (commandQueue s) as [buf|]; [|done].
  pose proof (pass1_in_range (notePlaying s) _ (locals_init (commandQueueIndex s)) Hq)
    as H1.
  destruct (pass1 _ _ _) as [loc q1]. simpl in H1.
  destruct (pass2_in_range (notePlaying s) q1 H1) as [H2 Hd].
  destruct (pass2 _ _ _) as [q2 delayed]. simpl in H2, Hd.
  destruct (_ && _); [done|]. intros [= <-].
  set (s0 := set_commandQueue _ s).
  assert (H3 : wire_ok (pass3 q2 s0)) by (by apply pass3_wire).
  destruct H3 as [Ht Hr]. split; simpl; [|done].
  apply Forall_app. split; [done|]. by repeat constructor.
Qed.

Lemma fire_wire i s : wire_ok s -> wire_ok (fire i s).
Proof.
  intros Hs. pose proof Hs as [Ht Hr]. unfold fire.
  destruct (timers s !! i) as [t|] eqn:Hi; [|done].
  pose proof (proj1 (Forall_lookup _ _) Ht i t Hi) as Hb. cbv beta in Hb.
  assert (H0 : wire_ok (set_timers (delete i (timers s)) s)).
  { split; [|done]. simpl. by apply Forall_delete. }
  destruct (body t) as [ch n id | cmds]; cbn [block_ok] in Hb; cbn [run_block].
  - by apply note_off_block_wire.
  - by apply delayed_block_wire.
Qed.

Lemma exec_wire e k s s' : wire_inv s -> exec e k s = Return s' -> wire_inv s'.
Proof.
  intros Hs Hk. pose proof Hs as [Hq Hw].
  split; [by apply (exec_inv e k s)|].
  destruct (queueing k) eqn:Hqk.
  - destruct (queueing_call_shape e k s Hqk) as [[msg Hm] | [_ [Hsame | [[Hu _] | (c & _ & Hc)]]]].
    + congruence.
    + rewrite Hsame in Hk. by injection Hk as <-.
    + congruence.
    + rewrite Hc in Hk. unfold queue_and_return in Hk.
      destruct (queueCommand e c s) as [s1|] eqn:Hq1; [|done].
      injection Hk as <-.
      destruct (queueCommand_frame e c s s1 Hq1) as (_&_&_&_&_&_&_&Hr&Ht&_).
      unfold wire_ok. by rewrite Hr, Ht.
  - destruct k; try done; simpl in Hk.
    + unfold midi_init in Hk. injection Hk as <-. unfold wire_ok.
      destruct ((luaMIDIClient s =? 0) && (luaMIDIEndpoint s =? 0) &&
                (luaMIDIQueue s =? 0)); simpl; by destruct (commandQueue s).
    + unfold midi_configuretiming in Hk. destruct (_ || _); [done|].
      injection Hk as <-. by destruct (lua_gettop args =? 2).
    + by apply (midi_sendMessages_wire e s).
    + injection Hk as <-. by apply fire_wire.
Qed.

(** X16.  Whatever the arguments of the calls and whenever the blocks run,
    every message the module hands to CoreMIDI is a well-formed channel
    message: a note-off, a note-on with a velocity of 1 at least, a
    controller change with a controller number of 119 at most, or a pitch
    bend, on one of the 16 channels and with data bytes of seven bits.  No
    status byte is corrupted by a channel out of range and no note-on with
    velocity 0 is sent. *)
Theorem sent_messages_well_formed (calls : list (env * call)) (s : state) :
  run calls static_init = Some s ->
  Forall (fun p => packet_ok p = true) (received s).
Proof.
  assert (Hgen : forall s0, wire_inv s0 -> run calls s0 = Some s -> wire_inv s).
  { induction calls as [|[e k] rest IH]; intros s0 Hs0; simpl.
    - by intros [= <-].
    - destruct (exec e k s0) as [s1 | msg |] eqn:Hk; [|by apply IH|done].
      apply IH. by apply (exec_wire e k s0). }
  intros Hrun.
  destruct (Hgen static_init) as (_ & _ & Hr); [|done|done].
  split; [by apply index_zero_inv | by split; constructor].
Qed.

(** ** From a call to the wire *)

Lemma pass1_single np c n : snd (pass1 np [c] (locals_init n)) = [c].
Proof.
  simpl. unfold pass1_step. destruct (type c); simpl; by rewrite ?bit_set_0.
Qed.

Lemma coalesce_single np c :
  coalesce np [c] =
    ([substitute np c], if retrigger np c then [c] else []).
Proof.
  unfold coalesce. rewrite pass1_single, pass2_spec. simpl.
  rewrite filter_cons, filter_nil. by destruct (retrigger np c).
Qed.

Lemma initcheck_frame s s' :
  luaMIDIClient s' = luaMIDIClient s -> luaMIDIEndpoint s' = luaMIDIEndpoint s ->
  luaMIDIQueue s' = luaMIDIQueue s -> is_Some (commandQueue s') ->
  initcheck s = true -> initcheck s' = true.
Proof.
  intros Hc He Hq Hb. rewrite !initcheck_spec, Hc, He, Hq. tauto.
Qed.

(** One command appended to an empty queue, then the flush. *)
Lemma call_then_flush e e' c s :
  initcheck s = true -> queue_wf s = true -> commandQueueIndex s = 0 ->
  alloc_ok e = true -> alloc_ok e' = true ->
  exists s1 buf',
    queue_and_return e c s = Return s1 /\
    notePlaying s1 = notePlaying s /\ lastNoteIDs s1 = lastNoteIDs s /\
    received s1 = received s /\ timers s1 = timers s /\
    duration_unit s1 = duration_unit s /\
    midi_sendMessages e' s1 =
      Return (set_commandQueueIndex 0
                (dispatch_after (flush_delay (late_note_offset s))
                   (DelayedBlock (if retrigger (notePlaying s) c then [c] else []))
                   (pass3_step (substitute (notePlaying s) c)
                      (set_commandQueue (Some buf') s1)))).
Proof.
  intros Hinit Hwf Hidx Halloc Halloc'.
  destruct (queueCommand_ok e c s Hwf) as (s1 & Hq1 & Hqueued & Hidx1 & Hwf1);
    [rewrite Hidx; reflexivity | done |].
  destruct (queueCommand_frame e c s s1 Hq1)
    as (Hdu & Hlno & Hc & He & Hq & Hnp & Hids & Hr & Ht & Hb).
  assert (Hinit1 : initcheck s1 = true) by (by apply (initcheck_frame s)).
  assert (Hqueued1 : queued s1 = [c]).
  { rewrite Hqueued. unfold queued. rewrite Hidx. by destruct (commandQueue s). }
  pose proof (midi_sendMessages_flush e' s1 Hinit1 Hwf1) as Hflush.
  cbv zeta in Hflush. rewrite Hqueued1, coalesce_single, Halloc' in Hflush.
  simpl in Hflush. destruct Hflush as (buf' & Hflush).
  exists s1, buf'. unfold queue_and_return. rewrite Hq1.
  repeat split; try done.
  rewrite Hflush, Hnp, Hlno. unfold immediateList. rewrite filter_cons, filter_nil.
  case_decide as Hty; [done|].
  destruct (decide (type (substitute (notePlaying s) c) = kInvalid)) as [Hi | Hi];
    [|done].
  simpl. by rewrite (pass3_step_invalid _ _ Hi).
Qed.

Lemma bytes_small b0 b1 b2 :
  0 <= b0 < 256 -> 0 <= b1 < 256 -> 0 <= b2 < 256 -> bytes b0 b1 b2 = (b0, b1, b2).
Proof.
  intros H0 H1 H2. unfold bytes, wrap_u8. change (2 ^ 8) with 256.
  by rewrite !Z.mod_small by lia.
Qed.

(** The channel a call takes when its channel argument is not [INT_MIN]
    as an [int]: the argument as an [int], less one, clamped to 0..15; and
    channel 0 when the argument is absent. *)
Lemma optional_channel_spec given x :
  (given = true -> wrap_int x <> - 2 ^ 31) ->
  optional_channel given x =
    Some (if given then Z.max 0 (Z.min 15 (wrap_int x - 1)) else 0).
Proof.
  unfold optional_channel, channel_arg. destruct given; [|done]. intros Hx.
  destruct (Z.eqb_spec (wrap_int x) (- 2 ^ 31)); [by destruct Hx|].
  f_equal. destruct (Z.ltb_spec (wrap_int x - 1) 0).
  - simpl. lia.
  - destruct (Z.gtb_spec (wrap_int x - 1) 15); lia.
Qed.

(** X17.  A note-on from the call to the wire.  On an initialised module
    with an empty queue, [MIDI.noteon(note, vel, [channel])] with a
    velocity that does not mask to 0, followed by [MIDI.sendmessages()]:
    the note is [note] masked to seven bits (not clamped), the velocity
    likewise, and the channel is the channel argument as a 32-bit [int]
    (so [2^32 + 3] is 3), less one, clamped to 0..15 (0 when absent).  If
    the note is not playing, the flush sends the note-on [0x90 + ch, n, v]
    and the note is playing with its generation advanced.  If the note is
    playing, the flush sends the note-off [0x80 + ch, n, 100] instead, and
    the note-on goes out when the delayed block of the flush runs, after
    which the note is playing again. *)
Theorem noteon_then_flush (e e' : env) (args : list Z) (s : state) :
  initcheck s = true -> queue_wf s = true -> commandQueueIndex s = 0 ->
  alloc_ok e = true -> alloc_ok e' = true ->
  2 <= lua_gettop args <= 3 ->
  Z.land (luaL_checkinteger args 2) 0x7F <> 0 ->
  (lua_gettop args = 3 -> wrap_int (luaL_checkinteger args 3) <> - 2 ^ 31) ->
  let n := Z.land (luaL_checkinteger args 1) 0x7F in
  let v := Z.land (luaL_checkinteger args 2) 0x7F in
  let ch := if lua_gettop args =? 3
            then Z.max 0 (Z.min 15 (wrap_int (luaL_checkinteger args 3) - 1))
            else 0 in
  exists s1 s2,
    midi_noteon e args s = Return s1 /\
    midi_sendMessages e' s1 = Return s2 /\
    if notePlaying s ch n then
      received s2 = received s ++ [(0x80 + ch, n, 100)] /\
      notePlaying s2 ch n = false /\
      let s3 := fire (length (timers s)) s2 in
      received s3 = received s ++ [(0x80 + ch, n, 100); (0x90 + ch, n, v)] /\
      notePlaying s3 ch n = true /\
      timers s3 = timers s
    else
      received s2 = received s ++ [(0x90 + ch, n, v)] /\
      notePlaying s2 ch n = true /\
      lastNoteIDs s2 ch n = wrap_u8 (lastNoteIDs s ch n + 1).
Proof.
  intros Hinit Hwf Hidx Halloc Halloc' Hargs Hvel Hmin n v ch.
  set (c := set_velocity v (set_note n (set_channel ch (set_type kNoteOn (uninit e))))).
  assert (Hcall : midi_noteon e args s = queue_and_return e c s).
  { unfold midi_noteon.
    destruct (Z.ltb_spec (lua_gettop args) 2); [lia|].
    destruct (Z.gtb_spec (lua_gettop args) 3); [lia|].
    simpl. rewrite Hinit, !masked_arg. simpl.
    destruct (Z.eqb_spec (Z.land (luaL_checkinteger args 2) 0x7F) 0); [done|].
    rewrite optional_channel_spec; [done|].
    intros Hg. apply Hmin. by apply Z.eqb_eq. }
  assert (Hn : 0 <= n <= 127) by apply land_0x7F_range.
  assert (Hv : 0 <= v <= 127) by apply land_0x7F_range.
  assert (Hch : 0 <= ch <= 15) by (subst ch; destruct (_ =? 3); lia).
  destruct (call_then_flush e e' c s Hinit Hwf Hidx Halloc Halloc')
    as (s1 & buf' & H1 & Hnp & Hids & Hr & Ht & Hdu & Hflush).
  eexists s1, _. split; [by rewrite Hcall|]. split; [exact Hflush|].
  unfold substitute, retrigger. change (is_noteon c) with true.
  change (channel c) with ch. change (note c) with n. simpl andb.
  destruct (notePlaying s ch n) eqn:Hp.
  - unfold pass3_step. change (type (set_type kNoteOff c)) with kNoteOff.
    change (channel (set_type kNoteOff c)) with ch.
    change (note (set_type kNoteOff c)) with n.
    unfold fire. cbn -[bytes Z.mul Z.add flush_delay].
    rewrite Hr, Ht, !bytes_small by lia.
    split; [done|]. split; [by rewrite upd2_same|].
    rewrite list_lookup_middle by done. cbn -[bytes Z.mul Z.add flush_delay].
    rewrite Hr, !bytes_small by lia.
    rewrite <- app_assoc, upd2_same.
    split; [done|]. split; [done|].
    rewrite (delete_middle (timers s) []). apply app_nil_r.
  - unfold pass3_step. change (type c) with kNoteOn.
    change (channel c) with ch. change (note c) with n. change (velocity c) with v.
    cbn -[bytes Z.mul Z.add wrap_u8 flush_delay].
    rewrite Hr, Hids, !bytes_small, !upd2_same by lia. done.
Qed.

Lemma split_14_bits x :
  0 <= Z.land x 0x7F <= 127 /\
  0 <= Z.land (Z.shiftr x 7) 0x7F <= 127 /\
  Z.land x 0x7F + 128 * Z.land (Z.shiftr x 7) 0x7F = x mod 16384.
Proof.
  assert (Z.land x 0x7F = x mod 128) as ->
    by (change 0x7F with (Z.ones 7); by rewrite Z.land_ones by lia).
  assert (Z.land (Z.shiftr x 7) 0x7F = (x / 128) mod 128) as ->.
  { change 0x7F with (Z.ones 7). rewrite Z.land_ones, Z.shiftr_div_pow2 by lia.
    done. }
  pose proof (Z.mod_pos_bound x 128 ltac:(lia)).
  pose proof (Z.mod_pos_bound (x / 128) 128 ltac:(lia)).
  change 16384 with (128 * 128). rewrite Z.rem_mul_r by lia. lia.
Qed.

(** A pitch bend from the call to the wire, for a rounded bend
    [delta14b]: the two seven-bit data bytes, least significant first, hold
    the low 14 bits of [8192 + delta14b]. *)
Lemma pitchbend_bytes_then_flush (e e' : env) (bend : double) (args : list Z)
    (s : state) (delta14b : Z) :
  initcheck s = true -> queue_wf s = true -> commandQueueIndex s = 0 ->
  alloc_ok e = true -> alloc_ok e' = true ->
  lua_gettop args <= 1 ->
  (lua_gettop args = 1 -> wrap_int (luaL_checkinteger args 1) <> - 2 ^ 31) ->
  bend_delta bend = Some delta14b ->
  let ch := if lua_gettop args =? 1
            then Z.max 0 (Z.min 15 (wrap_int (luaL_checkinteger args 1) - 1))
            else 0 in
  exists s1 s2 lsb msb,
    midi_pitchbend e bend args s = Return s1 /\
    midi_sendMessages e' s1 = Return s2 /\
    received s2 = received s ++ [(0xE0 + ch, lsb, msb)] /\
    0 <= lsb <= 127 /\ 0 <= msb <= 127 /\
    lsb + 128 * msb = wrap_int (8192 + delta14b) mod 16384 /\
    (-8192 <= delta14b <= 8191 -> lsb + 128 * msb = 8192 + delta14b).
Proof.
  intros Hinit Hwf Hidx Halloc Halloc' Hargs Hmin Hdelta ch.
  set (x := wrap_int (8192 + delta14b)).
  set (c := set_velocity (Z.land x 0x7F)
              (set_note (Z.land (Z.shiftr x 7) 0x7F)
                 (set_channel ch (set_type kPitchBend (uninit e))))).
  assert (Hcall : midi_pitchbend e bend args s = queue_and_return e c s).
  { unfold midi_pitchbend.
    assert (Hpos : 0 <= lua_gettop args) by (unfold lua_gettop; lia).
    destruct (Z.ltb_spec (1 + lua_gettop args) 1); [lia|].
    destruct (Z.gtb_spec (1 + lua_gettop args) 2); [lia|].
    simpl. rewrite Hinit, Hdelta. simpl.
    rewrite optional_channel_spec.
    2: { intros Hg. apply Hmin. apply Z.eqb_eq in Hg. lia. }
    subst c ch x. do 5 f_equal.
    destruct (Z.eqb_spec (1 + lua_gettop args) 2), (Z.eqb_spec (lua_gettop args) 1);
      done || lia. }
  assert (Hch : 0 <= ch <= 15) by (subst ch; destruct (_ =? 1); lia).
  destruct (split_14_bits x) as (Hl & Hm & Hx).
  destruct (call_then_flush e e' c s Hinit Hwf Hidx Halloc Halloc')
    as (s1 & buf' & H1 & Hnp & Hids & Hr & Ht & Hdu & Hflush).
  eexists s1, _, (Z.land x 0x7F), (Z.land (Z.shiftr x 7) 0x7F).
  split; [by rewrite Hcall|]. split; [exact Hflush|].
  split; [|split; [done|split; [done|split; [done|]]]].
  - unfold substitute, retrigger. change (is_noteon c) with false. simpl andb.
    unfold pass3_step. change (type c) with kPitchBend.
    change (channel c) with ch. change (MS7b c) with (Z.land (Z.shiftr x 7) 0x7F).
    change (LS7b c) with (Z.land x 0x7F).
    cbn -[bytes Z.mul Z.add Z.land Z.shiftr flush_delay].
    by rewrite Hr, !bytes_small by lia.
  - intros Hrange. rewrite Hx. subst x.
    rewrite wrap_int_small by (change (2 ^ 31) with 2147483648; lia).
    apply Z.mod_small. lia.
Qed.

(** X18.  A pitch bend from the call to the wire.  On an initialised module
    with an empty queue, [MIDI.pitchbend(bend, [channel])] followed by
    [MIDI.sendmessages()], for any bend that is a number (anything but a
    NaN, infinities included): the clamp to -1..1 and [roundf] give a
    [delta14b] between -8191 and 8191, and one message
    [0xE0 + ch, lsb, msb] is sent whose two seven-bit data bytes, least
    significant first, are [8192 + delta14b].  The channel is the channel
    argument as a 32-bit [int], less one, clamped to 0..15 (0 when
    absent). *)
Theorem pitchbend_then_flush (e e' : env) (bend : double) (args : list Z)
    (s : state) :
  initcheck s = true -> queue_wf s = true -> commandQueueIndex s = 0 ->
  alloc_ok e = true -> alloc_ok e' = true ->
  lua_gettop args <= 1 ->
  (lua_gettop args = 1 -> wrap_int (luaL_checkinteger args 1) <> - 2 ^ 31) ->
  bend <> S754_nan ->
  let ch := if lua_gettop args =? 1
            then Z.max 0 (Z.min 15 (wrap_int (luaL_checkinteger args 1) - 1))
            else 0 in
  exists s1 s2 delta14b lsb msb,
    bend_delta bend = Some delta14b /\
    -8191 <= delta14b <= 8191 /\
    midi_pitchbend e bend args s = Return s1 /\
    midi_sendMessages e' s1 = Return s2 /\
    received s2 = received s ++ [(0xE0 + ch, lsb, msb)] /\
    0 <= lsb <= 127 /\ 0 <= msb <= 127 /\
    lsb + 128 * msb = 8192 + delta14b.
Proof.
  intros Hinit Hwf Hidx Halloc Halloc' Hargs Hmin Hnan ch.
  destruct (bend_delta_defined bend Hnan) as (d & Hd & Hr).
  destruct (pitchbend_bytes_then_flush e e' bend args s d
              Hinit Hwf Hidx Halloc Halloc' Hargs Hmin Hd)
    as (s1 & s2 & lsb & msb & H1 & H2 & H3 & Hl & Hm & _ & H4).
  exists s1, s2, d, lsb, msb.
  split; [done|]. split; [done|]. split; [done|]. split; [done|].
  split; [done|]. split; [done|]. split; [done|]. apply H4. lia.
Qed.

Lemma clamp_max_min lo hi x :
  lo <= hi ->
  (if (if x <? lo then lo else x) >? hi then hi else (if x <? lo then lo else x)) =
    Z.max lo (Z.min hi x).
Proof.
  intros Hlh. destruct (Z.ltb_spec x lo).
  - destruct (Z.gtb_spec lo hi); lia.
  - destruct (Z.gtb_spec x hi); lia.
Qed.

(** X19.  A controller change from the call to the wire.  On an initialised
    module with an empty queue, [MIDI.CC(cc, value, [channel])] followed by
    [MIDI.sendmessages()] sends one message [0xB0 + ch, cc', value']: the
    controller number is the argument as a 32-bit [int] (so [2^32 + 5] is
    5), clamped to 0..119; the value is masked to seven bits (so 128 is
    sent as 0, not as 127); and the channel is the channel argument as a
    32-bit [int], less one, clamped to 0..15 (0 when absent). *)
Theorem cc_then_flush (e e' : env) (args : list Z) (s : state) :
  initcheck s = true -> queue_wf s = true -> commandQueueIndex s = 0 ->
  alloc_ok e = true -> alloc_ok e' = true ->
  2 <= lua_gettop args <= 3 ->
  (lua_gettop args = 3 -> wrap_int (luaL_checkinteger args 3) <> - 2 ^ 31) ->
  let cc := Z.max 0 (Z.min 119 (wrap_int (luaL_checkinteger args 1))) in
  let v := Z.land (luaL_checkinteger args 2) 0x7F in
  let ch := if lua_gettop args =? 3
            then Z.max 0 (Z.min 15 (wrap_int (luaL_checkinteger args 3) - 1))
            else 0 in
  exists s1 s2,
    midi_CC e args s = Return s1 /\
    midi_sendMessages e' s1 = Return s2 /\
    received s2 = received s ++ [(0xB0 + ch, cc, v)] /\
    notePlaying s2 = notePlaying s /\
    lastNoteIDs s2 = lastNoteIDs s.
Proof.
  intros Hinit Hwf Hidx Halloc Halloc' Hargs Hmin cc v ch.
  set (c := set_velocity v (set_note cc (set_channel ch (set_type kCC (uninit e))))).
  assert (Hcall : midi_CC e args s = queue_and_return e c s).
  { unfold midi_CC.
    destruct (Z.ltb_spec (lua_gettop args) 2); [lia|].
    destruct (Z.gtb_spec (lua_gettop args) 3); [lia|].
    simpl. rewrite Hinit, !masked_arg. simpl.
    rewrite (clamp_max_min 0 119) by lia.
    rewrite optional_channel_spec; [done|].
    intros Hg. apply Hmin. by apply Z.eqb_eq. }
  assert (Hv : 0 <= v <= 127) by apply land_0x7F_range.
  assert (Hcc : 0 <= cc <= 119) by (subst cc; lia).
  assert (Hch : 0 <= ch <= 15) by (subst ch; destruct (_ =? 3); lia).
  destruct (call_then_flush e e' c s Hinit Hwf Hidx Halloc Halloc')
    as (s1 & buf' & H1 & Hnp & Hids & Hr & Ht & Hdu & Hflush).
  eexists s1, _. split; [by rewrite Hcall|]. split; [exact Hflush|].
  unfold substitute, retrigger. change (is_noteon c) with false. simpl andb.
  unfold pass3_step. change (type c) with kCC.
  change (channel c) with ch. change (CC c) with cc. change (value c) with v.
  cbn -[bytes Z.mul Z.add Z.land Z.max Z.min flush_delay].
  by rewrite Hr, !bytes_small by lia.
Qed.

(** X20.  A flush with nothing queued: on an initialised module with an
    empty queue, [MIDI.sendmessages()] returns (also when the allocator
    fails), sends no message and changes no note state, but still submits
    one block, with an empty list of delayed commands; when that block
    runs, the globals are back to what they were before the call. *)
Theorem empty_flush (e : env) (s : state) :
  initcheck s = true -> commandQueueIndex s = 0 ->
  exists s',
    midi_sendMessages e s = Return s' /\
    received s' = received s /\
    notePlaying s' = notePlaying s /\
    lastNoteIDs s' = lastNoteIDs s /\
    timers s' =
      timers s ++ [mkTimer (flush_delay (late_note_offset s)) (DelayedBlock [])] /\
    fire (length (timers s)) s' = s.
Proof.
  intros Hinit Hidx. unfold midi_sendMessages. rewrite Hinit. simpl.
  apply initcheck_spec in Hinit as (_ & _ & _ & [buf Hbuf]).
  rewrite Hbuf, Hidx. simpl. rewrite andb_false_r.
  eexists. split; [done|]. cbn -[flush_delay]. repeat split.
  unfold fire. cbn -[flush_delay]. rewrite list_lookup_middle by done.
  cbn -[flush_delay].
  rewrite (delete_middle (timers s) []), app_nil_r.
  destruct s. simpl in *. by subst.
Qed.

(** X21.  [MIDI.allnotesoff] on a channel with no note flagged as playing
    sends no message when it is flushed: a reset sends a note-off for the
    notes flagged as playing and for no other. *)
Theorem reset_of_silent_channel (ch : Z) (s : state) :
  channel_silent ch s ->
  received (sendResetNotes ch s) = received s /\
  channel_silent ch (sendResetNotes ch s).
Proof.
  intros Hs. split; [|apply sendResetNotes_silent].
  unfold sendResetNotes. simpl.
  assert (filter (fun i => notePlaying s ch i = true) (seqZ 0 128) = []) as ->.
  { destruct (filter _ _) as [|n rest] eqn:Hf; [done|].
    assert (Hn : n ∈ filter (fun i => notePlaying s ch i = true) (seqZ 0 128))
      by (rewrite Hf; left).
    apply list_elem_of_filter in Hn as [Hp Hn]. apply elem_of_seqZ in Hn.
    rewrite Hs in Hp by lia. done. }
  simpl. apply app_nil_r.
Qed.

(** A timed note from the call to its note-off: the flush sends the
    note-on and submits the note-off block, which sends the note-off when
    it runs with nothing sent for the note in between. *)
Lemma timed_note_then_flush (e e' : env) (args : list Z) (s : state) :
  initcheck s = true -> queue_wf s = true -> commandQueueIndex s = 0 ->
  alloc_ok e = true -> alloc_ok e' = true ->
  3 <= lua_gettop args <= 4 ->
  Z.land (luaL_checkinteger args 2) 0x7F <> 0 ->
  0 < wrap_int (luaL_checkinteger args 3) ->
  (lua_gettop args = 4 -> wrap_int (luaL_checkinteger args 4) <> - 2 ^ 31) ->
  let n := Z.land (luaL_checkinteger args 1) 0x7F in
  let v := Z.land (luaL_checkinteger args 2) 0x7F in
  let d := wrap_int (luaL_checkinteger args 3) in
  let ch := if lua_gettop args =? 4
            then Z.max 0 (Z.min 15 (wrap_int (luaL_checkinteger args 4) - 1))
            else 0 in
  notePlaying s ch n = false ->
  exists s1 s2,
    midi_noteonwithduration e args s = Return s1 /\
    midi_sendMessages e' s1 = Return s2 /\
    received s2 = received s ++ [(0x90 + ch, n, v)] /\
    notePlaying s2 ch n = true /\
    timers s2 =
      timers s ++
      [mkTimer (note_off_delay (duration_unit s) d (float_of_Z 0))
         (NoteOffBlock ch n (wrap_u8 (lastNoteIDs s ch n + 1)));
       mkTimer (flush_delay (late_note_offset s)) (DelayedBlock [])] /\
    let s3 := fire (length (timers s)) s2 in
    received s3 = received s ++ [(0x90 + ch, n, v); (0x80 + ch, n, 0)] /\
    notePlaying s3 ch n = false.
Proof.
  intros Hinit Hwf Hidx Halloc Halloc' Hargs Hvel Hdur Hmin n v d ch Hp.
  set (c := set_duration d
              (set_velocity v
                 (set_note n
                    (set_channel ch (set_type kNoteOnWithDuration (uninit e)))))).
  assert (Hcall : midi_noteonwithduration e args s = queue_and_return e c s).
  { unfold midi_noteonwithduration.
    destruct (Z.ltb_spec (lua_gettop args) 3); [lia|].
    destruct (Z.gtb_spec (lua_gettop args) 4); [lia|].
    simpl. rewrite Hinit, !masked_arg. simpl.
    destruct (Z.eqb_spec (Z.land (luaL_checkinteger args 2) 0x7F) 0); [done|].
    destruct (Z.gtb_spec (wrap_int (luaL_checkinteger args 3)) 0); [|lia].
    simpl. rewrite optional_channel_spec; [done|].
    intros Hg. apply Hmin. by apply Z.eqb_eq. }
  assert (Hn : 0 <= n <= 127) by apply land_0x7F_range.
  assert (Hv : 0 <= v <= 127) by apply land_0x7F_range.
  assert (Hch : 0 <= ch <= 15) by (subst ch; destruct (_ =? 4); lia).
  destruct (call_then_flush e e' c s Hinit Hwf Hidx Halloc Halloc')
    as (s1 & buf' & H1 & Hnp & Hids & Hr & Ht & Hdu & Hflush).
  eexists s1, _. split; [by rewrite Hcall|]. split; [exact Hflush|].
  unfold substitute, retrigger. change (is_noteon c) with true.
  change (channel c) with ch. change (note c) with n. rewrite Hp. simpl andb.
  unfold pass3_step. change (type c) with kNoteOnWithDuration.
  change (channel c) with ch. change (note c) with n. change (velocity c) with v.
  change (duration c) with d.
  unfold fire.
  cbn -[bytes Z.mul Z.add Z.sub wrap_u8 flush_delay note_off_delay float_of_Z].
  rewrite Hr, Ht, Hids, Hdu, !bytes_small, !upd2_same by lia.
  split; [done|]. split; [done|]. split; [by rewrite <- app_assoc|].
  rewrite <- app_assoc. cbn [app]. rewrite list_lookup_middle by done.
  cbn -[bytes Z.mul Z.add Z.sub wrap_u8 flush_delay note_off_delay float_of_Z].
  unfold note_off_block.
  cbn -[bytes Z.mul Z.add Z.sub wrap_u8 flush_delay note_off_delay float_of_Z].
  rewrite Hids, upd2_same, Z.eqb_refl.
  cbn -[bytes Z.mul Z.add Z.sub wrap_u8 flush_delay note_off_delay float_of_Z].
  rewrite Hr, !bytes_small, <- app_assoc, upd2_same by lia. done.
Qed.

(** X22.  The life of a timed note.  On an initialised module with an empty
    queue, [MIDI.noteonwithduration(note, vel, duration, [channel])] for a
    note that is not playing, with a velocity that does not mask to 0 and a
    duration that is positive as the 32-bit [int] it is stored in, followed
    by [MIDI.sendmessages()]: the flush sends the note-on [0x90 + ch, n, v]
    and submits the note-off block with the delay
    [1000000 * duration_unit * (duration - 0)] as C evaluates it, the
    duration rounded to [float]; for a whole number [u] of milliseconds as
    the unit and a duration below [2^24], where nothing is rounded, that is
    exactly [1000000 * u * duration] nanoseconds.  When that block runs
    with nothing sent for the note in between, it sends the note-off
    [0x80 + ch, n, 0] and the note is no longer playing. *)
Theorem timed_note_lifecycle (e e' : env) (args : list Z) (s : state) :
  initcheck s = true -> queue_wf s = true -> commandQueueIndex s = 0 ->
  alloc_ok e = true -> alloc_ok e' = true ->
  3 <= lua_gettop args <= 4 ->
  Z.land (luaL_checkinteger args 2) 0x7F <> 0 ->
  0 < wrap_int (luaL_checkinteger args 3) ->
  (lua_gettop args = 4 -> wrap_int (luaL_checkinteger args 4) <> - 2 ^ 31) ->
  let n := Z.land (luaL_checkinteger args 1) 0x7F in
  let v := Z.land (luaL_checkinteger args 2) 0x7F in
  let d := wrap_int (luaL_checkinteger args 3) in
  let ch := if lua_gettop args =? 4
            then Z.max 0 (Z.min 15 (wrap_int (luaL_checkinteger args 4) - 1))
            else 0 in
  notePlaying s ch n = false ->
  exists s1 s2,
    midi_noteonwithduration e args s = Return s1 /\
    midi_sendMessages e' s1 = Return s2 /\
    received s2 = received s ++ [(0x90 + ch, n, v)] /\
    notePlaying s2 ch n = true /\
    timers s2 =
      timers s ++
      [mkTimer (note_off_delay (duration_unit s) d (float_of_Z 0))
         (NoteOffBlock ch n (wrap_u8 (lastNoteIDs s ch n + 1)));
       mkTimer (flush_delay (late_note_offset s)) (DelayedBlock [])] /\
    (forall u,
       duration_unit s = double_of_Z u -> d < 2 ^ 24 ->
       Z.abs (1000000 * u) < 2 ^ 53 -> Z.abs (1000000 * u * d) < 2 ^ 53 ->
       note_off_delay (duration_unit s) d (float_of_Z 0)
       = Some (1000000 * u * d)) /\
    let s3 := fire (length (timers s)) s2 in
    received s3 = received s ++ [(0x90 + ch, n, v); (0x80 + ch, n, 0)] /\
    notePlaying s3 ch n = false.
Proof.
  intros Hinit Hwf Hidx Halloc Halloc' Hargs Hvel Hdur Hmin n v d ch Hp.
  destruct (timed_note_then_flush e e' args s Hinit Hwf Hidx Halloc Halloc'
              Hargs Hvel Hdur Hmin Hp)
    as (s1 & s2 & H1 & H2 & H3 & H4 & H5 & H6).
  exists s1, s2.
  split; [done|]. split; [done|]. split; [done|]. split; [done|].
  split; [done|]. split; [|done].
  intros u Hu Hd Hub Hall. rewrite Hu.
  replace (1000000 * u * d) with (1000000 * u * (d - 0)) in * by (f_equal; lia).
  fold d in Hdur. apply note_off_delay_int; try done; lia.
Qed.

(** ** What step 3 hands over *)

Lemma sent_since_step c s :
  sent_since s (pass3_step c s) =
    match type c with
    | kNoteOn | kNoteOnWithDuration =>
        [bytes (0x90 + channel c) (note c) (velocity c)]
    | kNoteOff => [bytes (0x80 + channel c) (note c) 100]
    | kCC => [bytes (0xB0 + channel c) (CC c) (value c)]
    | kPitchBend => [bytes (0xE0 + channel c) (LS7b c) (MS7b c)]
    | kResetNotes =>
        (fun i => bytes (0x80 + channel c) i 0) <$>
          filter (fun i => notePlaying s (channel c) i = true) (seqZ 0 128)
    | kInvalid => []
    end.
Proof.
  unfold sent_since, pass3_step.
  destruct (type c); cbn -[bytes seqZ]; rewrite ?drop_app_length; try done.
  apply drop_all.
Qed.

Lemma pass3_step_received c s :
  received (pass3_step c s) = received s ++ sent_since s (pass3_step c s).
Proof.
  rewrite sent_since_step. unfold pass3_step.
  destruct (type c); cbn -[bytes seqZ]; by rewrite ?app_nil_r.
Qed.

Lemma pass3_received q s :
  received (pass3 q s) = received s ++ sent_since s (pass3 q s).
Proof.
  unfold sent_since. revert s. induction q as [|c rest IH]; intros s; simpl.
  - by rewrite drop_all, app_nil_r.
  - rewrite IH, pass3_step_received, <- !app_assoc, !drop_app_length. done.
Qed.

Lemma sent_since_cons c q s :
  sent_since s (pass3 (c :: q) s) =
    sent_since s (pass3_step c s) ++
    sent_since (pass3_step c s) (pass3 q (pass3_step c s)).
Proof.
  unfold sent_since at 1. simpl pass3.
  rewrite pass3_received, pass3_step_received, <- app_assoc.
  by rewrite drop_app_length.
Qed.

Lemma sent_since_app q1 q2 s :
  sent_since s (pass3 (q1 ++ q2) s) =
    sent_since s (pass3 q1 s) ++ sent_since (pass3 q1 s) (pass3 q2 (pass3 q1 s)).
Proof.
  unfold sent_since at 1. rewrite pass3_app.
  rewrite (pass3_received q2), (pass3_received q1), <- app_assoc.
  by rewrite drop_app_length.
Qed.

(** Step 3 sends every note-off of an in-range queue. *)
Lemma pass3_sends_noteoff q s c :
  batch_in_range q = true -> c ∈ q -> type c = kNoteOff ->
  (0x80 + channel c, note c, 100) ∈ sent_since s (pass3 q s).
Proof.
  intros Hq Hc Ht. apply list_elem_of_lookup in Hc as [i Hi].
  pose proof (batch_in_range_lookup q i c Hq Hi) as Hr. ranges Hr Ht.
  rewrite <- (take_drop_middle q i c Hi), sent_since_app, sent_since_cons.
  apply elem_of_app. right. apply elem_of_app. left.
  rewrite sent_since_step, Ht, bytes_small by lia. by left.
Qed.

Section ControllerMessages.
Variables cc ch : Z.
Hypothesis Hch : 0 <= ch <= 15.

Lemma step_cc_messages c s :
  cmd_in_range c = true ->
  filter (fun p => cc_message cc ch p = true) (sent_since s (pass3_step c s)) =
    if cc_for cc ch c then [(0xB0 + ch, cc, value c)] else [].
Proof.
  intros Hr. rewrite sent_since_step. unfold cc_for, CC, value, MS7b, LS7b.
  destruct (type c) eqn:Ty; ranges Hr Ty; simpl bool_decide; cbn [andb];
    rewrite ?filter_nil; try done.
  1-3, 5: rewrite bytes_small by lia;
    rewrite filter_cons, filter_nil, decide_False; [done|];
    unfold cc_message; rewrite andb_true_iff, !Z.eqb_eq; lia.
  - rewrite bytes_small, filter_cons, filter_nil by lia.
    unfold cc_message.
    destruct (Z.eqb_spec (note c) cc) as [-> | Hcc];
      destruct (Z.eqb_spec (channel c) ch) as [-> | Hc]; simpl.
    + by rewrite decide_True by (by rewrite !Z.eqb_refl).
    + rewrite decide_False; [done|]. rewrite andb_true_iff, !Z.eqb_eq. lia.
    + rewrite decide_False; [done|]. rewrite andb_true_iff, !Z.eqb_eq. lia.
    + rewrite decide_False; [done|]. rewrite andb_true_iff, !Z.eqb_eq. lia.
  - induction (filter _ (seqZ 0 128)) as [|n rest IH]; [done|].
    rewrite fmap_cons, filter_cons, decide_False; [done|].
    unfold cc_message, bytes, wrap_u8. change (2 ^ 8) with 256.
    rewrite (Z.mod_small (0x80 + channel c)) by lia.
    rewrite andb_true_iff, !Z.eqb_eq. lia.
Qed.

(** The controller messages for one controller and channel that step 3
    sends are those of the commands for them that it finds, in order. *)
Lemma pass3_cc_messages q s :
  batch_in_range q = true ->
  filter (fun p => cc_message cc ch p = true) (sent_since s (pass3 q s)) =
    (fun c => (0xB0 + ch, cc, value c)) <$>
      filter (fun c => cc_for cc ch c = true) q.
Proof.
  revert s. induction q as [|c rest IH]; intros s Hq.
  - unfold sent_since. simpl. by rewrite drop_all.
  - simpl in Hq. apply andb_true_iff in Hq as [Hc Hrest].
    rewrite sent_since_cons, filter_app, step_cc_messages, IH, filter_cons by done.
    destruct (cc_for cc ch c);
      [by rewrite decide_True | by rewrite decide_False].
Qed.

End ControllerMessages.

Lemma filter_cc_immediateList cc ch q :
  filter (fun c => cc_for cc ch c = true) (immediateList q) =
    filter (fun c => cc_for cc ch c = true) q.
Proof.
  induction q as [|c rest IH]; [done|].
  rewrite immediateList_cons, filter_app, IH, (filter_cons _ c rest).
  unfold immediateList. rewrite filter_cons, filter_nil.
  destruct (cc_for cc ch c) eqn:Hc.
  - pose proof (cc_for_type cc ch c Hc) as Ht.
    rewrite !decide_True by (done || by rewrite Ht).
    by rewrite filter_cons, filter_nil, decide_True.
  - rewrite (decide_False (P := false = true)) by done.
    case_decide; [|done].
    by rewrite filter_cons, filter_nil, decide_False by congruence.
Qed.

Lemma coalesce_in_range np q :
  batch_in_range q = true -> batch_in_range (fst (coalesce np q)) = true.
Proof.
  intros Hq. unfold coalesce.
  by apply pass2_in_range, pass1_in_range.
Qed.

(** ** A batch without an entry that the scan removes *)

Lemma removed_same_masks np c l :
  snd (pass1_step np c l) = set_type kInvalid c ->
  same_masks (fst (pass1_step np c l)) l.
Proof.
  step_cases c; intros H; try (by repeat split);
    apply (f_equal type) in H; simpl in H; congruence.
Qed.

Lemma pass1_without_removed np q l (i : nat) c :
  q !! i = Some c ->
  snd (pass1_step np c (fst (pass1 np (drop (S i) q) l))) = set_type kInvalid c ->
  exists kept behind,
    snd (pass1 np q l) = kept ++ set_type kInvalid c :: behind /\
    snd (pass1 np (delete i q) l) = kept ++ behind.
Proof.
  intros Hi Hc.
  exists (snd (pass1 np (take i q) (fst (pass1 np (drop (S i) q) l)))),
         (snd (pass1 np (drop (S i) q) l)).
  split.
  - rewrite <- (take_drop_middle q i c Hi) at 1.
    rewrite pass1_app, pass1_cons. cbn [fst snd]. rewrite Hc. f_equal.
    apply pass1_same_masks. by apply removed_same_masks.
  - rewrite delete_take_drop, pass1_app. done.
Qed.

(** Flushing a batch is flushing the batch without the entry the scan
    removes: the same immediate list, the same delayed list. *)
Lemma coalesce_without_removed np q (i : nat) c :
  q !! i = Some c ->
  snd (pass1_step np c (fst (pass1 np (drop (S i) q) (locals_init 0)))) =
    set_type kInvalid c ->
  immediateList (fst (coalesce np q)) =
    immediateList (fst (coalesce np (delete i q))) /\
  snd (coalesce np q) = snd (coalesce np (delete i q)).
Proof.
  intros Hi Hc.
  destruct (pass1_without_removed np q (locals_init 0) i c Hi Hc)
    as (kept & behind & Hq & Hd).
  rewrite (coalesce_fst np q 0), (coalesce_fst np (delete i q) 0).
  rewrite (coalesce_snd np q 0), (coalesce_snd np (delete i q) 0).
  rewrite Hq, Hd. unfold immediateList.
  rewrite !fmap_app, fmap_cons, !filter_app, !filter_cons.
  rewrite substitute_other by done.
  rewrite (decide_False (P := type (set_type kInvalid c) <> kInvalid))
    by (simpl; tauto).
  by rewrite (decide_False (P := retrigger np (set_type kInvalid c) = true)).
Qed.

Lemma pass3_without_removed np q (i : nat) c s :
  q !! i = Some c ->
  snd (pass1_step np c (fst (pass1 np (drop (S i) q) (locals_init 0)))) =
    set_type kInvalid c ->
  pass3 (fst (coalesce np q)) s = pass3 (fst (coalesce np (delete i q))) s.
Proof.
  intros Hi Hc.
  rewrite <- (pass3_immediateList (fst (coalesce np q))).
  rewrite <- (pass3_immediateList (fst (coalesce np (delete i q)))).
  by destruct (coalesce_without_removed np q i c Hi Hc) as [-> _].
Qed.

(** C3, amended.  In a batch of in-range commands, a note-on of either kind
    followed later by a note-off for the same channel and note is
    invalidated: its entry has type [kInvalid], and the immediate list, the
    delayed list and the state step 3 leaves are those of the batch
    without the note-on.  The note-off itself stays in the immediate list,
    and step 3 hands its message [0x80 + channel, note, 100] to
    [MIDIReceived]. *)
Theorem noteon_before_noteoff (np : Z -> Z -> bool) (q : list command)
    (i j : nat) (on off : command) :
  batch_in_range q = true ->
  q !! i = Some on ->
  q !! j = Some off ->
  (i < j)%nat ->
  is_noteon on = true ->
  type off = kNoteOff ->
  channel off = channel on ->
  note off = note on ->
  type <$> fst (coalesce np q) !! i = Some kInvalid /\
  immediateList (fst (coalesce np q)) =
    immediateList (fst (coalesce np (delete i q))) /\
  snd (coalesce np q) = snd (coalesce np (delete i q)) /\
  (forall s, pass3 (fst (coalesce np q)) s =
             pass3 (fst (coalesce np (delete i q))) s) /\
  fst (coalesce np q) !! j = Some off /\
  off ∈ immediateList (fst (coalesce np q)) /\
  (forall s, (0x80 + channel on, note on, 100) ∈
             sent_since s (pass3 (fst (coalesce np q)) s)).
Proof.
  intros Hq Hi Hj Hij Hon Hoff Hch Hn.
  destruct (noteon_removed_by_noteoff np q i j on off Hq Hi Hj Hij Hon Hoff Hch Hn)
    as (Hi' & _ & Hj' & Hin & _).
  assert (Hgone : snd (pass1_step np on
                         (fst (pass1 np (drop (S i) q) (locals_init 0)))) =
                  set_type kInvalid on).
  { pose proof (cmd_in_range_channel on (batch_in_range_lookup q i on Hq Hi)).
    apply noteon_removed; [done|]. left.
    rewrite pass1_noteOffs by done. apply orb_true_iff. right.
    apply (existsb_lookup _ _ (j - S i)%nat off).
    - rewrite lookup_drop. by replace (S i + (j - S i))%nat with j by lia.
    - unfold noteoff_for. by rewrite Hoff, Hch, Hn, !Z.eqb_refl. }
  destruct (coalesce_without_removed np q i on Hi Hgone) as [Himm Hdel].
  split; [by rewrite Hi'|]. split; [done|]. split; [done|].
  split; [intros s; by apply (pass3_without_removed np q i on)|].
  split; [done|]. split; [done|].
  intros s. rewrite <- Hch, <- Hn.
  apply pass3_sends_noteoff; [by apply coalesce_in_range | | done].
  apply list_elem_of_lookup. eauto.
Qed.

(** C5.  In a batch of in-range commands with a ResetNotes at index [j]:
    every note-on of either kind for the channel of the reset before index
    [j] is invalidated, that is, its entry has type [kInvalid] and the
    immediate list, the delayed list and the state step 3 leaves are those
    of the batch without it; every entry behind index [j] comes out of
    steps 1 and 2 exactly as it does from the batch without the reset; and
    a note-on for that channel behind the reset which has no note-off or
    note-on for its note and no reset for its channel behind it survives
    step 1. *)
Theorem resetnotes_invalidates_earlier_only (np : Z -> Z -> bool)
    (q : list command) (j : nat) (r : command) :
  batch_in_range q = true ->
  q !! j = Some r ->
  type r = kResetNotes ->
  (forall (i : nat) (on : command),
      (i < j)%nat -> q !! i = Some on -> is_noteon on = true ->
      channel on = channel r ->
      type <$> fst (coalesce np q) !! i = Some kInvalid /\
      immediateList (fst (coalesce np q)) =
        immediateList (fst (coalesce np (delete i q))) /\
      snd (coalesce np q) = snd (coalesce np (delete i q)) /\
      (forall s, pass3 (fst (coalesce np q)) s =
                 pass3 (fst (coalesce np (delete i q))) s)) /\
  (forall k : nat,
      (j < k)%nat ->
      fst (coalesce np q) !! k = fst (coalesce np (delete j q)) !! (k - 1)%nat) /\
  (forall (k : nat) (on : command),
      (j < k)%nat -> q !! k = Some on -> is_noteon on = true ->
      channel on = channel r ->
      existsb (noteoff_for (note on) (channel on)) (drop (S k) q) = false ->
      existsb (noteon_for (note on) (channel on)) (drop (S k) q) = false ->
      existsb (reset_for (channel on)) (drop (S k) q) = false ->
      snd (pass1 np q (locals_init (Z.of_nat (length q)))) !! k = Some on).
Proof.
  intros Hq Hj Hr.
  destruct (resetnotes_in_queue np q j r Hq Hj Hr) as (Hearlier & Hlater & Hkept).
  split; [|by split].
  intros i on Hij Hi Hon Hch.
  assert (Hgone : snd (pass1_step np on
                         (fst (pass1 np (drop (S i) q) (locals_init 0)))) =
                  set_type kInvalid on).
  { pose proof (cmd_in_range_channel on (batch_in_range_lookup q i on Hq Hi)).
    apply noteon_removed; [done|]. right.
    rewrite pass1_notesReset by done. apply orb_true_iff. right.
    apply (existsb_lookup _ _ (j - S i)%nat r).
    - rewrite lookup_drop. by replace (S i + (j - S i))%nat with j by lia.
    - unfold reset_for. by rewrite Hr, Hch, Z.eqb_refl. }
  destruct (coalesce_without_removed np q i on Hi Hgone) as [Himm Hdel].
  split; [by rewrite (Hearlier i on Hij Hi Hon Hch)|].
  split; [done|]. split; [done|].
  intros s. by apply (pass3_without_removed np q i on).
Qed.

(** C6.  In a batch of in-range commands that holds N >= 1 controller
    changes for one (controller, channel), exactly one command for that
    controller and channel is in the immediate list: the last of them in
    batch order; and of the messages step 3 hands to [MIDIReceived], the
    controller changes for that controller on that channel are one
    message, which carries the value of that last command. *)
Theorem last_cc_survives (np : Z -> Z -> bool) (q : list command) (cc ch : Z) :
  batch_in_range q = true ->
  (1 <= length (filter (fun c => cc_for cc ch c = true) q))%nat ->
  exists c : command,
    last (filter (fun c => cc_for cc ch c = true) q) = Some c /\
    filter (fun c => cc_for cc ch c = true) (immediateList (fst (coalesce np q)))
      = [c] /\
    (forall s,
       filter (fun p => cc_message cc ch p = true)
         (sent_since s (pass3 (fst (coalesce np q)) s)) =
       [(0xB0 + ch, cc, value c)]).
Proof.
  intros Hq HN.
  destruct (last_cc_in_queue np q cc ch Hq HN) as (c & Hlast & Himm & _).
  exists c. split; [done|]. split; [done|]. intros s.
  assert (Hc : c ∈ filter (fun c => cc_for cc ch c = true) q).
  { apply last_Some in Hlast as [l' ->].
    apply elem_of_app. right. by apply list_elem_of_singleton. }
  apply list_elem_of_filter in Hc as [Hc Hin].
  apply list_elem_of_lookup in Hin as [i Hi].
  pose proof (cmd_in_range_channel c (batch_in_range_lookup q i c Hq Hi)) as Hr.
  unfold cc_for in Hc. rewrite !andb_true_iff, !Z.eqb_eq in Hc.
  destruct Hc as [_ Hchan]. rewrite Hchan in Hr.
  rewrite pass3_cc_messages by (lia || by apply coalesce_in_range).
  rewrite filter_cc_immediateList in Himm. by rewrite Himm.
Qed.
(** ** Examples of the further properties *)

(** X6 on two pitch bends for channel 1 with a note-on between them. *)
Lemma last_pitchbend_survives_witness :
  let q := [mkCommand kPitchBend 1 64 0 0; NoteOn_0_60; mkCommand kPitchBend 1 70 5 0] in
  (batch_in_range q = true /\
   (1 <= length (filter (fun c => pb_for 1 c = true) q))%nat) /\
  exists c : command,
    last (filter (fun c => pb_for 1 c = true) q) = Some c /\
    filter (fun c => pb_for 1 c = true) (immediateList (fst (coalesce quiet q)))
      = [c] /\
    (forall s, pass3_step c s = sendPitchBend 1 (MS7b c) (LS7b c) s).
Proof.
  split; [split; [reflexivity | vm_compute; lia]|].
  apply (last_pitchbend_survives quiet
           [mkCommand kPitchBend 1 64 0 0; NoteOn_0_60; mkCommand kPitchBend 1 70 5 0] 1).
  - reflexivity.
  - vm_compute. lia.
Defined.

(** X7 on a note-on with a reset of its channel behind it. *)
Lemma noteon_survives_iff_witness :
  (batch_in_range [NoteOn_0_60; ResetNotes_0; NoteOn_2_10] = true /\
   [NoteOn_0_60; ResetNotes_0; NoteOn_2_10] !! 0%nat = Some NoteOn_0_60 /\
   is_noteon NoteOn_0_60 = true) /\
  snd (pass1 quiet [NoteOn_0_60; ResetNotes_0; NoteOn_2_10] (locals_init 3)) !! 0%nat =
    Some (set_type kInvalid NoteOn_0_60).
Proof.
  split; [by repeat split|].
  exact (noteon_survives_iff quiet [NoteOn_0_60; ResetNotes_0; NoteOn_2_10] 0
           NoteOn_0_60 eq_refl eq_refl eq_refl).
Defined.

(** X11 on a reset between two note-ons, while note 60 is playing. *)
Lemma reset_silences_channel_witness :
  ([NoteOn_0_60; ResetNotes_0; NoteOn_2_10] !! 1%nat = Some ResetNotes_0 /\
   type ResetNotes_0 = kResetNotes /\
   existsb (fun c' => is_noteon c' && (channel c' =? channel ResetNotes_0))
     (drop 2 [NoteOn_0_60; ResetNotes_0; NoteOn_2_10]) = false) /\
  channel_silent 0
    (pass3 (fst (coalesce (only_playing 0 60) [NoteOn_0_60; ResetNotes_0; NoteOn_2_10]))
       (set_notePlaying (only_playing 0 60) static_init)).
Proof.
  split; [by repeat split|].
  exact (reset_silences_channel (only_playing 0 60)
           [NoteOn_0_60; ResetNotes_0; NoteOn_2_10] 1 ResetNotes_0
           (set_notePlaying (only_playing 0 60) static_init)
           eq_refl eq_refl eq_refl).
Defined.


(** X12 on a run that queues, flushes, initialises again and runs a block. *)
Lemma initialised_for_good_witness :
  let calls := [(plain_env, NoteOn [60; 100]); (plain_env, SendMessages);
                (plain_env, Init); (plain_env, TimerFires 0)] in
  let s' := default static_init (run calls fresh_state) in
  (initcheck fresh_state = true /\ run calls fresh_state = Some s') /\
  initcheck s' = true.
Proof.
  intros calls s'.
  assert (Hrun : run calls fresh_state = Some s') by (vm_compute; reflexivity).
  exact (conj (conj eq_refl Hrun)
           (initialised_for_good calls fresh_state s' eq_refl Hrun)).
Defined.

(** X13 on a module whose endpoint could not be created. *)
Lemma partial_init_is_final_witness :
  let s := set_handles 1 0 3 static_init in
  let calls := [(plain_env, Init); (plain_env, NoteOn [60; 100])] in
  let s' := default static_init (run calls s) in
  (handles_partial s = true /\ run calls s = Some s') /\
  handles_partial s' = true /\ initcheck s' = false.
Proof.
  intros s calls s'.
  assert (Hrun : run calls s = Some s') by (vm_compute; reflexivity).
  exact (conj (conj eq_refl Hrun) (partial_init_is_final calls s s' eq_refl Hrun)).
Defined.

(** X14 on a note-on before any [MIDI.init()]. *)
Lemma uninitialised_calls_raise_witness :
  (initcheck static_init = false /\ queueing (NoteOn [60; 100]) = true) /\
  exists msg, exec plain_env (NoteOn [60; 100]) static_init = LuaError msg.
Proof.
  split; [by split|].
  exact (uninitialised_calls_raise plain_env (NoteOn [60; 100]) static_init
           eq_refl (or_introl eq_refl)).
Defined.

(** X16 on calls whose arguments are far out of range, flushed. *)
Lemma sent_messages_well_formed_witness :
  let calls := wild_run ++ [(plain_env, SendMessages); (plain_env, TimerFires 0)] in
  let s := default static_init (run calls static_init) in
  run calls static_init = Some s /\
  Forall (fun p => packet_ok p = true) (received s).
Proof.
  intros calls s.
  assert (Hrun : run calls static_init = Some s) by (vm_compute; reflexivity).
  exact (conj Hrun (sent_messages_well_formed calls s Hrun)).
Defined.

(** X17 on a fresh module, with a channel argument beyond the [int] range:
    the note-on goes out at the flush, on the third channel. *)
Lemma noteon_then_flush_witness :
  (initcheck fresh_state = true /\ queue_wf fresh_state = true /\
   commandQueueIndex fresh_state = 0 /\ alloc_ok plain_env = true /\
   2 <= lua_gettop [60; 100; 2 ^ 32 + 3] <= 3 /\
   Z.land (luaL_checkinteger [60; 100; 2 ^ 32 + 3] 2) 0x7F <> 0 /\
   wrap_int (luaL_checkinteger [60; 100; 2 ^ 32 + 3] 3) <> - 2 ^ 31) /\
  exists s1 s2,
    midi_noteon plain_env [60; 100; 2 ^ 32 + 3] fresh_state = Return s1 /\
    midi_sendMessages plain_env s1 = Return s2 /\
    received s2 = [(0x92, 60, 100)].
Proof.
  assert (Hargs : 2 <= lua_gettop [60; 100; 2 ^ 32 + 3] <= 3)
    by (unfold lua_gettop; simpl; lia).
  assert (Hvel : Z.land (luaL_checkinteger [60; 100; 2 ^ 32 + 3] 2) 0x7F <> 0)
    by done.
  assert (Hmin : wrap_int (luaL_checkinteger [60; 100; 2 ^ 32 + 3] 3) <> - 2 ^ 31)
    by (vm_compute; discriminate).
  split; [by repeat split|].
  destruct (noteon_then_flush plain_env plain_env [60; 100; 2 ^ 32 + 3] fresh_state
              eq_refl eq_refl eq_refl eq_refl eq_refl Hargs Hvel (fun _ => Hmin))
    as (s1 & s2 & H1 & H2 & H3 & _).
  by exists s1, s2.
Defined.

(** X18 on a bend of 5.0, which the clamp takes to 1.0, and a channel
    argument of 2^40, which is 0 as an [int]. *)
Lemma pitchbend_then_flush_witness :
  (initcheck fresh_state = true /\ queue_wf fresh_state = true /\
   commandQueueIndex fresh_state = 0 /\ alloc_ok plain_env = true /\
   lua_gettop [2 ^ 40] <= 1 /\
   wrap_int (luaL_checkinteger [2 ^ 40] 1) <> - 2 ^ 31 /\
   double_of_Z 5 <> S754_nan) /\
  exists s1 s2 lsb msb,
    midi_pitchbend plain_env (double_of_Z 5) [2 ^ 40] fresh_state = Return s1 /\
    midi_sendMessages plain_env s1 = Return s2 /\
    received s2 = [(0xE0, lsb, msb)] /\
    lsb + 128 * msb = 16383.
Proof.
  assert (Hargs : lua_gettop [2 ^ 40] <= 1) by (unfold lua_gettop; simpl; lia).
  assert (Hmin : wrap_int (luaL_checkinteger [2 ^ 40] 1) <> - 2 ^ 31)
    by (vm_compute; discriminate).
  assert (Hnan : double_of_Z 5 <> S754_nan) by (vm_compute; discriminate).
  assert (Hdelta : bend_delta (double_of_Z 5) = Some 8191)
    by (vm_compute; reflexivity).
  split; [by repeat split|].
  destruct (pitchbend_then_flush plain_env plain_env (double_of_Z 5) [2 ^ 40]
              fresh_state
              eq_refl eq_refl eq_refl eq_refl eq_refl Hargs (fun _ => Hmin) Hnan)
    as (s1 & s2 & d & lsb & msb & Hd & _ & H1 & H2 & H3 & _ & _ & H4).
  exists s1, s2, lsb, msb.
  rewrite Hdelta in Hd. injection Hd as <-.
  exact (conj H1 (conj H2 (conj H3 H4))).
Defined.

(** The clamp and the rounding of the bend at some values: 0, the two ends,
    beyond the ends, a half that rounds away from zero, and a NaN. *)
Lemma bend_delta_examples :
  bend_delta (double_of_Z 0) = Some 0 /\
  bend_delta (double_of_Z 1) = Some 8191 /\
  bend_delta (double_of_Z (-1)) = Some (-8191) /\
  bend_delta (double_of_Z 1000) = Some 8191 /\
  bend_delta (S754_infinity true) = Some (-8191) /\
  bend_delta (S754_finite false 1 (-1)) = Some 4096 /\
  bend_delta S754_nan = None.
Proof. repeat split; vm_compute; reflexivity. Qed.

(** X19 on a controller and a channel beyond the [int] range and a value
    of 128. *)
Lemma cc_then_flush_witness :
  (initcheck fresh_state = true /\ queue_wf fresh_state = true /\
   commandQueueIndex fresh_state = 0 /\ alloc_ok plain_env = true /\
   2 <= lua_gettop [2 ^ 32 + 5; 128; 2 ^ 32 + 3] <= 3 /\
   wrap_int (luaL_checkinteger [2 ^ 32 + 5; 128; 2 ^ 32 + 3] 3) <> - 2 ^ 31) /\
  exists s1 s2,
    midi_CC plain_env [2 ^ 32 + 5; 128; 2 ^ 32 + 3] fresh_state = Return s1 /\
    midi_sendMessages plain_env s1 = Return s2 /\
    received s2 = [(0xB2, 5, 0)].
Proof.
  assert (Hargs : 2 <= lua_gettop [2 ^ 32 + 5; 128; 2 ^ 32 + 3] <= 3)
    by (unfold lua_gettop; simpl; lia).
  assert (Hmin : wrap_int (luaL_checkinteger [2 ^ 32 + 5; 128; 2 ^ 32 + 3] 3)
                 <> - 2 ^ 31)
    by (vm_compute; discriminate).
  split; [by repeat split|].
  destruct (cc_then_flush plain_env plain_env [2 ^ 32 + 5; 128; 2 ^ 32 + 3]
              fresh_state
              eq_refl eq_refl eq_refl eq_refl eq_refl Hargs (fun _ => Hmin))
    as (s1 & s2 & H1 & H2 & H3 & _).
  by exists s1, s2.
Defined.

(** X22 on a note of four duration units of 16 ms: the note-off comes
    1000000 * 16 * 4 ns after the note-on. *)
Lemma timed_note_lifecycle_witness :
  (initcheck fresh_state = true /\ queue_wf fresh_state = true /\
   commandQueueIndex fresh_state = 0 /\ alloc_ok plain_env = true /\
   3 <= lua_gettop [60; 100; 4] <= 4 /\
   Z.land (luaL_checkinteger [60; 100; 4] 2) 0x7F <> 0 /\
   0 < wrap_int (luaL_checkinteger [60; 100; 4] 3) /\
   lua_gettop [60; 100; 4] <> 4 /\
   notePlaying fresh_state 0 60 = false) /\
  exists s1 s2,
    midi_noteonwithduration plain_env [60; 100; 4] fresh_state = Return s1 /\
    midi_sendMessages plain_env s1 = Return s2 /\
    delta <$> timers s2 = [Some 64000000; Some 0] /\
    note_off_delay (duration_unit fresh_state) 4 (float_of_Z 0)
    = Some (1000000 * 16 * 4) /\
    received (fire 0 s2) = [(0x90, 60, 100); (0x80, 60, 0)].
Proof.
  assert (Hargs : 3 <= lua_gettop [60; 100; 4] <= 4)
    by (unfold lua_gettop; simpl; lia).
  assert (Hvel : Z.land (luaL_checkinteger [60; 100; 4] 2) 0x7F <> 0) by done.
  assert (Hdur : 0 < wrap_int (luaL_checkinteger [60; 100; 4] 3)) by done.
  assert (Hthree : lua_gettop [60; 100; 4] <> 4) by done.
  split; [by repeat split|].
  destruct (timed_note_lifecycle plain_env plain_env [60; 100; 4] fresh_state
              eq_refl eq_refl eq_refl eq_refl eq_refl Hargs Hvel Hdur
              (fun Hfour => match Hthree Hfour with end) eq_refl)
    as (s1 & s2 & H1 & H2 & _ & _ & Ht & Hexact & H3 & _).
  exists s1, s2. split; [done|]. split; [done|].
  split; [rewrite Ht; vm_compute; reflexivity|]. split; [|done].
  apply (Hexact 16); vm_compute; reflexivity.
Defined.

(** X20 on a fresh module. *)
Lemma empty_flush_witness :
  (initcheck fresh_state = true /\ commandQueueIndex fresh_state = 0) /\
  exists s',
    midi_sendMessages plain_env fresh_state = Return s' /\
    timers s' = [mkTimer (Some 0) (DelayedBlock [])] /\
    fire 0 s' = fresh_state.
Proof.
  split; [by split|].
  destruct (empty_flush plain_env fresh_state eq_refl eq_refl)
    as (s' & H1 & _ & _ & _ & H2 & H3).
  by exists s'.
Defined.

(** X21 on the module as loaded. *)
Lemma reset_of_silent_channel_witness :
  channel_silent 0 static_init /\
  received (sendResetNotes 0 static_init) = received static_init.
Proof.
  assert (Hs : channel_silent 0 static_init) by done.
  exact (conj Hs (proj1 (reset_of_silent_channel 0 static_init Hs))).
Defined.

(** C3, amended, on the scenario. *)
Lemma noteon_before_noteoff_witness :
  (batch_in_range on_then_off = true /\
   on_then_off !! 0%nat = Some NoteOn_0_60 /\
   on_then_off !! 1%nat = Some NoteOff_0_60 /\
   (0 < 1)%nat /\
   is_noteon NoteOn_0_60 = true /\
   type NoteOff_0_60 = kNoteOff /\
   channel NoteOff_0_60 = channel NoteOn_0_60 /\
   note NoteOff_0_60 = note NoteOn_0_60) /\
  type <$> fst (coalesce quiet on_then_off) !! 0%nat = Some kInvalid /\
  snd (coalesce quiet on_then_off) = snd (coalesce quiet [NoteOff_0_60]) /\
  fst (coalesce quiet on_then_off) !! 1%nat = Some NoteOff_0_60 /\
  (0x80, 60, 100) ∈
    sent_since static_init (pass3 (fst (coalesce quiet on_then_off)) static_init).
Proof.
  split; [repeat split; first [reflexivity | lia]|].
  destruct (noteon_before_noteoff quiet on_then_off 0 1 NoteOn_0_60 NoteOff_0_60
              eq_refl eq_refl eq_refl (le_n 1) eq_refl eq_refl eq_refl eq_refl)
    as (Hon & _ & Hdel & _ & Hoff & _ & Hsent).
  exact (conj Hon (conj Hdel (conj Hoff (Hsent static_init)))).
Defined.

(** C5 on a reset between two note-ons of its channel. *)
Lemma resetnotes_invalidates_earlier_only_witness :
  let q := [NoteOn_0_60; ResetNotes_0; NoteOn_0_60] in
  (batch_in_range q = true /\
   q !! 1%nat = Some ResetNotes_0 /\
   type ResetNotes_0 = kResetNotes) /\
  (type <$> fst (coalesce quiet q) !! 0%nat = Some kInvalid /\
   immediateList (fst (coalesce quiet q)) =
     immediateList (fst (coalesce quiet [ResetNotes_0; NoteOn_0_60]))) /\
  fst (coalesce quiet q) !! 2%nat = fst (coalesce quiet (delete 1%nat q)) !! 1%nat /\
  snd (pass1 quiet q (locals_init 3)) !! 2%nat = Some NoteOn_0_60.
Proof.
  intros q. split; [by repeat split|].
  destruct (resetnotes_invalidates_earlier_only quiet q 1 ResetNotes_0
              eq_refl eq_refl eq_refl) as (Hearlier & Hlater & Hkept).
  destruct (Hearlier 0%nat NoteOn_0_60 (le_n 1) eq_refl eq_refl eq_refl)
    as (Hty & Himm & _).
  exact (conj (conj Hty Himm)
           (conj (Hlater 2%nat (le_n 2))
              (Hkept 2%nat NoteOn_0_60 (le_n 2) eq_refl eq_refl eq_refl
                 eq_refl eq_refl eq_refl))).
Defined.

(** C6 on three changes of controller 7 around a note-on. *)
Lemma last_cc_survives_witness :
  let q := [CC_7 10; NoteOn_0_60; CC_7 20; CC_7 30] in
  (batch_in_range q = true /\
   (1 <= length (filter (fun c => cc_for 7 0 c = true) q))%nat) /\
  filter (fun c => cc_for 7 0 c = true) (immediateList (fst (coalesce quiet q)))
    = [CC_7 30] /\
  filter (fun p => cc_message 7 0 p = true)
    (sent_since static_init (pass3 (fst (coalesce quiet q)) static_init)) =
    [(0xB0, 7, 30)].
Proof.
  intros q.
  assert (HN : (1 <= length (filter (fun c => cc_for 7 0 c = true) q))%nat)
    by (vm_compute; lia).
  split; [by split|].
  destruct (last_cc_survives quiet q 7 0 eq_refl HN) as (c & Hlast & Himm & Hsent).
  injection Hlast as <-. exact (conj Himm (Hsent static_init)).
Defined.

(** X10 where a block runs between the two scans: with the delayed block
    of [retrigger_pending_run] pending, step 1 counts no note for the
    buffer; if the block runs before step 2 reads the flag, step 2 stores
    one command. *)
Lemma delayed_buffer_exact_witness :
  let s := default static_init (run retrigger_pending_run static_init) in
  let scanned := snd (pass1 (notePlaying s) (queued s) (locals_init 1)) in
  run retrigger_pending_run static_init = Some s /\
  timers s !! 1%nat = Some (mkTimer (Some 0) (DelayedBlock [NoteOn_0_60])) /\
  laterNotes (fst (pass1 (notePlaying s) (queued s) (locals_init 1))) = 0 /\
  length (snd (pass2 (notePlaying (fire 1 s)) scanned [])) = 1%nat.
Proof.
  intros s scanned.
  destruct (delayed_buffer_exact (notePlaying s) (notePlaying (fire 1 s))
              (queued s) 1) as (Hcells & Hstores & _).
  split; [vm_compute; reflexivity|]. split; [vm_compute; reflexivity|].
  subst scanned. rewrite Hcells, Hstores. split; vm_compute; reflexivity.
Defined.
